(** * cli-builder-core: a shallow embedding of the prompt engine, the plugin
    manager and the project generator, with the properties of their
    specification.

    Layout: Part I holds the definitions, translated function by function
    from the TypeScript sources (the source file and symbol is named above
    each definition); Part II holds the theorems. In each part the
    components of the specification come first, with [hex] and the
    console presenter that the prompt engine calls; after them come
    [CLIBuilder.run], the validation manager and the validators,
    [createCLI], the readline manager, the command-line parser and the
    helpers of the plugin manager, with properties read off the code
    (marked X1, X2, ...).

    Conventions.
    - A JavaScript string is a [string]: a sequence of code units in the
      Latin-1 range (one [ascii] per code unit); the emoji of the console
      messages are written as their UTF-8 bytes.
    - A JavaScript value of type [unknown] is a [value]; a missing property
      reads as [VUndefined], as in JavaScript for every name that is not
      a member of [Object.prototype].
    - [async] code is sequential ([await] on every call), so it is written
      in a state-and-exception monad [M]; [try]/[catch] is [try_catch].
      The state carries the console/terminal trace and, per component, the
      mutable object state (the plugin map, the pending input lines).
      The one place where promises run side by side is the join of
      [executeHook]: there the order in which they settle is a parameter.
    - Callbacks supplied by the configuration ([when], [validate],
      [transform], file [content] and [condition]) are pure functions. *)

From Stdlib Require Import ZArith Ascii String List Bool Lia.
From stdpp Require Import base option list gmap strings.

Local Open Scope string_scope.
Local Open Scope list_scope.

(* ===================================================================== *)
(** * Part I: definitions                                                  *)
(* ===================================================================== *)

(** ** JavaScript values *)

Module Js.

(** The numbers the modelled code produces or inspects are integers, so
    [VNum] carries a [Z]; objects other than arrays do not occur as
    answers. *)
#[warnings="-register-all"] Inductive value : Type :=
| VUndefined
| VNull
| VBool (b : bool)
| VNum (z : Z)
| VStr (s : string)
| VArr (l : list value).

(** ToBoolean. *)
Definition truthy (v : value) : bool :=
  match v with
  | VUndefined | VNull => false
  | VBool b => b
  | VNum z => negb (Z.eqb z 0)
  | VStr s => negb (String.eqb s "")
  | VArr _ => true
  end.

(** [typeof v === 'string'] *)
Definition is_string (v : value) : bool :=
  match v with VStr _ => true | _ => false end.

(** [v !== undefined] *)
Definition defined (v : value) : bool :=
  match v with VUndefined => false | _ => true end.

(** [v != null] (loose): neither [null] nor [undefined]. *)
Definition not_nullish (v : value) : bool :=
  match v with VUndefined | VNull => false | _ => true end.

(** [v !== false] *)
Definition not_false (v : value) : bool :=
  match v with VBool false => false | _ => true end.

Definition digit_of_nat (n : nat) : ascii := ascii_of_nat (48 + n).

Fixpoint nat_digits (fuel n : nat) (acc : string) : string :=
  match fuel with
  | O => acc
  | S fuel' =>
      let acc' := String (digit_of_nat (n mod 10)) acc in
      if Nat.ltb n 10 then acc' else nat_digits fuel' (n / 10) acc'
  end.

Definition nat_to_string (n : nat) : string := nat_digits (S n) n "".

Definition Z_to_string (z : Z) : string :=
  match z with
  | Z0 => "0"
  | Zpos p => nat_to_string (Pos.to_nat p)
  | Zneg p => "-" ++ nat_to_string (Pos.to_nat p)
  end.

Fixpoint join_with (sep : string) (l : list string) : string :=
  match l with
  | [] => ""
  | [s] => s
  | s :: rest => s ++ sep ++ join_with sep rest
  end.

(** ToString, as a template literal [`${v}`] applies it. *)
Fixpoint to_string (v : value) : string :=
  match v with
  | VUndefined => "undefined"
  | VNull => "null"
  | VBool true => "true"
  | VBool false => "false"
  | VNum z => Z_to_string z
  | VStr s => s
  | VArr l =>
      join_with ","
        (List.map (fun x => match x with
                            | VUndefined | VNull => ""
                            | _ => to_string x
                            end) l)
  end.

(** An object used as a dictionary ([Record<string, unknown>]): the map
    of its own properties. Reading a key that was never written gives
    [undefined], which is what a plain object does for every name but
    those it inherits from [Object.prototype] ([inherited] below): for
    these, [get] is the value of the own property only. *)
Abbreviation dict := (gmap string value).

Definition get (d : dict) (k : string) : value := default VUndefined (d !! k).
Definition set (d : dict) (k : string) (v : value) : dict := <[k := v]> d.

(** The members of [Object.prototype]: read on a plain object that has no
    own property of that name, they give the inherited function or
    accessor, not [undefined]. *)
Definition inherited (k : string) : bool :=
  existsb (String.eqb k)
    ["constructor"; "hasOwnProperty"; "isPrototypeOf"; "propertyIsEnumerable";
     "toLocaleString"; "toString"; "valueOf"; "__proto__";
     "__defineGetter__"; "__defineSetter__";
     "__lookupGetter__"; "__lookupSetter__"].

End Js.
Export Js.

(** ** src/errors/index.ts: the error classes and [ErrorFactory] *)

Module Errors.

(** [CLIErrorContext]. [additionalInfo] is a list of key/value pairs. *)
Record CLIErrorContext : Type := mkContext {
  operation : option string;
  projectName : option string;
  template : option string;
  filePath : option string;
  additionalInfo : list (string * value)
}.

Definition no_context : CLIErrorContext := mkContext None None None None [].

(** The class of an [Error] instance. [PlainError] stands for every [Error]
    that is not a [CLIError] (system errors, errors of user callbacks). *)
Inductive error_class : Type :=
| PlainError
| ValidationError
| TemplateError
| FileSystemError
| DependencyError
| PluginError
| ReadlineError
| ConfigurationError
| NetworkError
| ProcessError.

(** An [Error] instance: its class, [message], [code] (present on every
    [CLIError] and on Node system errors) and [context]. The creation
    [timestamp] and the [stack] are not modelled. *)
Record error : Type := mkError {
  e_class : error_class;
  e_message : string;
  e_code : option string;
  e_context : CLIErrorContext
}.

(** What a [throw] carries or a promise rejects with: an [Error] instance,
    or any other value ([error instanceof Error] is false). *)
Inductive thrown : Type :=
| ErrorObj (e : error)
| NonError (v : value).

Definition class_code (c : error_class) : option string :=
  match c with
  | PlainError => None
  | ValidationError => Some "VALIDATION_ERROR"
  | TemplateError => Some "TEMPLATE_ERROR"
  | FileSystemError => Some "FILESYSTEM_ERROR"
  | DependencyError => Some "DEPENDENCY_ERROR"
  | PluginError => Some "PLUGIN_ERROR"
  | ReadlineError => Some "READLINE_ERROR"
  | ConfigurationError => Some "CONFIGURATION_ERROR"
  | NetworkError => Some "NETWORK_ERROR"
  | ProcessError => Some "PROCESS_ERROR"
  end.

(** [new XError(message, context)] through [CLIError]'s constructor. *)
Definition cli_error (c : error_class) (message : string)
    (context : CLIErrorContext) : error :=
  mkError c message (class_code c) context.

(** [new Error(message)] *)
Definition plain_error (message : string) : error :=
  mkError PlainError message None no_context.

Module ErrorFactory.
Definition filesystem (message : string) (context : CLIErrorContext) : error :=
  cli_error FileSystemError message context.
Definition dependency (message : string) (context : CLIErrorContext) : error :=
  cli_error DependencyError message context.
Definition plugin (message : string) (context : CLIErrorContext) : error :=
  cli_error PluginError message context.
End ErrorFactory.

End Errors.
Export Errors.

(** ** Effects: state, exceptions, and calls that never return *)

Module Effect.

(** The outcome of running a piece of code: it returns, it throws (an
    [async] function: its promise rejects), or it waits for ever on
    something that never arrives ([Blocked]). *)
Inductive result (A : Type) : Type :=
| Ok (a : A)
| Throw (t : thrown)
| Blocked.
Arguments Ok {A} a.
Arguments Throw {A} t.
Arguments Blocked {A}.

Definition M (S A : Type) : Type := S -> result A * S.

Definition ret {S A} (a : A) : M S A := fun s => (Ok a, s).

Definition bind {S A B} (m : M S A) (k : A -> M S B) : M S B :=
  fun s =>
    match m s with
    | (Ok a, s') => k a s'
    | (Throw t, s') => (Throw t, s')
    | (Blocked, s') => (Blocked, s')
    end.

Definition throw {S A} (t : thrown) : M S A := fun s => (Throw t, s).

(** [try { m } catch (error) { h error }] *)
Definition try_catch {S A} (m : M S A) (h : thrown -> M S A) : M S A :=
  fun s =>
    match m s with
    | (Throw t, s') => h t s'
    | r => r
    end.

(** A call that never returns. *)
Definition block {S A} : M S A := fun s => (Blocked, s).

Definition gets {S A} (f : S -> A) : M S A := fun s => (Ok (f s), s).
Definition modify {S} (f : S -> S) : M S unit := fun s => (Ok tt, f s).

(** [if (c) { m }] *)
Definition when_ {S} (c : bool) (m : M S unit) : M S unit :=
  if c then m else ret tt.

(** How a promise ends. *)
Inductive settle : Type :=
| Fulfils
| Rejects (t : thrown)
| NeverSettles.

(** What calling a user-supplied function that may be [async] does: it
    returns something that is not a promise, it throws, or it returns a
    promise. *)
Inductive behaviour : Type :=
| Returns
| Throws (t : thrown)
| ReturnsPromise (s : settle).

(** [await f(...)] for a call that behaves as [b]. *)
Definition await {S} (b : behaviour) : M S unit :=
  match b with
  | Returns => ret tt
  | Throws t => throw t
  | ReturnsPromise Fulfils => ret tt
  | ReturnsPromise (Rejects t) => throw t
  | ReturnsPromise NeverSettles => block
  end.

Fixpoint for_each {S A} (l : list A) (body : A -> M S unit) : M S unit :=
  match l with
  | [] => ret tt
  | x :: rest => bind (body x) (fun _ => for_each rest body)
  end.

End Effect.
Export Effect.

Declare Scope js_scope.
Delimit Scope js_scope with js.
Notation "x <- m ;; k" := (bind m (fun x => k))
  (at level 100, m at next level, right associativity) : js_scope.
Notation "m ;;; k" := (bind m (fun _ => k))
  (at level 100, right associativity) : js_scope.
Local Open Scope js_scope.

(** ** Regular expressions, for [semverRegex.test] *)

Module Regex.

(** The fragment of JavaScript regular expressions the source uses:
    character classes, concatenation, alternation and repetition. A pattern
    written between [^] and [$] (no [m] flag) accepts exactly the whole
    input, which is what [matches] decides, by derivatives. *)
Inductive regex : Type :=
| Void
| Eps
| Chr (p : ascii -> bool)
| Seq (r1 r2 : regex)
| Alt (r1 r2 : regex)
| Star (r : regex).

Definition Plus (r : regex) : regex := Seq r (Star r).
Definition Opt (r : regex) : regex := Alt r Eps.
Definition Lit (c : ascii) : regex := Chr (Ascii.eqb c).

Fixpoint nullable (r : regex) : bool :=
  match r with
  | Void => false
  | Eps => true
  | Chr _ => false
  | Seq r1 r2 => nullable r1 && nullable r2
  | Alt r1 r2 => nullable r1 || nullable r2
  | Star _ => true
  end.

Fixpoint deriv (c : ascii) (r : regex) : regex :=
  match r with
  | Void => Void
  | Eps => Void
  | Chr p => if p c then Eps else Void
  | Seq r1 r2 =>
      if nullable r1
      then Alt (Seq (deriv c r1) r2) (deriv c r2)
      else Seq (deriv c r1) r2
  | Alt r1 r2 => Alt (deriv c r1) (deriv c r2)
  | Star r1 => Seq (deriv c r1) (Star r1)
  end.

Fixpoint matches (r : regex) (s : string) : bool :=
  match s with
  | EmptyString => nullable r
  | String c s' => matches (deriv c r) s'
  end.

(** [\d] without the [u] flag: the ten ASCII digits. *)
Definition is_digit (c : ascii) : bool :=
  let n := nat_of_ascii c in Nat.leb 48 n && Nat.leb n 57.

(** [[0-9A-Za-z-]] *)
Definition is_ident_char (c : ascii) : bool :=
  let n := nat_of_ascii c in
  (Nat.leb 48 n && Nat.leb n 57) || (Nat.leb 65 n && Nat.leb n 90)
  || (Nat.leb 97 n && Nat.leb n 122) || Nat.eqb n 45.

End Regex.

(** ** src/plugins/plugin-manager.ts *)

Module PluginManager.
Import Regex.

(** [keyof PluginHooks] *)
Inductive hook_name : Type :=
| HBeforeGenerate
| HAfterGenerate
| HBeforeInstall
| HAfterInstall
| HOnError.

Definition hook_name_string (h : hook_name) : string :=
  match h with
  | HBeforeGenerate => "beforeGenerate"
  | HAfterGenerate => "afterGenerate"
  | HBeforeInstall => "beforeInstall"
  | HAfterInstall => "afterInstall"
  | HOnError => "onError"
  end.

(** An argument handed to a hook. *)
Inductive arg : Type :=
| ArgValue (v : value)
| ArgError (t : thrown)
| ArgString (s : string).

Definition handler : Type := list arg -> behaviour.

Record PluginHooks : Type := mkHooks {
  beforeGenerate : option handler;
  afterGenerate : option handler;
  beforeInstall : option handler;
  afterInstall : option handler;
  onError : option handler
}.

(** [PluginConfig]. [name] and [version] are [value]s because [install]
    checks their type at run time. The fields [templates], [validators] and
    [themes] are stored untouched and read by no modelled function; they
    are left out. *)
Record PluginConfig : Type := mkPlugin {
  name : value;
  version : value;
  description : option string;
  hooks : option PluginHooks
}.

(** [plugin.hooks[hookName]] *)
Definition hook_of (hs : PluginHooks) (h : hook_name) : option handler :=
  match h with
  | HBeforeGenerate => beforeGenerate hs
  | HAfterGenerate => afterGenerate hs
  | HBeforeInstall => beforeInstall hs
  | HAfterInstall => afterInstall hs
  | HOnError => onError hs
  end.

Inductive event : Type :=
| ConsoleLog (s : string)
| ConsoleWarn (s : string) (t : thrown)
| ConsoleError (s : string) (t : thrown)
| HookCall (plugin : value) (h : hook_name) (args : list arg)
| OnErrorCall (plugin : value) (t : thrown) (context : string).

(** Key equality of a JavaScript [Map] (SameValueZero). Arrays are objects
    and compare by identity; no array is ever stored as a key, so a lookup
    with one finds nothing. *)
Definition same_key (a b : value) : bool :=
  match a, b with
  | VUndefined, VUndefined => true
  | VNull, VNull => true
  | VBool x, VBool y => Bool.eqb x y
  | VNum x, VNum y => Z.eqb x y
  | VStr x, VStr y => String.eqb x y
  | _, _ => false
  end.

(** [Map<string, PluginConfig>]: the entries in insertion order. *)
Definition plugin_map : Type := list (value * PluginConfig).

Fixpoint map_get (m : plugin_map) (k : value) : option PluginConfig :=
  match m with
  | [] => None
  | (k', v) :: rest => if same_key k' k then Some v else map_get rest k
  end.

Definition map_has (m : plugin_map) (k : value) : bool :=
  match map_get m k with Some _ => true | None => false end.

(** [Map.prototype.set]: an existing key keeps its place. *)
Fixpoint map_set (m : plugin_map) (k : value) (v : PluginConfig) : plugin_map :=
  match m with
  | [] => [(k, v)]
  | (k', v') :: rest =>
      if same_key k' k then (k', v) :: rest else (k', v') :: map_set rest k v
  end.

Fixpoint map_delete (m : plugin_map) (k : value) : plugin_map :=
  match m with
  | [] => []
  | (k', v') :: rest =>
      if same_key k' k then rest else (k', v') :: map_delete rest k
  end.

Definition map_values (m : plugin_map) : list PluginConfig := List.map snd m.

(** The state of a [PluginManager] object and of the console. *)
Record state : Type := mkState {
  plugins : plugin_map;
  console : list event
}.

Definition emit (e : event) : M state unit :=
  modify (fun st => mkState (plugins st) (console st ++ [e])).

Definition set_plugins (m : plugin_map) : M state unit :=
  modify (fun st => mkState m (console st)).

(** [semverRegex]: the source pattern is
    [^(\d+)\.(\d+)\.(\d+)(?:-(IDS))?(?:\+(IDS))?$], where IDS abbreviates
    [[0-9A-Za-z-]+] followed by any number of [\.[0-9A-Za-z-]+] (the
    [identifiers] below); capture groups do not matter to [test]. *)
Definition identifiers : regex :=
  Seq (Plus (Chr is_ident_char))
      (Star (Seq (Lit ".") (Plus (Chr is_ident_char)))).

Definition semverRegex : regex :=
  Seq (Plus (Chr is_digit))
  (Seq (Lit ".")
  (Seq (Plus (Chr is_digit))
  (Seq (Lit ".")
  (Seq (Plus (Chr is_digit))
  (Seq (Opt (Seq (Lit "-") identifiers))
       (Opt (Seq (Lit "+") identifiers))))))).

(** [validatePluginConfig] *)
Definition validatePluginConfig (config : PluginConfig) : M state unit :=
  if negb (truthy (name config)) || negb (is_string (name config)) then
    throw (ErrorObj (ErrorFactory.plugin
      "Plugin name is required and must be a string" no_context))
  else if negb (truthy (version config)) || negb (is_string (version config)) then
    throw (ErrorObj (ErrorFactory.plugin
      "Plugin version is required and must be a string" no_context))
  else if negb (matches semverRegex (to_string (version config))) then
    throw (ErrorObj (ErrorFactory.plugin
      ("Plugin version '" ++ to_string (version config)
       ++ "' is not a valid semantic version") no_context))
  else ret tt.

Definition plugin_context (op : string) (pluginName : value) : CLIErrorContext :=
  mkContext (Some op) None None None [("pluginName", pluginName)].

(** [install] *)
Definition install (config : PluginConfig) : M state unit :=
  try_catch
    (has <- gets (fun st => map_has (plugins st) (name config)) ;;
     when_ has
       (throw (ErrorObj (ErrorFactory.plugin
          ("Plugin '" ++ to_string (name config) ++ "' is already installed")
          (plugin_context "install" (name config))))) ;;;
     validatePluginConfig config ;;;
     m <- gets plugins ;;
     set_plugins (map_set m (name config) config) ;;;
     emit (ConsoleLog ("✅ Plugin '" ++ to_string (name config) ++ "' v"
                       ++ to_string (version config)
                       ++ " installed successfully")))
    (fun error =>
       match error with
       | ErrorObj e =>
           throw (ErrorObj (ErrorFactory.plugin
             ("Failed to install plugin '" ++ to_string (name config)
              ++ "': " ++ e_message e)
             (plugin_context "install" (name config))))
       | NonError _ => throw error
       end).

(** [uninstall] *)
Definition uninstall (name : string) : M state unit :=
  try_catch
    (has <- gets (fun st => map_has (plugins st) (VStr name)) ;;
     when_ (negb has)
       (throw (ErrorObj (ErrorFactory.plugin
          ("Plugin '" ++ name ++ "' is not installed")
          (plugin_context "uninstall" (VStr name))))) ;;;
     m <- gets plugins ;;
     set_plugins (map_delete m (VStr name)) ;;;
     emit (ConsoleLog ("✅ Plugin '" ++ name ++ "' uninstalled successfully")))
    (fun error =>
       match error with
       | ErrorObj e =>
           throw (ErrorObj (ErrorFactory.plugin
             ("Failed to uninstall plugin '" ++ name ++ "': " ++ e_message e)
             (plugin_context "uninstall" (VStr name))))
       | NonError _ => throw error
       end).

(** [getPlugin] *)
Definition getPlugin (st : state) (name : string) : option PluginConfig :=
  map_get (plugins st) (VStr name).

(** [listPlugins] *)
Definition listPlugins (st : state) : list PluginConfig :=
  map_values (plugins st).

(** *** [executeHook] *)

(** An entry of the local array [promises]: either [result.catch(...)] for
    the promise [result] a hook returned (which ends as [s]), or the
    promise an [onError] handler returned, pushed as it is. *)
Inductive pending : Type :=
| Caught (plugin : PluginConfig) (hookName : hook_name) (s : settle)
| Bare (s : settle).

(** The manager state together with the local array [promises]. *)
Definition hstate : Type := state * list pending.

(** When a promise settles is for its maker to decide, not for
    [executeHook]: a schedule gives the order in which the entries of
    [promises] settle, which is any order. *)
Record schedule : Type := mkSchedule {
  arrival : list pending -> list pending;
  arrival_perm : forall ps, Permutation (arrival ps) ps
}.

(** The schedule of promises that settle in the order of the array, as
    promises do that are settled already when they are pushed. *)
Definition in_order : schedule :=
  mkSchedule (fun ps => ps) (fun ps => Permutation_refl ps).

(** The schedule of promises of which the last pushed settles first. *)
Definition last_first : schedule :=
  mkSchedule (@rev pending) (fun ps => Permutation_sym (Permutation_rev ps)).

Definition hemit (e : event) : M hstate unit :=
  modify (fun h => (mkState (plugins (fst h)) (console (fst h) ++ [e]), snd h)).

(** [promises.push(p)] *)
Definition push (p : pending) : M hstate unit :=
  modify (fun h => (fst h, snd h ++ [p])).

Definition hook_context (hookName : hook_name) : string :=
  "hook:" ++ hook_name_string hookName.

Definition warn_message (plugin : PluginConfig) (hookName : hook_name) : string :=
  "Warning: Plugin '" ++ to_string (name plugin) ++ "' hook '"
  ++ hook_name_string hookName ++ "' failed:".

Definition onError_message (plugin : PluginConfig) : string :=
  "Plugin '" ++ to_string (name plugin) ++ "' onError hook also failed:".

(** [hook(...args)]: [Some s] when the result is a [Promise]. *)
Definition call_hook (plugin : PluginConfig) (hookName : hook_name)
    (hook : handler) (args : list arg) : M hstate (option settle) :=
  hemit (HookCall (name plugin) hookName args) ;;;
  match hook args with
  | Returns => ret None
  | Throws t => throw t
  | ReturnsPromise s => ret (Some s)
  end.

(** [plugin.hooks.onError(err, `hook:${hookName}`)] *)
Definition call_onError (plugin : PluginConfig) (onErr : handler)
    (err : thrown) (hookName : hook_name) : M hstate (option settle) :=
  hemit (OnErrorCall (name plugin) err (hook_context hookName)) ;;;
  match onErr [ArgError err; ArgString (hook_context hookName)] with
  | Returns => ret None
  | Throws t => throw t
  | ReturnsPromise s => ret (Some s)
  end.

(** The body of the [for] loop of [executeHook], for one plugin. *)
Definition hook_body (hookName : hook_name) (args : list arg)
    (plugin : PluginConfig) : M hstate unit :=
  match hooks plugin with
  | Some hs =>
      match hook_of hs hookName with
      | Some hook =>
          try_catch
            (result <- call_hook plugin hookName hook args ;;
             match result with
             | Some s => push (Caught plugin hookName s)
             | None => ret tt
             end)
            (fun error =>
               hemit (ConsoleWarn (warn_message plugin hookName) error) ;;;
               match onError hs with
               | Some onErr =>
                   try_catch
                     (errorResult <- call_onError plugin onErr error hookName ;;
                      match errorResult with
                      | Some s => push (Bare s)
                      | None => ret tt
                      end)
                     (fun onErrorError =>
                        hemit (ConsoleError (onError_message plugin) onErrorError))
               | None => ret tt
               end)
      | None => ret tt
      end
  | None => ret tt
  end.

(** The [async (err) => ...] callback given to [result.catch]; the value is
    how the promise returned by [catch] ends. The [return] of the
    [onError] result is not awaited inside the [try], so a promise that
    [onError] returns is adopted as it is. *)
Definition catch_callback (plugin : PluginConfig) (hookName : hook_name)
    (err : thrown) : M hstate settle :=
  hemit (ConsoleWarn (warn_message plugin hookName) err) ;;;
  match hooks plugin with
  | Some hs =>
      match onError hs with
      | Some onErr =>
          try_catch
            (r <- call_onError plugin onErr err hookName ;;
             match r with
             | Some s => ret s
             | None => ret Fulfils
             end)
            (fun onErr =>
               hemit (ConsoleError (onError_message plugin) onErr) ;;;
               ret Fulfils)
      | None => ret Fulfils
      end
  | None => ret Fulfils
  end.

(** How one entry of [promises] ends, running its reaction if it has one:
    the callback given to [catch] runs when the promise rejects. *)
Definition settle_one (p : pending) : M hstate settle :=
  match p with
  | Bare s => ret s
  | Caught plugin hookName Fulfils => ret Fulfils
  | Caught plugin hookName (Rejects err) => catch_callback plugin hookName err
  | Caught plugin hookName NeverSettles => ret NeverSettles
  end.

Fixpoint settle_all (ps : list pending) : M hstate (list settle) :=
  match ps with
  | [] => ret []
  | p :: rest =>
      s <- settle_one p ;;
      ss <- settle_all rest ;;
      ret (s :: ss)
  end.

Definition settled (s : settle) : bool :=
  match s with NeverSettles => false | _ => true end.

(** [await Promise.allSettled(promises)]: the loop has ended when the
    first reaction runs, and the reactions run one after the other in the
    order in which the promises settle; the [await] resumes once every
    entry has settled, whether fulfilled or rejected, and never if one of
    them never settles. *)
Definition allSettled (order : schedule) (ps : list pending) : M hstate unit :=
  ss <- settle_all (arrival order ps) ;;
  if forallb settled ss then ret tt else block.

Definition executeHook_body (order : schedule) (hookName : hook_name)
    (args : list arg) (values : list PluginConfig) : M hstate unit :=
  for_each values (hook_body hookName args) ;;;
  ps <- gets snd ;;
  when_ (Nat.ltb 0 (List.length ps)) (allSettled order ps).

(** [executeHook], for promises that settle in the given order. *)
Definition executeHook (order : schedule) (hookName : hook_name)
    (args : list arg) : M state unit :=
  fun st =>
    let (r, h) :=
      executeHook_body order hookName args (map_values (plugins st)) (st, []) in
    (r, fst h).

End PluginManager.

(** ** String primitives of the JavaScript library *)

Module Str.

(** White space and line terminators, as [trim] and [parseInt] skip them
    (the code units below 256 among them). *)
Definition is_whitespace (c : ascii) : bool :=
  let n := nat_of_ascii c in
  (Nat.leb 9 n && Nat.leb n 13) || Nat.eqb n 32 || Nat.eqb n 160.

Fixpoint trimStart (s : string) : string :=
  match s with
  | EmptyString => EmptyString
  | String c s' => if is_whitespace c then trimStart s' else s
  end.

Fixpoint trimEnd (s : string) : string :=
  match s with
  | EmptyString => EmptyString
  | String c s' =>
      match trimEnd s' with
      | EmptyString => if is_whitespace c then EmptyString else String c EmptyString
      | t => String c t
      end
  end.

(** [String.prototype.trim] *)
Definition trim (s : string) : string := trimEnd (trimStart s).

Definition lower_char (c : ascii) : ascii :=
  let n := nat_of_ascii c in
  if (Nat.leb 65 n && Nat.leb n 90)
     || (Nat.leb 192 n && Nat.leb n 222 && negb (Nat.eqb n 215))
  then ascii_of_nat (n + 32) else c.

(** [String.prototype.toLowerCase] *)
Fixpoint toLowerCase (s : string) : string :=
  match s with
  | EmptyString => EmptyString
  | String c s' => String (lower_char c) (toLowerCase s')
  end.

(** [s.split(sep)] for a one-character separator. *)
Fixpoint split (sep : ascii) (s : string) : list string :=
  match s with
  | EmptyString => [EmptyString]
  | String c s' =>
      if Ascii.eqb c sep then EmptyString :: split sep s'
      else match split sep s' with
           | h :: t => String c h :: t
           | [] => [String c EmptyString]
           end
  end.

(** The value of [c] as a digit in radix [radix] (10 or 16). *)
Definition digit_value (radix : Z) (c : ascii) : option Z :=
  let n := Z.of_nat (nat_of_ascii c) in
  let d := if Z.leb 48 n && Z.leb n 57 then Some (n - 48)%Z
           else if Z.leb 97 n && Z.leb n 102 then Some (n - 87)%Z
           else if Z.leb 65 n && Z.leb n 70 then Some (n - 55)%Z
           else None in
  match d with
  | Some v => if Z.ltb v radix then Some v else None
  | None => None
  end.

(** The longest prefix of digits, read in [radix]; [None] when there is no
    digit at all. *)
Fixpoint digits_prefix (radix : Z) (s : string) (acc : option Z) : option Z :=
  match s with
  | EmptyString => acc
  | String c s' =>
      match digit_value radix c with
      | Some d => digits_prefix radix s' (Some (default 0%Z acc * radix + d)%Z)
      | None => acc
      end
  end.

(** [parseInt(s)] with no radix argument; [None] is [NaN]. The result of
    the source is a double: it is the exact integer below 2^53 in absolute
    value, and at least 2^53 in absolute value otherwise, so a comparison
    with an array length gives the same answer as on the exact integer. *)
Definition parseInt (s : string) : option Z :=
  let s1 := trimStart s in
  let (sign, s2) :=
    match s1 with
    | String "-" r => ((-1)%Z, r)
    | String "+" r => (1%Z, r)
    | _ => (1%Z, s1)
    end in
  let (radix, s3) :=
    match s2 with
    | String "0" (String "x" r) => (16%Z, r)
    | String "0" (String "X" r) => (16%Z, r)
    | _ => (10%Z, s2)
    end in
  match digits_prefix radix s3 None with
  | Some n => Some (sign * n)%Z
  | None => None
  end.

End Str.

(** ** src/utils/themes.ts: [hex] *)

Module Themes.
Import Regex Str.

(** [[0-9A-Fa-f]] *)
Definition is_hex_digit (c : ascii) : bool :=
  let n := nat_of_ascii c in
  (Nat.leb 48 n && Nat.leb n 57) || (Nat.leb 65 n && Nat.leb n 70)
  || (Nat.leb 97 n && Nat.leb n 102).

(** [/^[0-9A-Fa-f]+$/] *)
Definition hexRegex : regex := Plus (Chr is_hex_digit).

(** The result type [(3 | 6) | Error] of [verifyHexValidity]. *)
Inductive validity : Type :=
| Three
| Six
| Invalid (e : error).

(** [verifyHexValidity] *)
Definition verifyHexValidity (hexstr : string) : validity :=
  let length := String.length hexstr in
  if negb (Nat.eqb length 3) && negb (Nat.eqb length 6)
  then Invalid (plain_error
         ("The hexadecimal length is not valid. The length is of "
          +:+ nat_to_string length))
  else if negb (matches hexRegex hexstr)
  then Invalid (plain_error "The Hexadecimal contains invalid characters")
  else if Nat.eqb length 3 then Three else Six.

(** [s.startsWith(prefix)] *)
Definition startsWith (s prefix : string) : bool := String.prefix prefix s.

(** [s.substring(start)] *)
Definition substring_from (start : nat) (s : string) : string :=
  String.substring start (String.length s - start) s.

(** [s.split('').map(c => c + c).join('')] *)
Fixpoint double_each (s : string) : string :=
  match s with
  | EmptyString => EmptyString
  | String c s' => String c (String c (double_each s'))
  end.

(** [parseInt(s, 16)]; [None] is [NaN]. *)
Definition parseInt16 (s : string) : option Z :=
  let s1 := trimStart s in
  let (sign, s2) :=
    match s1 with
    | String "-" r => ((-1)%Z, r)
    | String "+" r => (1%Z, r)
    | _ => (1%Z, s1)
    end in
  let s3 :=
    match s2 with
    | String "0" (String "x" r) => r
    | String "0" (String "X" r) => r
    | _ => s2
    end in
  match digits_prefix 16 s3 None with
  | Some n => Some (sign * n)%Z
  | None => None
  end.

(** A number in a template literal. *)
Definition number_to_string (n : option Z) : string :=
  match n with
  | Some z => Z_to_string z
  | None => "NaN"
  end.

(** The escape character [\x1b]. *)
Definition esc : string := String "027" "".

(** The string [hex] hands to [verifyHexValidity]. *)
Definition hex_input (color : string) : string :=
  if startsWith color "#" then color else "#" +:+ color.

(** [hex]: the styled text, or the [Error] thrown. *)
Definition hex (color txt : string) : result string :=
  let input := hex_input color in
  match verifyHexValidity input with
  | Invalid e => Throw (ErrorObj e)
  | validation =>
      let hexValue := substring_from 1 input in
      let fullHex :=
        match validation with
        | Three => double_each hexValue
        | _ => hexValue
        end in
      let r := parseInt16 (String.substring 0 2 fullHex) in
      let g := parseInt16 (String.substring 2 2 fullHex) in
      let b := parseInt16 (String.substring 4 2 fullHex) in
      Ok (esc +:+ "[38;2;" +:+ number_to_string r +:+ ";" +:+ number_to_string g
          +:+ ";" +:+ number_to_string b +:+ "m" +:+ txt +:+ esc +:+ "[0m")
  end.

End Themes.

(** ** src/core/ui-manager.ts *)

Module UIManager.
Import Themes.

Module UITheme.
Record t : Type := mk {
  primary : string;
  secondary : string;
  success : string;
  error : string;
  warning : string;
  info : string;
  muted : string
}.
End UITheme.

(** [ShowWelcomeOptions] *)
Record ShowWelcomeOptions : Type := mkWelcome {
  message : string
}.

(** What reaches the terminal, and the end of the process. *)
Inductive event : Type :=
| StdoutWrite (s : string)
| ConsoleLog (s : string)
| Exit (code : Z).

Definition state : Type := list event.

(** The constructor: the theme given, or the default one. *)
Definition new (theme : option UITheme.t) : UITheme.t :=
  match theme with
  | Some t => t
  | None =>
      UITheme.mk "#3b82f6" "#6b7280" "#10b981" "#ef4444" "#f59e0b" "#06b6d4"
        "#9ca3af"
  end.

(** [const bold = (s: string) => s] *)
Definition bold (s : string) : string := s.

Definition console_log (s : string) : M state unit :=
  modify (fun st => st ++ [ConsoleLog s]).

(** A call of [hex] inside a method. *)
Definition styled (color txt : string) : M state string :=
  fun st => (hex color txt, st).

(** [clearConsole] *)
Definition clearConsole : M state unit :=
  modify (fun st => st ++ [StdoutWrite (String "027" "c")]).

(** [showSuccess] *)
Definition showSuccess (this : UITheme.t) (message : string) : M state unit :=
  s <- styled (UITheme.success this) ("✅ " +:+ message) ;;
  console_log (bold s).

(** [showError] *)
Definition showError (this : UITheme.t) (message : string) : M state unit :=
  s <- styled (UITheme.error this) ("❌ " +:+ message) ;;
  console_log (bold s).

(** [showWarning] *)
Definition showWarning (this : UITheme.t) (message : string) : M state unit :=
  s <- styled (UITheme.warning this) ("⚠️  " +:+ message) ;;
  console_log (bold s).

(** [showInfo] *)
Definition showInfo (this : UITheme.t) (message : string) : M state unit :=
  s <- styled (UITheme.info this) ("ℹ️ " +:+ message) ;;
  console_log (bold s).

Definition nl : string := String "010" "".

Fixpoint spaces (n : nat) : string :=
  match n with
  | O => EmptyString
  | S n' => String " " (spaces n')
  end.

(** [s.padEnd(n)] *)
Definition padEnd (n : nat) (s : string) : string :=
  s +:+ spaces (n - String.length s).

(** The banner of [showWelcome] around the padded name. *)
Definition logo (name : string) : string :=
  nl +:+ "  ╭─────────────────────────────────────╮" +:+ nl
  +:+ "  │                                     │" +:+ nl
  +:+ "  │            " +:+ name +:+ "         │" +:+ nl
  +:+ "  │                                     │" +:+ nl
  +:+ "  │   Create amazing projects with      │" +:+ nl
  +:+ "  │   modern tools and best practices   │" +:+ nl
  +:+ "  │                                     │" +:+ nl
  +:+ "  ╰─────────────────────────────────────╯" +:+ nl
  +:+ "  ".

Section WithUpperCase.

(** [String.prototype.toUpperCase]: a parameter, since the upper case of
    some code units of the Latin-1 range lies outside of it. *)
Variable toUpperCase : string -> string.

(** [showWelcome] *)
Definition showWelcome (this : UITheme.t) (appName : string)
    (options : option ShowWelcomeOptions) : M state unit :=
  clearConsole ;;;
  let name := padEnd 16 (toUpperCase appName) in
  let logo :=
    match options with
    | Some o => message o
    | None => logo name
    end in
  s <- styled (UITheme.primary this) logo ;;
  console_log (bold s).

End WithUpperCase.

End UIManager.

(** ** src/core/cli-builder.ts: the prompt resolution engine *)

Module CLIBuilder.
Import Str.

Inductive ReadlineMode : Type := ModeAsync | ModeSync.

Inductive PromptType : Type := TInput | TSelect | TConfirm | TMultiselect.

(** What [validate] returns: [true], a string, or anything else
    ([false]). *)
Inductive validation : Type :=
| ValidTrue
| ValidMessage (s : string)
| ValidOther.

Module ValidationRule.
Record t : Type := mk {
  validate : value -> dict -> validation;
  message : option string
}.
End ValidationRule.

Module Choice.
Record t : Type := mk {
  name : string;
  value : Js.value;
  description : option string
}.
End Choice.

(** [PromptConfig]; an absent [default] is [VUndefined]. *)
Record PromptConfig : Type := mkPrompt {
  name : string;
  type : PromptType;
  message : string;
  default : value;
  choices : option (list Choice.t);
  validate : option ValidationRule.t;
  when : option (dict -> bool);
  transform : option (value -> value)
}.

(** The fields of [CLIConfig] that [collectAnswers] reads. *)
Record CLIConfig : Type := mkConfig {
  prompts : list PromptConfig;
  allowModeSelection : bool
}.

(** The options parsed from the command line. *)
Record Options : Type := mkOptions {
  opt_template : option string;
  opt_yes : bool;
  opt_async : bool;
  opt_sync : bool
}.

(** What the engine does at the terminal. [ShowInfo] and [ShowError] are
    the calls of [this.uiManager.showInfo] and [this.uiManager.showError],
    with the message passed; [Presenter] is what such a method wrote.
    [Question] carries, besides the query text passed to
    [readlineManager.question], the name of the prompt whose handler
    asked it ([None] for the question about the readline mode). *)
Inductive event : Type :=
| ShowInfo (s : string)
| ShowError (s : string)
| Presenter (e : UIManager.event)
| ConsoleLog (s : string)
| ConsoleLogAnswers (answers : dict)
| Question (prompt : option string) (query : string).

(** The lines the user is going to type, the terminal so far, the mode of
    the [ReadlineManager], and the theme of [this.uiManager]. *)
Record state : Type := mkState {
  input : list string;
  terminal : list event;
  mode : ReadlineMode;
  uiManager : UIManager.UITheme.t
}.

Definition emit (e : event) : M state unit :=
  modify (fun st =>
    mkState (input st) (terminal st ++ [e]) (mode st) (uiManager st)).

(** A call of a method of [this.uiManager]: the call is recorded, and the
    method of [UIManager] runs on the theme of the presenter; what it
    writes goes to the terminal, and the call ends as the method does,
    so what the method throws the caller throws. *)
Definition presenter (call : event)
    (method : UIManager.UITheme.t -> M UIManager.state unit) : M state unit :=
  emit call ;;;
  fun st =>
    let (r, out) := method (uiManager st) [] in
    (r, mkState (input st) (terminal st ++ List.map Presenter out) (mode st)
          (uiManager st)).

(** [this.uiManager.showInfo(message)] *)
Definition showInfo (message : string) : M state unit :=
  presenter (ShowInfo message) (fun this => UIManager.showInfo this message).

(** [this.uiManager.showError(message)] *)
Definition showError (message : string) : M state unit :=
  presenter (ShowError message) (fun this => UIManager.showError this message).

(** [await this.readlineManager.question(query)]: the next line typed; the
    call never returns when the user types nothing more. *)
Definition question (prompt : option string) (query : string) : M state string :=
  fun st =>
    let st' :=
      mkState (input st) (terminal st ++ [Question prompt query]) (mode st)
        (uiManager st) in
    match input st with
    | [] => (Blocked, st')
    | line :: rest => (Ok line, mkState rest (terminal st') (mode st') (uiManager st'))
    end.

(** [this.readlineManager.setMode(mode)] *)
Definition setMode (m : ReadlineMode) : M state unit :=
  modify (fun st => mkState (input st) (terminal st) m (uiManager st)).

(** One round of the [while (!isValid)] loop of [handleInputPrompt];
    [again] is the rest of the loop, run when the value is not valid. *)
Definition input_round (prompt : PromptConfig) (answers : dict)
    (again : M state value) : M state value :=
  let defaultText :=
    if truthy (default prompt) then " (" +:+ to_string (default prompt) +:+ ")"
    else "" in
  line <- question (Some (name prompt)) (message prompt +:+ defaultText +:+ ": ") ;;
  let value :=
    if negb (truthy (VStr line)) && truthy (default prompt)
    then default prompt else VStr line in
  match validate prompt with
  | Some rule =>
      match ValidationRule.validate rule value answers with
      | ValidTrue => ret value
      | ValidMessage s => showError s ;;; again
      | ValidOther =>
          showError
            (match ValidationRule.message rule with
             | Some m => if truthy (VStr m) then m else "Invalid input"
             | None => "Invalid input"
             end) ;;; again
      end
  | None => ret value
  end.

(** The loop. Every round reads a line, so [fuel] rounds after the first
    are enough when [fuel] lines are pending ([input_rounds_fuel] below):
    the loop ends with a valid value or waits for a line that never
    comes. *)
Fixpoint input_rounds (prompt : PromptConfig) (answers : dict) (fuel : nat)
    : M state value :=
  input_round prompt answers
    (match fuel with
     | O => block
     | S fuel' => input_rounds prompt answers fuel'
     end).

(** [handleInputPrompt] *)
Definition handleInputPrompt (prompt : PromptConfig) (answers : dict)
    : M state value :=
  fun st => input_rounds prompt answers (List.length (input st)) st.

(** The [forEach] that prints the numbered choices. *)
Definition print_choices (cs : list Choice.t) : M state unit :=
  for_each (imap (fun index choice => (index, choice)) cs)
    (fun ic =>
       let description :=
         match Choice.description (snd ic) with
         | Some d => if truthy (VStr d) then " - " +:+ d else ""
         | None => ""
         end in
       emit (ConsoleLog (nat_to_string (fst ic + 1) +:+ ". "
                         +:+ Choice.name (snd ic) +:+ description))).

(** [index >= 0 && index < prompt.choices.length] *)
Definition in_range (cs : list Choice.t) (index : Z) : bool :=
  Z.leb 0 index && Z.ltb index (Z.of_nat (List.length cs)).

(** [prompt.choices[index].value]; the source evaluates it only for an
    [index] that passed [in_range]. *)
Definition choice_value (cs : list Choice.t) (index : Z) : value :=
  match nth_error cs (Z.to_nat index) with
  | Some c => Choice.value c
  | None => VUndefined
  end.

(** The same for an index that may be [NaN] ([None]). *)
Definition choice_value_at (cs : list Choice.t) (index : option Z) : value :=
  match index with
  | Some i => choice_value cs i
  | None => VUndefined
  end.

(** [parseInt(s) - 1]; [None] is [NaN]. *)
Definition parse_index (s : string) : option Z :=
  match parseInt s with
  | Some n => Some (n - 1)%Z
  | None => None
  end.

(** One round of the [while (!isValid)] loop of [handleSelectPrompt]. *)
Definition select_round (prompt : PromptConfig) (cs : list Choice.t)
    (again : M state value) : M state value :=
  answer <- question (Some (name prompt)) (String "010" "Select option: ") ;;
  if match parse_index answer with
     | Some index => in_range cs index
     | None => false
     end
  then ret (choice_value_at cs (parse_index answer))
  else showError "Invalid selection. Please try again." ;;; again.

Fixpoint select_rounds (prompt : PromptConfig) (cs : list Choice.t) (fuel : nat)
    : M state value :=
  select_round prompt cs
    (match fuel with
     | O => block
     | S fuel' => select_rounds prompt cs fuel'
     end).

(** [handleSelectPrompt] *)
Definition handleSelectPrompt (prompt : PromptConfig) (answers : dict)
    : M state value :=
  match choices prompt with
  | None => throw (ErrorObj (plain_error "Select prompt requires choices"))
  | Some cs =>
      showInfo (message prompt) ;;;
      print_choices cs ;;;
      fun st => select_rounds prompt cs (List.length (input st)) st
  end.

(** [['y', 'yes', 'true', '1'].includes(s)] *)
Definition affirmative (s : string) : bool :=
  existsb (String.eqb s) ["y"; "yes"; "true"; "1"].

(** [handleConfirmPrompt]. The statement [prompt.default] inside the [if]
    of the source is an expression without effect. *)
Definition handleConfirmPrompt (prompt : PromptConfig) (answers : dict)
    : M state bool :=
  let defaultText :=
    if defined (default prompt)
    then " (" +:+ (if truthy (default prompt) then "Y/n" else "y/N") +:+ ")"
    else " (y/N)" in
  answer <- question (Some (name prompt)) (message prompt +:+ defaultText +:+ ": ") ;;
  emit (ConsoleLogAnswers answers) ;;;
  (if negb (truthy (VStr answer)) && not_nullish (default prompt)
   then ret tt else ret tt) ;;;
  ret (affirmative (toLowerCase answer)).

(** [handleMultiSelectPrompt] *)
Definition handleMultiSelectPrompt (prompt : PromptConfig) (answers : dict)
    : M state (list value) :=
  match choices prompt with
  | None => throw (ErrorObj (plain_error "MultiSelect prompt requires choices"))
  | Some cs =>
      showInfo (message prompt +:+ " (comma-separated numbers)") ;;;
      print_choices cs ;;;
      answer <- question (Some (name prompt)) (String "010" "Select options: ") ;;
      let indices := List.map (fun s => parse_index (trim s)) (split "," answer) in
      ret (List.map (fun index => choice_value_at cs index)
             (List.filter
                (fun index => match index with
                              | Some i => in_range cs i
                              | None => false
                              end)
                indices))
  end.

(** [processPrompt] *)
Definition processPrompt (prompt : PromptConfig) (answers : dict) : M state value :=
  match type prompt with
  | TInput => handleInputPrompt prompt answers
  | TSelect => handleSelectPrompt prompt answers
  | TConfirm => b <- handleConfirmPrompt prompt answers ;; ret (VBool b)
  | TMultiselect => l <- handleMultiSelectPrompt prompt answers ;; ret (VArr l)
  end.

(** [askForReadlineMode] *)
Definition askForReadlineMode : M state ReadlineMode :=
  showInfo "Choose readline implementation:" ;;;
  emit (ConsoleLog "1. Async - Recommended") ;;;
  emit (ConsoleLog (String.append "2. Sync" (String "010" ""))) ;;;
  choice <- question None "Select option (1-2): " ;;
  ret (if String.eqb (trim choice) "2" then ModeSync else ModeAsync).

(** [fillDefaults] *)
Fixpoint fill_loop (ps : list PromptConfig) (result : dict) : dict :=
  match ps with
  | [] => result
  | prompt :: rest =>
      if negb (defined (get result (name prompt))) && defined (default prompt)
      then fill_loop rest (set result (name prompt) (default prompt))
      else fill_loop rest result
  end.

Definition fillDefaults (config : CLIConfig) (answers : dict) : dict :=
  fill_loop (prompts config) answers.

(** The [for (const prompt of this.config.prompts)] loop of
    [collectAnswers]. *)
Fixpoint prompt_loop (ps : list PromptConfig) (answers : dict) : M state dict :=
  match ps with
  | [] => ret answers
  | prompt :: rest =>
      if match when prompt with Some w => negb (w answers) | None => false end
      then prompt_loop rest answers
      else if defined (get answers (name prompt))
      then prompt_loop rest answers
      else
        answer <- processPrompt prompt answers ;;
        prompt_loop rest
          (set answers (name prompt)
             (match transform prompt with
              | Some f => f answer
              | None => answer
              end))
  end.

(** The answers given on the command line. *)
Definition seed (projectName : option string) (options : Options) : dict :=
  let answers : dict := ∅ in
  let answers :=
    match projectName with
    | Some n => if truthy (VStr n) then set answers "projectName" (VStr n) else answers
    | None => answers
    end in
  match opt_template options with
  | Some t => if truthy (VStr t) then set answers "template" (VStr t) else answers
  | None => answers
  end.

(** [collectAnswers] *)
Definition collectAnswers (config : CLIConfig) (projectName : option string)
    (options : Options) : M state dict :=
  let answers := seed projectName options in
  if opt_yes options then ret (fillDefaults config answers)
  else
    when_ (allowModeSelection config && negb (opt_async options)
           && negb (opt_sync options))
      (m <- askForReadlineMode ;; setMode m) ;;;
    prompt_loop (prompts config) answers.

End CLIBuilder.

(** ** src/utils/fs.ts and src/core/project-generator.ts *)

Module ProjectGenerator.

(** A value that [JSON.stringify] prints; an object is given by its own
    properties in the order in which the engine enumerates them, which is
    the order of the printed document. *)
#[warnings="-register-all"] Inductive json : Type :=
| JString (s : string)
| JBool (b : bool)
| JObject (fields : list (string * json)).

(** A [Record<string, string>], an object that the caller hands over: its
    own properties in the order in which the engine enumerates them. For
    an object no key occurs twice, and the keys that are array indices
    come first, in ascending order, whatever the order in which they
    were written; the other keys follow in the order of their creation. *)
Definition record : Type := list (string * string).

Definition index_digit (c : ascii) : bool :=
  let n := nat_of_ascii c in Nat.leb 48 n && Nat.leb n 57.

Fixpoint index_value (s : string) (acc : N) : N :=
  match s with
  | EmptyString => acc
  | String c s' => index_value s' (acc * 10 + N.of_nat (nat_of_ascii c - 48))
  end.

(** The key is an array index: the decimal numeral, without a leading
    zero, of a number below 2^32 - 1. *)
Definition is_index (k : string) : bool :=
  match k with
  | EmptyString => false
  | String c rest =>
      forallb index_digit (list_ascii_of_string k)
      && (negb (Ascii.eqb c "0") || String.eqb rest "")
      && N.ltb (index_value k 0) 4294967295
  end.

(** The keys of an object literal are enumerated in the order written
    when they differ from one another and none is an array index. *)
Definition as_written (keys : list string) : Prop :=
  List.NoDup keys /\ List.Forall (fun k => is_index k = false) keys.

Definition json_of_record (r : record) : json :=
  JObject (List.map (fun kv => (fst kv, JString (snd kv))) r).

Inductive event : Type :=
| Mkdir (path : string)
| FsWrite (path : string) (data : string)
| Exec (command : string) (cwd : string)
| SpinnerStart (text : string)
| SpinnerSucceed (text : string)
| SpinnerFail (text : string)
| ConsoleLog (s : string)
| PostInstallCall (projectPath : string) (answers : dict).

(** The Node.js library and the machine under it. [path_join],
    [path_dirname] and [JSON_stringify] are the library functions of those
    names. [mkdir], [fsWriteFile] and [exec] say whether the call succeeds
    ([None]) or what it rejects with, given everything that happened
    before. *)
Class Node : Type := mkNode {
  path_join : string -> string -> string;
  path_dirname : string -> string;
  JSON_stringify : json -> nat -> string;
  mkdir : list event -> string -> option thrown;
  fsWriteFile : list event -> string -> string -> option thrown;
  exec : list event -> string -> string -> option thrown
}.

Definition state : Type := list event.

Definition emit (e : event) : M state unit := modify (fun st => st ++ [e]).

(** A call into the machine: it is recorded, then succeeds or throws as the
    oracle says for the history before the call. *)
Definition syscall (e : event) (oracle : list event -> option thrown) : M state unit :=
  fun st =>
    match oracle st with
    | None => (Ok tt, st ++ [e])
    | Some t => (Throw t, st ++ [e])
    end.

Module Dependencies.
Record t : Type := mk {
  dependencies : option record;
  devDepencies : option record;
  peerDependencies : option record
}.
End Dependencies.

Inductive file_content : Type :=
| Literal (s : string)
| Producer (f : dict -> string).

Module Files.
Record t : Type := mk {
  path : string;
  content : file_content;
  condition : option (dict -> bool)
}.
End Files.

Record TemplateConfig : Type := mkTemplate {
  name : string;
  description : string;
  files : list Files.t;
  dependencies : option Dependencies.t;
  scripts : option record;
  postInstall : option (string -> dict -> behaviour)
}.

Module GeneratorConfig.
Record t : Type := mk {
  projectName : string;
  template : string;
  answers : dict;
  outputPath : string
}.
End GeneratorConfig.

Section WithNode.
Context `{Node}.

(** [ensureDir] (src/utils/fs.ts) *)
Definition ensureDir (dirPath : string) : M state unit :=
  try_catch
    (syscall (Mkdir dirPath) (fun h => mkdir h dirPath))
    (fun error =>
       match error with
       | ErrorObj e =>
           match e_code e with
           | Some code => if negb (String.eqb code "EEXIST") then throw error else ret tt
           | None => ret tt
           end
       | NonError _ => ret tt
       end).

(** [writeFile] (src/utils/fs.ts) *)
Definition writeFile (filePath : string) (data : string) : M state unit :=
  let dir := path_dirname filePath in
  ensureDir dir ;;;
  syscall (FsWrite filePath data) (fun h => fsWriteFile h filePath data).

(** [writeJson] (src/utils/fs.ts) *)
Definition writeJson (filePath : string) (obj : json) (spaces : nat) : M state unit :=
  let jsonString := JSON_stringify obj spaces in
  writeFile filePath jsonString.

(** The body of the [for (const file of template.files)] loop. *)
Definition generate_file (config : GeneratorConfig.t) (projectPath : string)
    (file : Files.t) : M state unit :=
  if match Files.condition file with
     | Some c => negb (c (GeneratorConfig.answers config))
     | None => false
     end
  then ret tt
  else
    let filePath := path_join projectPath (Files.path file) in
    let content :=
      match Files.content file with
      | Producer f => f (GeneratorConfig.answers config)
      | Literal s => s
      end in
    ensureDir (path_dirname filePath) ;;;
    writeFile filePath content.

(** [generateFiles] *)
Definition generateFiles (template : TemplateConfig) (config : GeneratorConfig.t)
    (projectPath : string) : M state unit :=
  emit (SpinnerStart "Generating project files...") ;;;
  try_catch
    (for_each (files template) (generate_file config projectPath) ;;;
     emit (SpinnerSucceed "Project files generated"))
    (fun error =>
       emit (SpinnerFail "Failed to generate project files") ;;;
       match error with
       | ErrorObj e =>
           throw (ErrorObj (ErrorFactory.filesystem
             ("Failed to generate files: " +:+ e_message e)
             (mkContext (Some "generateFiles") (Some (GeneratorConfig.projectName config))
                (Some (GeneratorConfig.template config)) None [])))
       | NonError _ => throw error
       end).

(** The object literal [packageJson] of [generatePackageJson]. *)
Definition packageJson (template : TemplateConfig) (config : GeneratorConfig.t) : json :=
  let deps (field : Dependencies.t -> option record) : json :=
    json_of_record
      (match dependencies template with
       | Some d => match field d with Some r => r | None => [] end
       | None => []
       end) in
  JObject
    [ ("name", JString (GeneratorConfig.projectName config));
      ("version", JString "0.1.0");
      ("private", JBool true);
      ("scripts", json_of_record (match scripts template with
                                  | Some r => r
                                  | None => []
                                  end));
      ("dependencies", deps Dependencies.dependencies);
      ("devDependencies", deps Dependencies.devDepencies);
      ("peerDependencies", deps Dependencies.peerDependencies) ].

(** [generatePackageJson] *)
Definition generatePackageJson (template : TemplateConfig) (config : GeneratorConfig.t)
    (projectPath : string) : M state unit :=
  try_catch
    (writeJson (path_join projectPath "package.json") (packageJson template config) 2)
    (fun error =>
       match error with
       | ErrorObj e =>
           throw (ErrorObj (ErrorFactory.filesystem
             ("Failed to generate package.json: " +:+ e_message e)
             (mkContext (Some "generatePackageJson") (Some (GeneratorConfig.projectName config))
                None (Some (path_join projectPath "package.json")) [])))
       | NonError _ => throw error
       end).

(** [installDependencies] *)
Definition installDependencies (projectPath : string) : M state unit :=
  emit (SpinnerStart "Installing dependencies...") ;;;
  try_catch
    (syscall (Exec "npm install" projectPath) (fun h => exec h "npm install" projectPath) ;;;
     emit (SpinnerSucceed "Dependencies installed successfully"))
    (fun error =>
       emit (SpinnerFail "Failed to install dependencies") ;;;
       match error with
       | ErrorObj e =>
           throw (ErrorObj (ErrorFactory.dependency
             ("Failed to install dependencies: " +:+ e_message e)
             (mkContext (Some "installDependencies") None None
                (Some projectPath) [])))
       | NonError _ =>
           emit (ConsoleLog "You can install them manually later with: npm install")
       end).

(** [await template.postInstall(projectPath, config.answers)] *)
Definition run_postInstall (f : string -> dict -> behaviour) (projectPath : string)
    (answers : dict) : M state unit :=
  emit (PostInstallCall projectPath answers) ;;;
  await (f projectPath answers).

(** [generate] *)
Definition generate (template : TemplateConfig) (config : GeneratorConfig.t)
    : M state unit :=
  let projectPath := path_join (GeneratorConfig.outputPath config) (GeneratorConfig.projectName config) in
  try_catch
    (ensureDir projectPath ;;;
     generateFiles template config projectPath ;;;
     generatePackageJson template config projectPath ;;;
     when_ (match dependencies template with Some _ => true | None => false end
            && not_false (get (GeneratorConfig.answers config) "installDeps"))
       (installDependencies projectPath) ;;;
     match postInstall template with
     | Some f => run_postInstall f projectPath (GeneratorConfig.answers config)
     | None => ret tt
     end)
    (fun error =>
       match error with
       | ErrorObj e =>
           throw (ErrorObj (ErrorFactory.filesystem
             ("Failed to generate project: " +:+ e_message e)
             (mkContext (Some "generate") (Some (GeneratorConfig.projectName config))
                (Some (GeneratorConfig.template config)) None [])))
       | NonError _ => throw error
       end).

End WithNode.

End ProjectGenerator.

(** ** Definitions that only the statements use *)

(** The language of a regular expression, as the usual inductive relation;
    [Regex.matches] is checked against it below. *)
Module RegexLang.
Import Regex.

Inductive lang : regex -> string -> Prop :=
| LEps : lang Eps EmptyString
| LChr p c : p c = true -> lang (Chr p) (String c EmptyString)
| LSeq r1 r2 s1 s2 : lang r1 s1 -> lang r2 s2 -> lang (Seq r1 r2) (s1 +:+ s2)
| LAltL r1 r2 s : lang r1 s -> lang (Alt r1 r2) s
| LAltR r1 r2 s : lang r2 s -> lang (Alt r1 r2) s
| LStarNil r : lang (Star r) EmptyString
| LStarApp r s1 s2 : lang r s1 -> lang (Star r) s2 -> lang (Star r) (s1 +:+ s2).

End RegexLang.

(** The version formats. *)
Module Version.
Import Regex Str.

Fixpoint all_chars (p : ascii -> bool) (s : string) : bool :=
  match s with
  | EmptyString => true
  | String c s' => p c && all_chars p s'
  end.

(** A non-empty run of characters of class [p]. *)
Definition run (p : ascii -> bool) (s : string) : Prop :=
  s <> EmptyString /\ all_chars p s = true.

(** One or more runs of [[0-9A-Za-z-]], separated by dots. *)
Inductive dotted : string -> Prop :=
| dotted_one s : run is_ident_char s -> dotted s
| dotted_more s rest :
    run is_ident_char s -> dotted rest -> dotted (s +:+ "." +:+ rest).

(** An optional suffix: nothing, or the mark [c] and dotted identifiers. *)
Definition suffix (c : ascii) (s : string) : Prop :=
  s = EmptyString \/ exists ids, s = String c ids /\ dotted ids.

(** DIGITS.DIGITS.DIGITS, then an optional [-] suffix, then an optional [+]
    suffix. Nothing is said about leading zeros. *)
Definition version_pattern (v : string) : Prop :=
  exists major minor patch pre build,
    v = major +:+ "." +:+ minor +:+ "." +:+ patch +:+ pre +:+ build
    /\ run is_digit major /\ run is_digit minor /\ run is_digit patch
    /\ suffix "-" pre /\ suffix "+" build.

(** The grammar of Semantic Versioning 2.0.0 (semver.org, sections 2, 9,
    10 and the BNF), as a decision procedure. A numeric identifier is [0]
    or a run of digits that does not start with [0]. *)
Definition numeric_identifier (s : string) : bool :=
  match s with
  | EmptyString => false
  | String "0" EmptyString => true
  | String "0" _ => false
  | _ => all_chars is_digit s
  end.

Definition prerelease_identifier (s : string) : bool :=
  match s with
  | EmptyString => false
  | _ => all_chars is_ident_char s
         && (if all_chars is_digit s then numeric_identifier s else true)
  end.

Definition build_identifier (s : string) : bool :=
  match s with
  | EmptyString => false
  | _ => all_chars is_ident_char s
  end.

(** [s] cut at the first [sep]: what is before, and what is after if there
    is a [sep]. *)
Fixpoint cut (sep : ascii) (s : string) : string * option string :=
  match s with
  | EmptyString => (EmptyString, None)
  | String c s' =>
      if Ascii.eqb c sep then (EmptyString, Some s')
      else let (a, b) := cut sep s' in (String c a, b)
  end.

Definition semver2_valid (v : string) : bool :=
  let (core_pre, build) := cut "+" v in
  let (core, pre) := cut "-" core_pre in
  match split "." core with
  | [major; minor; patch] =>
      numeric_identifier major && numeric_identifier minor
      && numeric_identifier patch
  | _ => false
  end
  && match pre with
     | Some p => forallb prerelease_identifier (split "." p)
     | None => true
     end
  && match build with
     | Some b => forallb build_identifier (split "." b)
     | None => true
     end.

End Version.

(** What the specification says of [install]. *)
Module PluginSpec.
Import Regex Version PluginManager.

(** A field that is missing (undefined, null, or empty) or not a string:
    the test [!v || typeof v !== 'string']. *)
Definition missing_or_not_string (v : value) : Prop :=
  truthy v = false \/ is_string v = false.

(** The reasons for which [install] is to reject [config]. *)
Definition rejected_config (st : state) (config : PluginConfig) : Prop :=
  map_has (plugins st) (name config) = true
  \/ missing_or_not_string (name config)
  \/ missing_or_not_string (version config)
  \/ exists v, version config = VStr v /\ ~ version_pattern v.

(** The same, with Semantic Versioning 2.0.0 as the version grammar. *)
Definition rejected_config_semver2 (st : state) (config : PluginConfig) : Prop :=
  map_has (plugins st) (name config) = true
  \/ missing_or_not_string (name config)
  \/ missing_or_not_string (version config)
  \/ exists v, version config = VStr v /\ semver2_valid v = false.

(** [install(config)] rejects with a [PluginError]. *)
Definition rejects_with_plugin_error (config : PluginConfig) (st : state) : Prop :=
  exists e st',
    install config st = (Throw (ErrorObj e), st') /\ e_class e = PluginError.

(** The conditions under which [install] goes through, as the code tests
    them. *)
Definition acceptable (st : state) (config : PluginConfig) : bool :=
  negb (map_has (plugins st) (name config))
  && (truthy (name config) && is_string (name config))
  && (truthy (version config) && is_string (version config))
  && matches semverRegex (to_string (version config)).

(** The state after a successful [install]. *)
Definition installed (st : state) (config : PluginConfig) : state :=
  mkState (map_set (plugins st) (name config) config)
    (console st ++
     [ConsoleLog ("✅ Plugin '" +:+ to_string (name config) +:+ "' v"
                  +:+ to_string (version config) +:+ " installed successfully")]).

End PluginSpec.

(** What a run of [executeHook] prints and awaits, plugin by plugin, as
    plain functions of the handlers' behaviour; [executeHook] is checked
    against them below. *)
Module HookSpec.
Import PluginManager.

(** [plugin.hooks && plugin.hooks[hookName]] *)
Definition handler_of (plugin : PluginConfig) (hookName : hook_name) : option handler :=
  match hooks plugin with
  | Some hs => hook_of hs hookName
  | None => None
  end.

(** [plugin.hooks && plugin.hooks.onError] *)
Definition onError_of (plugin : PluginConfig) : option handler :=
  match hooks plugin with
  | Some hs => onError hs
  | None => None
  end.

Definition onError_args (err : thrown) (hookName : hook_name) : list arg :=
  [ArgError err; ArgString (hook_context hookName)].

(** The events of forwarding [err] to [onError], if the plugin has one,
    and what its result is when it is a promise. *)
Definition forward (plugin : PluginConfig) (hookName : hook_name) (err : thrown)
    : list event * option settle :=
  match onError_of plugin with
  | None => ([], None)
  | Some onErr =>
      let call := OnErrorCall (name plugin) err (hook_context hookName) in
      match onErr (onError_args err hookName) with
      | Returns => ([call], None)
      | Throws t' => ([call; ConsoleError (onError_message plugin) t'], None)
      | ReturnsPromise s => ([call], Some s)
      end
  end.

(** The loop body for one plugin: the events, and the promises pushed. *)
Definition sync_phase (hookName : hook_name) (args : list arg)
    (plugin : PluginConfig) : list event * list pending :=
  match handler_of plugin hookName with
  | None => ([], [])
  | Some h =>
      let call := HookCall (name plugin) hookName args in
      match h args with
      | Returns => ([call], [])
      | ReturnsPromise s => ([call], [Caught plugin hookName s])
      | Throws t =>
          (call :: ConsoleWarn (warn_message plugin hookName) t
             :: fst (forward plugin hookName t),
           match snd (forward plugin hookName t) with
           | Some s => [Bare s]
           | None => []
           end)
      end
  end.

(** The reaction of one awaited promise: the events, and how it ends. *)
Definition reaction (p : pending) : list event * settle :=
  match p with
  | Bare s => ([], s)
  | Caught plugin hookName (Rejects err) =>
      (ConsoleWarn (warn_message plugin hookName) err
         :: fst (forward plugin hookName err),
       match snd (forward plugin hookName err) with
       | Some s => s
       | None => Fulfils
       end)
  | Caught plugin hookName s => ([], s)
  end.

(** The promises [executeHook] awaits, in the order of the array. *)
Definition awaited (hookName : hook_name) (args : list arg)
    (values : list PluginConfig) : list pending :=
  flat_map (fun p => snd (sync_phase hookName args p)) values.

(** What the loop prints, plugin after plugin. *)
Definition sync_events (hookName : hook_name) (args : list arg)
    (values : list PluginConfig) : list event :=
  flat_map (fun p => fst (sync_phase hookName args p)) values.

(** What the reactions of the promises print when they settle in the
    order [ps]. *)
Definition reactions (ps : list pending) : list event :=
  flat_map (fun p => fst (reaction p)) ps.

(** Everything [executeHook] prints: the events of the loop, then those
    of the reactions in the order in which the promises settle. *)
Definition printed (order : schedule) (hookName : hook_name) (args : list arg)
    (values : list PluginConfig) : list event :=
  sync_events hookName args values
  ++ reactions (arrival order (awaited hookName args values)).

Definition is_hook_call (e : event) : bool :=
  match e with HookCall _ _ _ => true | _ => false end.

Definition is_console_error (e : event) : bool :=
  match e with ConsoleError _ _ => true | _ => false end.

Definition has_handler (hookName : hook_name) (plugin : PluginConfig) : bool :=
  match handler_of plugin hookName with Some _ => true | None => false end.

(** The handler of [plugin] for the event fails with [t]: it throws [t],
    or the promise it returns rejects with [t]. *)
Definition fails_with (h : handler) (args : list arg) (t : thrown) : Prop :=
  h args = Throws t \/ h args = ReturnsPromise (Rejects t).

(** The state [h] after printing [evs] and pushing [ps]. *)
Definition advance (h : hstate) (evs : list event) (ps : list pending) : hstate :=
  (mkState (plugins (fst h)) (console (fst h) ++ evs), snd h ++ ps).

End HookSpec.

(** What the specification says of the prompts. *)
Module PromptSpec.
Import Str CLIBuilder.

(** The affirmative answers of a confirm prompt. *)
Definition affirmative_tokens : list string := ["y"; "yes"; "true"; "1"].

(** The choice with the 1-based number [k], if [k] is within
    1..choiceCount. *)
Definition pick (cs : list Choice.t) (k : Z) : list value :=
  if Z.leb 1 k && Z.leb k (Z.of_nat (List.length cs))
  then match nth_error cs (Z.to_nat k - 1) with
       | Some c => [Choice.value c]
       | None => []
       end
  else [].

(** The answer of a multiselect prompt, in the words of the specification:
    the line is split on commas, each token is parsed as a 1-based number,
    numbers out of range are dropped, and the values of the others are
    listed in the order typed. *)
Definition multiselect_spec (cs : list Choice.t) (line : string) : list value :=
  flat_map (fun token => match parseInt (trim token) with
                         | Some k => pick cs k
                         | None => []
                         end)
    (split "," line).

(** [if (prompt.when && !prompt.when(answers))] *)
Definition hidden (prompt : PromptConfig) (answers : dict) : bool :=
  match when prompt with
  | Some w => negb (w answers)
  | None => false
  end.

(** The value stored for [prompt] when the user's answer is [answer]. *)
Definition stored (prompt : PromptConfig) (answer : value) : value :=
  match transform prompt with
  | Some f => f answer
  | None => answer
  end.

(** The prompts that the loop of [collectAnswers] meets, each with the
    answers accumulated when it is met. *)
Fixpoint turns (ps : list PromptConfig) (answers : dict) (st : state)
    : list (PromptConfig * dict) :=
  match ps with
  | [] => []
  | prompt :: rest =>
      (prompt, answers) ::
      (if hidden prompt answers || defined (get answers (name prompt))
       then turns rest answers st
       else match processPrompt prompt answers st with
            | (Ok answer, st') =>
                turns rest (set answers (name prompt) (stored prompt answer)) st'
            | _ => []
            end)
  end.

(** An event that is not a question asked for the prompt named [n]. *)
Definition not_asked (n : string) (e : event) : Prop :=
  forall q, e <> Question (Some n) q.

(** An event that, if it is a question, was asked for [who]. *)
Definition asked_by (who : option string) (e : event) : Prop :=
  forall w q, e = Question w q -> w = who.

(** The computation [m] only appends to the terminal, and every event it
    appends satisfies [P]. *)
Definition emits {A} (P : event -> Prop) (m : M state A) : Prop :=
  forall st, exists evs,
    terminal (snd (m st)) = terminal st ++ evs /\ Forall P evs.

(** Two prompts: a question, and one shown only when its answer is
    true. *)
Definition use_ts : PromptConfig :=
  mkPrompt "useTs" TConfirm "TypeScript?" VUndefined None None None None.

Definition ts_strict : PromptConfig :=
  mkPrompt "tsStrict" TConfirm "Strict mode?" (VBool true) None None
    (Some (fun a => truthy (get a "useTs"))) None.

End PromptSpec.

(** What the specification says of the generator. *)
Module GeneratorSpec.
Import ProjectGenerator.

Definition or_empty (r : option record) : record :=
  match r with Some x => x | None => [] end.

(** The names of the properties of a document, in order. *)
Definition keys (j : json) : list string :=
  match j with
  | JObject fields => List.map fst fields
  | _ => []
  end.

(** The value of the property [k] of a document. *)
Definition field (k : string) (j : json) : option json :=
  match j with
  | JObject fields =>
      option_map snd (List.find (fun kv => String.eqb (fst kv) k) fields)
  | _ => None
  end.

Fixpoint string_entries (fields : list (string * json)) : option record :=
  match fields with
  | [] => Some []
  | (k, JString v) :: rest =>
      match string_entries rest with
      | Some r => Some ((k, v) :: r)
      | None => None
      end
  | _ => None
  end.

(** The entries of a document that is a map from names to strings. *)
Definition entries (j : json) : option record :=
  match j with
  | JObject fields => string_entries fields
  | _ => None
  end.

(** The entries of the map under the property [k]. *)
Definition map_field (k : string) (j : json) : option record :=
  match field k j with
  | Some m => entries m
  | None => None
  end.

(** The manifest of the specification: the project name, the fixed
    version and privacy flag, the scripts, and the three dependency maps,
    each empty when absent, in this order and with nothing else. *)
Definition is_manifest (projectName : string)
    (scripts runtime dev peer : option record) (j : json) : Prop :=
  keys j = ["name"; "version"; "private"; "scripts";
            "dependencies"; "devDependencies"; "peerDependencies"]
  /\ field "name" j = Some (JString projectName)
  /\ field "version" j = Some (JString "0.1.0")
  /\ field "private" j = Some (JBool true)
  /\ map_field "scripts" j = Some (or_empty scripts)
  /\ map_field "dependencies" j = Some (or_empty runtime)
  /\ map_field "devDependencies" j = Some (or_empty dev)
  /\ map_field "peerDependencies" j = Some (or_empty peer).

(** [mkdir] fails with an [Error] that carries a code other than
    [EEXIST], which [ensureDir] throws again. *)
Definition fatal (t : thrown) : bool :=
  match t with
  | ErrorObj e =>
      match e_code e with
      | Some code => negb (String.eqb code "EEXIST")
      | None => false
      end
  | NonError _ => false
  end.

(** One of the three dependency maps of a template. *)
Definition dependency_map (template : TemplateConfig)
    (field : Dependencies.t -> option record) : option record :=
  match dependencies template with
  | Some d => field d
  | None => None
  end.

Definition is_FsWrite (e : event) : bool :=
  match e with FsWrite _ _ => true | _ => false end.

Definition is_PostInstallCall (e : event) : bool :=
  match e with PostInstallCall _ _ => true | _ => false end.

Definition manual_hint : event :=
  ConsoleLog "You can install them manually later with: npm install".

(** The error with which [generate] rejects when a step fails with the
    [Error] [e]. *)
Definition generate_error (config : GeneratorConfig.t) (e : error) : thrown :=
  ErrorObj (ErrorFactory.filesystem
    ("Failed to generate project: " +:+ e_message e)
    (mkContext (Some "generate") (Some (GeneratorConfig.projectName config))
       (Some (GeneratorConfig.template config)) None [])).

(** The error that [installDependencies] throws when the command fails
    with the [Error] [e]. *)
Definition dependency_error (projectPath : string) (e : error) : error :=
  ErrorFactory.dependency
    ("Failed to install dependencies: " +:+ e_message e)
    (mkContext (Some "installDependencies") None None (Some projectPath) []).

(** The file passes its [condition], or has none. *)
Definition included (config : GeneratorConfig.t) (file : Files.t) : bool :=
  match Files.condition file with
  | Some c => c (GeneratorConfig.answers config)
  | None => true
  end.

(** The text written for [file]. *)
Definition content_of (config : GeneratorConfig.t) (file : Files.t) : string :=
  match Files.content file with
  | Producer f => f (GeneratorConfig.answers config)
  | Literal s => s
  end.

(** The computation only appends to the trace. *)
Definition grows {A} (m : M state A) : Prop :=
  forall st, exists evs, snd (m st) = st ++ evs.

(** What the caller of [generate] gets when a step fails with [t]. *)
Definition as_rejected (config : GeneratorConfig.t) (t : thrown) : thrown :=
  match t with
  | ErrorObj e => generate_error config e
  | NonError _ => t
  end.

Section WithNode.
Context `{Node}.

Definition project_path (config : GeneratorConfig.t) : string :=
  path_join (GeneratorConfig.outputPath config) (GeneratorConfig.projectName config).

Definition manifest_path (config : GeneratorConfig.t) : string :=
  path_join (project_path config) "package.json".

(** What the catch of [generatePackageJson] throws for [t]. *)
Definition manifest_error (config : GeneratorConfig.t) (projectPath : string)
    (t : thrown) : thrown :=
  match t with
  | ErrorObj e =>
      ErrorObj (ErrorFactory.filesystem
        ("Failed to generate package.json: " +:+ e_message e)
        (mkContext (Some "generatePackageJson")
           (Some (GeneratorConfig.projectName config)) None
           (Some (path_join projectPath "package.json")) []))
  | NonError _ => t
  end.

(** How the manifest step ends when the call that failed, if any, failed
    with [failure]. *)
Definition manifest_result (config : GeneratorConfig.t) (projectPath : string)
    (failure : option thrown) : result unit :=
  match failure with
  | None => Ok tt
  | Some t => Throw (manifest_error config projectPath t)
  end.

(** The steps of [generate] up to the manifest. *)
Definition prepare (template : TemplateConfig) (config : GeneratorConfig.t)
    : M state unit :=
  ensureDir (project_path config) ;;;
  generateFiles template config (project_path config) ;;;
  generatePackageJson template config (project_path config).

(** The condition of the install step. *)
Definition installs (template : TemplateConfig) (config : GeneratorConfig.t) : bool :=
  match dependencies template with Some _ => true | None => false end
  && not_false (get (GeneratorConfig.answers config) "installDeps").

(** The steps of [generate] before the [postInstall] step. *)
Definition before_postInstall (template : TemplateConfig)
    (config : GeneratorConfig.t) : M state unit :=
  prepare template config ;;;
  when_ (installs template config) (installDependencies (project_path config)).

(** The trace of a failed install step that started in [st]. *)
Definition failed_install (config : GeneratorConfig.t) (st : state) : state :=
  st ++ [SpinnerStart "Installing dependencies...";
         Exec "npm install" (project_path config);
         SpinnerFail "Failed to install dependencies"].

End WithNode.

(** A machine on which every file operation succeeds and the install
    command ends as [install_result]; paths are joined with a slash. *)
Fixpoint dirname_cut (s : string) : option string :=
  match s with
  | EmptyString => None
  | String c s' =>
      match dirname_cut s' with
      | Some d => Some (String c d)
      | None => if Ascii.eqb c "/" then Some EmptyString else None
      end
  end.

Definition test_node (install_result : option thrown) : Node :=
  mkNode (fun a b => a +:+ "/" +:+ b)
         (fun p => match dirname_cut p with Some d => d | None => "." end)
         (fun _ _ => "{}")
         (fun _ _ => None)
         (fun _ _ _ => None)
         (fun _ _ _ => install_result).

(** A template with one file, one dependency and a [postInstall] that
    rejects; a configuration for it; the error of a failed command. *)
Definition react : TemplateConfig :=
  mkTemplate "react" "React + Vite"
    [Files.mk "index.js" (Literal "export {}") None]
    (Some (Dependencies.mk (Some [("react", "^18.2.0")]) None None))
    None
    (Some (fun _ _ => ReturnsPromise (Rejects (ErrorObj (plain_error "boom"))))).

Definition my_app : GeneratorConfig.t := GeneratorConfig.mk "my-app" "react" ∅ "/work".

(** A template without files, with a script and a development
    dependency. *)
Definition library : TemplateConfig :=
  mkTemplate "library" "A library"
    []
    (Some (Dependencies.mk None (Some [("vitest", "^1.0.0")]) None))
    (Some [("test", "vitest run")])
    None.

Definition npm_error : thrown := ErrorObj (plain_error "npm ERR! network").

End GeneratorSpec.

(** Sequences of calls on a [PluginManager], and the shape its map keeps. *)
Module PluginOps.
Import Version PluginManager.

Inductive op : Type :=
| OpInstall (config : PluginConfig)
| OpUninstall (name : string)
| OpExecuteHook (order : schedule) (hookName : hook_name) (args : list arg).

(** The state after one call, whether it returned or threw. *)
Definition run_op (o : op) (st : state) : state :=
  match o with
  | OpInstall config => snd (install config st)
  | OpUninstall n => snd (uninstall n st)
  | OpExecuteHook order hookName args => snd (executeHook order hookName args st)
  end.

Definition run_ops (ops : list op) (st : state) : state :=
  fold_left (fun s o => run_op o s) ops st.

(** A manager as [new PluginManager()] makes it. *)
Definition fresh : state := mkState [] [].

(** An entry whose key is the name of its plugin, a non-empty string, and
    whose version has the DIGITS.DIGITS.DIGITS form with the optional
    suffixes. *)
Definition valid_entry (kc : value * PluginConfig) : Prop :=
  fst kc = name (snd kc)
  /\ exists n v, name (snd kc) = VStr n /\ n <> EmptyString
                 /\ version (snd kc) = VStr v /\ version_pattern v.

(** No name is registered twice and every entry is valid. *)
Definition well_formed (m : plugin_map) : Prop :=
  List.NoDup (List.map fst m) /\ List.Forall valid_entry m.

(** The state after a successful [uninstall]. *)
Definition uninstalled (st : state) (n : string) : state :=
  mkState (map_delete (plugins st) (VStr n))
    (console st ++ [ConsoleLog ("✅ Plugin '" +:+ n +:+ "' uninstalled successfully")]).

(** The handler of [plugin] for the event failed with [t]. *)
Definition failure (hookName : hook_name) (args : list arg)
    (values : list PluginConfig) (plugin : PluginConfig) (t : thrown) : Prop :=
  In plugin values
  /\ exists h, HookSpec.handler_of plugin hookName = Some h
               /\ HookSpec.fails_with h args t.

(** What stands behind an event of [executeHook]: a handler that the call
    ran, or the failure that a warning, an [onError] call or an error line
    reports. *)
Definition accounted (hookName : hook_name) (args : list arg)
    (values : list PluginConfig) (e : event) : Prop :=
  match e with
  | ConsoleLog _ => False
  | HookCall k h a =>
      h = hookName /\ a = args
      /\ exists plugin, In plugin values /\ name plugin = k
                        /\ HookSpec.has_handler hookName plugin = true
  | ConsoleWarn msg t =>
      exists plugin, failure hookName args values plugin t
                     /\ msg = warn_message plugin hookName
  | OnErrorCall k t ctx =>
      exists plugin, failure hookName args values plugin t
                     /\ HookSpec.onError_of plugin <> None
                     /\ k = name plugin /\ ctx = hook_context hookName
  | ConsoleError msg t' =>
      exists plugin t onErr,
        failure hookName args values plugin t
        /\ HookSpec.onError_of plugin = Some onErr
        /\ onErr (HookSpec.onError_args t hookName) = Throws t'
        /\ msg = onError_message plugin
  end.

(** A plugin with a handler for [beforeGenerate] that returns at once. *)
Definition lint : PluginConfig :=
  mkPlugin (VStr "lint") (VStr "2.1.0") None
    (Some (mkHooks (Some (fun _ => Returns)) None None None None)).

End PluginOps.

(** ** src/core/validation-manager.ts *)

Module ValidationManager.

(** The result [{ valid, message? }] of [validateAnswers]. *)
Record verdict : Type := mkVerdict {
  valid : bool;
  message : option string
}.

(** [validateAnswers] *)
Definition validateAnswers (answers : dict) : verdict :=
  if negb (truthy (get answers "projectName"))
  then mkVerdict false (Some "Project name is required")
  else if negb (truthy (get answers "template"))
  then mkVerdict false (Some "Template selection is required")
  else mkVerdict true None.

End ValidationManager.

(** ** src/core/cli-builder.ts: [run] with the console presenter of the
    repository *)

Module Run.
Import UIManager ValidationManager.

Section Run.

Variable toUpperCase : string -> string.

(** The state of the collaborators other than the presenter. *)
Variable R : Type.

Definition world : Type := (UIManager.state * R)%type.

(** A method of the presenter, called from the builder. *)
Definition ui {A} (m : M UIManager.state A) : M world A :=
  fun w => (fst (m (fst w)), (snd (m (fst w)), snd w)).

(** [process.exit(code)]: the process ends there. *)
Definition process_exit {A} (code : Z) : M world A :=
  fun w => (Blocked, (fst w ++ [Exit code], snd w)).

(** The fields of [CLIConfig] that [run] reads. *)
Record CLIConfig : Type := mkConfig {
  name : string;
  theme : option UITheme.t;
  readlineMode : option CLIBuilder.ReadlineMode;
  skipInstall : bool
}.

(** The methods of the other collaborators that [run] calls, and what a
    template literal makes of a caught value. *)
Variable setMode : CLIBuilder.ReadlineMode -> M world unit.
Variable collectAnswers : option string -> CLIBuilder.Options -> M world dict.
Variable generateProject : dict -> M world unit.
Variable describe : thrown -> string.
Variable white gray : string -> string.

(** [determineReadlineMode] *)
Definition determineReadlineMode (config : CLIConfig)
    (options : CLIBuilder.Options) : CLIBuilder.ReadlineMode :=
  if CLIBuilder.opt_async options then CLIBuilder.ModeAsync
  else if CLIBuilder.opt_sync options then CLIBuilder.ModeSync
  else match readlineMode config with
       | Some m => m
       | None => CLIBuilder.ModeAsync
       end.

(** [showNextSteps] *)
Definition showNextSteps (config : CLIConfig) (answers : dict) : M world unit :=
  let this := UIManager.new (theme config) in
  ui (showInfo this (nl +:+ "Next steps:")) ;;;
  ui (console_log (white ("  cd " +:+ to_string (get answers "projectName")))) ;;;
  when_ (negb (skipInstall config)) (ui (console_log (white "  npm install"))) ;;;
  ui (console_log (white "  npm run dev")) ;;;
  ui (console_log (gray (nl +:+ "Happy coding! 🚀" +:+ nl))).

(** [run] *)
Definition run (config : CLIConfig) (projectName : option string)
    (options : CLIBuilder.Options) : M world unit :=
  let this := UIManager.new (theme config) in
  try_catch
    (ui (showWelcome toUpperCase this (name config) None) ;;;
     let mode := determineReadlineMode config options in
     setMode mode ;;;
     answers <- collectAnswers projectName options ;;
     let validation := validateAnswers answers in
     when_ (negb (valid validation))
       (ui (showError this
              (match message validation with
               | Some m => if truthy (VStr m) then m else "Validation failed"
               | None => "Validation failed"
               end)) ;;;
        process_exit 1) ;;;
     generateProject answers ;;;
     ui (showSuccess this "Project created successfully!") ;;;
     showNextSteps config answers)
    (fun error =>
       ui (showError this ("An error occurred: " +:+ describe error)) ;;;
       process_exit 1).

End Run.

End Run.

(** What the statements about the presenter use. *)
Module PresenterSpec.
Import Themes UIManager.

(** The [Error] of [verifyHexValidity] for a colour that [hex] is given. *)
Definition hex_error (color : string) : error :=
  plain_error
    (if Nat.eqb (String.length (hex_input color)) 3
        || Nat.eqb (String.length (hex_input color)) 6
     then "The Hexadecimal contains invalid characters"
     else "The hexadecimal length is not valid. The length is of "
          +:+ nat_to_string (String.length (hex_input color))).

(** The screen has been cleared and nothing else has happened. *)
Definition cleared (st : state) : state := st ++ [StdoutWrite (String "027" "c")].

End PresenterSpec.

(** What the statements about the answers use. *)
Module AnswerSpec.
Import CLIBuilder PromptSpec.

(** The default of the first prompt named [n] that declares one. *)
Fixpoint first_default (ps : list PromptConfig) (n : string) : value :=
  match ps with
  | [] => VUndefined
  | prompt :: rest =>
      if String.eqb (name prompt) n && defined (default prompt)
      then default prompt
      else first_default rest n
  end.

(** The answer for [n] when the prompts are skipped: the one given on the
    command line, or else the first default declared for [n]. *)
Definition unattended (config : CLIConfig) (projectName : option string)
    (options : Options) (n : string) : value :=
  if defined (get (seed projectName options) n)
  then get (seed projectName options) n
  else first_default (prompts config) n.

(** No prompt is named like a member of [Object.prototype]. *)
Definition own_names (ps : list PromptConfig) : Prop :=
  Forall (fun prompt => inherited (name prompt) = false) ps.

(** The prompt was put to the user when its turn came. *)
Definition was_asked (turn : PromptConfig * dict) : bool :=
  negb (hidden (fst turn) (snd turn))
  && negb (defined (get (snd turn) (name (fst turn)))).

(** A select or multiselect prompt that declares no choices. *)
Definition lacks_choices (prompt : PromptConfig) : option string :=
  match type prompt, choices prompt with
  | TSelect, None => Some "Select prompt requires choices"
  | TMultiselect, None => Some "MultiSelect prompt requires choices"
  | _, _ => None
  end.

(** A call of the console presenter. *)
Definition is_presenter_call (e : event) : bool :=
  match e with
  | ShowInfo _ | ShowError _ => true
  | _ => false
  end.

(** The presenter has not been called so far. *)
Definition presenter_unused (st : state) : Prop :=
  forallb (fun e => negb (is_presenter_call e)) (terminal st) = true.

(** The value an input prompt makes of the line typed. *)
Definition input_value (prompt : PromptConfig) (line : string) : value :=
  if String.eqb line "" && truthy (default prompt) then default prompt
  else VStr line.

(** The rule of the prompt, if any, accepts [v]. *)
Definition accepts (prompt : PromptConfig) (v : value) (answers : dict) : bool :=
  match validate prompt with
  | Some rule =>
      match ValidationRule.validate rule v answers with
      | ValidTrue => true
      | _ => false
      end
  | None => true
  end.

(** The query of an input prompt. *)
Definition input_query (prompt : PromptConfig) : string :=
  message prompt
  +:+ (if truthy (default prompt)
       then " (" +:+ to_string (default prompt) +:+ ")" else "")
  +:+ ": ".

End AnswerSpec.

(** What the statements about the trace of the generator use. *)
Module TraceSpec.
Import ProjectGenerator GeneratorSpec.

Definition is_Exec (e : event) : bool :=
  match e with Exec _ _ => true | _ => false end.

(** An event of the file steps: a directory, a file, or the spinner. *)
Definition is_file_step (e : event) : bool :=
  match e with
  | Mkdir _ | FsWrite _ _ | SpinnerStart _ | SpinnerSucceed _ | SpinnerFail _ => true
  | _ => false
  end.

(** Neither a command nor a call of [postInstall]. *)
Definition is_quiet (e : event) : bool :=
  negb (is_Exec e) && negb (is_PostInstallCall e).

(** The computation only appends events of class [P] to the trace. *)
Definition appends {A} (P : event -> bool) (m : M state A) : Prop :=
  forall st, exists evs, snd (m st) = st ++ evs /\ forallb P evs = true.

(** What the catch of [generateFiles] throws for [t]. *)
Definition files_error (config : GeneratorConfig.t) (t : thrown) : thrown :=
  match t with
  | ErrorObj e =>
      ErrorObj (ErrorFactory.filesystem
        ("Failed to generate files: " +:+ e_message e)
        (mkContext (Some "generateFiles") (Some (GeneratorConfig.projectName config))
           (Some (GeneratorConfig.template config)) None []))
  | NonError _ => t
  end.

(** [mkdir] fails with an [Error] that carries a code other than
    [EEXIST]. *)
Definition fatal_mkdir (t : thrown) : bool :=
  match t with
  | ErrorObj e =>
      match e_code e with
      | Some code => negb (String.eqb code "EEXIST")
      | None => false
      end
  | NonError _ => false
  end.

Section WithNode.
Context `{Node}.

(** The calls made for one file: its directory is ensured twice, then the
    file is written. *)
Definition file_events (config : GeneratorConfig.t) (projectPath : string)
    (file : Files.t) : list event :=
  let filePath := path_join projectPath (Files.path file) in
  [Mkdir (path_dirname filePath); Mkdir (path_dirname filePath);
   FsWrite filePath (content_of config file)].

(** The manifest has been written. *)
Definition manifest_written (template : TemplateConfig)
    (config : GeneratorConfig.t) (evs : list event) : Prop :=
  In (FsWrite (manifest_path config)
        (JSON_stringify (packageJson template config) 2)) evs.

End WithNode.

End TraceSpec.

(** ** src/utils/validators.ts and [validateProjectName] (src/utils) *)

Module Validators.
Import Regex Str Themes CLIBuilder.

(** [[a-zA-Z0-9-_]] *)
Definition is_name_char (c : ascii) : bool :=
  let n := nat_of_ascii c in
  (Nat.leb 97 n && Nat.leb n 122) || (Nat.leb 65 n && Nat.leb n 90)
  || (Nat.leb 48 n && Nat.leb n 57) || Nat.eqb n 45 || Nat.eqb n 95.

(** [/^[a-zA-Z0-9-_]+$/] *)
Definition nameRegex : regex := Plus (Chr is_name_char).

(** [[^\s@]] *)
Definition is_email_char (c : ascii) : bool :=
  negb (is_whitespace c) && negb (Ascii.eqb c "@").

(** [/^[^\s@]+@[^\s@]+\.[^\s@]+$/] *)
Definition emailRegex : regex :=
  Seq (Plus (Chr is_email_char))
    (Seq (Lit "@")
       (Seq (Plus (Chr is_email_char))
          (Seq (Lit ".") (Plus (Chr is_email_char))))).

(** [s.endsWith(suffix)] *)
Definition endsWith (s suffix : string) : bool :=
  Nat.leb (String.length suffix) (String.length s)
  && String.eqb
       (String.substring (String.length s - String.length suffix)
          (String.length suffix) s)
       suffix.

(** [validators.required.validate] *)
Definition required (value : Js.value) : validation :=
  if defined value
     && match value with VNull => false | _ => true end
     && Nat.ltb 0 (String.length (trim (to_string value)))
  then ValidTrue else ValidOther.

(** [validators.projectName.validate] *)
Definition projectName (value : string) : validation :=
  if negb (truthy (VStr value)) || Nat.eqb (String.length (trim value)) 0
  then ValidMessage "Project name cannot be empty"
  else if negb (matches nameRegex value)
  then ValidMessage
         "Project name can only contain letters, numbers, hyphens, and underscores"
  else if startsWith value "-" || endsWith value "-"
  then ValidMessage "Project name cannot start or end with a hyphen"
  else ValidTrue.

(** [validators.email.validate] *)
Definition email (value : string) : validation :=
  if matches emailRegex value then ValidTrue
  else ValidMessage "Please enter a valid email address".

(** [validateProjectName] *)
Definition validateProjectName (name : string) : ValidationManager.verdict :=
  if negb (truthy (VStr name)) || Nat.eqb (String.length (trim name)) 0
  then ValidationManager.mkVerdict false (Some "Project name cannot be empty")
  else if negb (matches nameRegex name)
  then ValidationManager.mkVerdict false
         (Some "Project name can only contain letters, numbers, hyphens, and underscores")
  else if startsWith name "-" || endsWith name "-"
  then ValidationManager.mkVerdict false
         (Some "Project name cannot start or end with a hyphen")
  else ValidationManager.mkVerdict true None.

End Validators.

(** What the statements about the validators use. *)
Module ValidatorSpec.
Import Str Version Validators CLIBuilder.

Fixpoint last_char (s : string) : option ascii :=
  match s with
  | EmptyString => None
  | String c EmptyString => Some c
  | String _ s' => last_char s'
  end.

Definition first_char (s : string) : option ascii :=
  match s with
  | EmptyString => None
  | String c _ => Some c
  end.

(** A project name: letters, digits, hyphens and underscores, at least
    one, with no hyphen at either end. *)
Definition well_named (s : string) : Prop :=
  run is_name_char s
  /\ first_char s <> Some "-"%char /\ last_char s <> Some "-"%char.

(** An address: a local part, [@], and a domain with a dot inside; no
    white space and no other [@] anywhere. *)
Definition address (s : string) : Prop :=
  exists local host tld,
    s = local +:+ "@" +:+ host +:+ "." +:+ tld
    /\ run is_email_char local /\ run is_email_char host
    /\ run is_email_char tld.

(** The result object that corresponds to the answer of a rule. *)
Definition verdict_of (v : validation) : ValidationManager.verdict :=
  match v with
  | ValidTrue => ValidationManager.mkVerdict true None
  | ValidMessage m => ValidationManager.mkVerdict false (Some m)
  | ValidOther => ValidationManager.mkVerdict false None
  end.

(** Some character of [s] is not white space. *)
Fixpoint has_ink (s : string) : bool :=
  match s with
  | EmptyString => false
  | String c s' => negb (is_whitespace c) || has_ink s'
  end.

(** How many times [c] occurs in [s]. *)
Fixpoint count_char (c : ascii) (s : string) : nat :=
  match s with
  | EmptyString => 0
  | String c' s' => (if Ascii.eqb c' c then 1 else 0) + count_char c s'
  end.

End ValidatorSpec.

(** ** src/utils/factory.ts: the plugins of [createCLI] *)

Module Factory.
Import PluginManager.

(** The state of the manager that [createCLI] creates, with the console,
    and the warnings of the [catch] blocks, which run after the loop (the
    callback is [async]: [install] runs at the call, the code after the
    [await] runs once the loop is over). *)
Definition loop_state : Type := (state * list event)%type.

(** One callback of [config.plugins.forEach]. *)
Definition attempt (h : loop_state) (plugin : PluginConfig) : loop_state :=
  match install plugin (fst h) with
  | (Throw error, st) =>
      (st, snd h ++ [ConsoleWarn ("Failed to install plugin '"
                                  +:+ to_string (name plugin) +:+ "':") error])
  | (_, st) => (st, snd h)
  end.

(** What [createCLI] does with [config.plugins]: the new manager and the
    console once every callback has run to its end. *)
Definition createCLI_plugins (plugins : option (list PluginConfig))
    (console0 : list event) : state :=
  match plugins with
  | Some (plugin :: rest) =>
      let h := fold_left attempt (plugin :: rest) (mkState [] console0, []) in
      mkState (PluginManager.plugins (fst h)) (console (fst h) ++ snd h)
  | _ => mkState [] console0
  end.

End Factory.

(** ** src/core/readline-manager.ts *)

Module ReadlineManager.
Import CLIBuilder.

(** The two kinds of interface: of [node:readline/promises] and of
    [node:readline]. *)
Inductive kind : Type := AsyncKind | SyncKind.

(** What happens to the interfaces; an interface is known by the number
    given to it when it is created. *)
Inductive event : Type :=
| Create (k : kind) (id : nat)
| Ask (id : nat) (query : string)
| Close (id : nat).

(** The fields of the manager, the lines the user is going to type, and
    the history of the interfaces. *)
Record state : Type := mkState {
  mode : ReadlineMode;
  asyncInterface : option nat;
  syncInterface : option nat;
  input : list string;
  history : list event
}.

(** A new manager. *)
Definition new (input : list string) : state :=
  mkState ModeAsync None None input [].

(** [createAsyncInterface({ input, output })], [createSyncInterface(...)]:
    a new object each time. *)
Definition createInterface (k : kind) : M state nat :=
  fun st =>
    let id := List.length (history st) in
    (Ok id, mkState (mode st) (asyncInterface st) (syncInterface st) (input st)
              (history st ++ [Create k id])).

(** [rl.question(query)]: the next line typed, or no answer ever. *)
Definition ask (id : nat) (query : string) : M state string :=
  fun st =>
    let h := history st ++ [Ask id query] in
    match input st with
    | [] => (Blocked, mkState (mode st) (asyncInterface st) (syncInterface st) [] h)
    | line :: rest =>
        (Ok line, mkState (mode st) (asyncInterface st) (syncInterface st) rest h)
    end.

(** [rl.close()] *)
Definition close (id : nat) : M state unit :=
  modify (fun st => mkState (mode st) (asyncInterface st) (syncInterface st)
                      (input st) (history st ++ [Close id])).

(** [cleanup] *)
Definition cleanup : M state unit :=
  (a <- gets asyncInterface ;;
   match a with
   | Some id =>
       close id ;;;
       modify (fun st => mkState (mode st) None (syncInterface st) (input st)
                           (history st))
   | None => ret tt
   end) ;;;
  s <- gets syncInterface ;;
  match s with
  | Some id =>
      close id ;;;
      modify (fun st => mkState (mode st) (asyncInterface st) None (input st)
                          (history st))
  | None => ret tt
  end.

(** [setMode] *)
Definition setMode (m : ReadlineMode) : M state unit :=
  modify (fun st => mkState m (asyncInterface st) (syncInterface st) (input st)
                      (history st)) ;;;
  cleanup.

(** [questionAsync] *)
Definition questionAsync (query : string) : M state string :=
  a <- gets asyncInterface ;;
  id <- match a with
        | Some id => ret id
        | None =>
            id <- createInterface AsyncKind ;;
            modify (fun st => mkState (mode st) (Some id) (syncInterface st)
                                (input st) (history st)) ;;;
            ret id
        end ;;
  ask id query.

(** [questionSync] *)
Definition questionSync (query : string) : M state string :=
  s <- gets syncInterface ;;
  id <- match s with
        | Some id => ret id
        | None =>
            id <- createInterface SyncKind ;;
            modify (fun st => mkState (mode st) (asyncInterface st) (Some id)
                                (input st) (history st)) ;;;
            ret id
        end ;;
  ask id query.

(** [question] *)
Definition question (query : string) : M state string :=
  m <- gets mode ;;
  match m with
  | ModeAsync => questionAsync query
  | ModeSync => questionSync query
  end.

End ReadlineManager.

(** Sequences of calls on a [ReadlineManager], and the bookkeeping of its
    interfaces. *)
Module ReadlineSpec.
Import CLIBuilder ReadlineManager.

Inductive op : Type :=
| OpSetMode (m : ReadlineMode)
| OpQuestion (query : string)
| OpCleanup.

Definition run_op (st : state) (o : op) : state :=
  match o with
  | OpSetMode m => snd (setMode m st)
  | OpQuestion query => snd (question query st)
  | OpCleanup => snd (cleanup st)
  end.

Definition run_ops (ops : list op) (st : state) : state :=
  fold_left run_op ops st.

Definition is_open (id : nat) (open : list (kind * nat)) : bool :=
  existsb (fun o => Nat.eqb (snd o) id) open.

(** The interfaces open after the events [evs], starting from those in
    [open], with the numbers of all interfaces created so far; [None]
    when an event is out of order: an interface created under a number
    already used, or asked or closed while it is not open. *)
Fixpoint audit (open : list (kind * nat)) (created : list nat)
    (evs : list event) : option (list (kind * nat) * list nat) :=
  match evs with
  | [] => Some (open, created)
  | Create k id :: rest =>
      if existsb (Nat.eqb id) created then None
      else audit (open ++ [(k, id)]) (id :: created) rest
  | Ask id _ :: rest =>
      if is_open id open then audit open created rest else None
  | Close id :: rest =>
      if is_open id open
      then audit (List.filter (fun o => negb (Nat.eqb (snd o) id)) open) created rest
      else None
  end.

Definition kind_of (m : ReadlineMode) : kind :=
  match m with
  | ModeAsync => AsyncKind
  | ModeSync => SyncKind
  end.

(** The interfaces that the fields of the manager hold. *)
Definition held (st : state) : list (kind * nat) :=
  match asyncInterface st with Some id => [(AsyncKind, id)] | None => [] end
  ++ match syncInterface st with Some id => [(SyncKind, id)] | None => [] end.

(** What holds of a manager between two calls. *)
Definition consistent (st : state) : Prop :=
  (exists created,
     audit [] [] (history st) = Some (held st, created)
     /\ forall id, In id created -> id < List.length (history st))
  /\ (asyncInterface st <> None -> mode st = ModeAsync)
  /\ (syncInterface st <> None -> mode st = ModeSync).

(** The last call of the sequence releases the interfaces. *)
Definition ends_released (ops : list op) : bool :=
  match List.rev ops with
  | OpQuestion _ :: _ => false
  | _ => true
  end.

End ReadlineSpec.

(** What the statements about [createCLI] use. *)
Module FactorySpec.
Import PluginManager PluginSpec Factory.

(** What [install] throws for [plugin]. *)
Definition rejection (st : state) (plugin : PluginConfig) : thrown :=
  match install plugin st with
  | (Throw t, _) => t
  | _ => NonError VUndefined
  end.

Definition install_warning (plugin : PluginConfig) (t : thrown) : event :=
  ConsoleWarn ("Failed to install plugin '" +:+ to_string (name plugin) +:+ "':") t.

Definition is_notice (e : event) : bool :=
  match e with ConsoleLog _ => true | _ => false end.

(** The warning of a rejected plugin: it carries a [PluginError]. *)
Definition is_rejection_warning (e : event) : bool :=
  match e with
  | ConsoleWarn _ (ErrorObj err) =>
      match e_class err with PluginError => true | _ => false end
  | _ => false
  end.

(** The manager after the callbacks for [plugins], without the
    warnings. *)
Definition after (plugins : list PluginConfig) (st : state) : state :=
  fst (fold_left attempt plugins (st, [])).

End FactorySpec.

(** Why [install] rejects a plugin, in the order in which the reasons are
    looked for; [None] when it does not. *)
Module RejectionSpec.
Import Regex PluginManager.

Definition install_reason (st : state) (config : PluginConfig) : option string :=
  if map_has (plugins st) (name config)
  then Some ("Plugin '" +:+ to_string (name config) +:+ "' is already installed")
  else if negb (truthy (name config) && is_string (name config))
  then Some "Plugin name is required and must be a string"
  else if negb (truthy (version config) && is_string (version config))
  then Some "Plugin version is required and must be a string"
  else if negb (matches semverRegex (to_string (version config)))
  then Some ("Plugin version '" +:+ to_string (version config)
             +:+ "' is not a valid semantic version")
  else None.

(** The error that reaches the caller of [install] or [uninstall]. *)
Definition plugin_failure (verb op : string) (pluginName : value)
    (reason : string) : thrown :=
  ErrorObj (mkError PluginError
    ("Failed to " +:+ verb +:+ " plugin '" +:+ to_string pluginName +:+ "': "
     +:+ reason)
    (Some "PLUGIN_ERROR")
    (mkContext (Some op) None None None [("pluginName", pluginName)])).

End RejectionSpec.

(** ** src/core/mini-commander.ts *)

Module MiniCommander.
Import Regex Str Themes Validators.

(** [s.includes(search)] *)
Fixpoint includes (s search : string) : bool :=
  String.prefix search s
  || match s with
     | EmptyString => false
     | String _ s' => includes s' search
     end.

(** [s.indexOf(c)] for a one-character string; [None] is [-1]. *)
Fixpoint indexOf (s : string) (c : ascii) : option nat :=
  match s with
  | EmptyString => None
  | String c' s' =>
      if Ascii.eqb c' c then Some 0
      else match indexOf s' c with
           | Some i => Some (S i)
           | None => None
           end
  end.

(** The longest prefix of [s] made of characters of class [p]. *)
Fixpoint take_while (p : ascii -> bool) (s : string) : string :=
  match s with
  | EmptyString => EmptyString
  | String c s' => if p c then String c (take_while p s') else EmptyString
  end.

(** The group of the first match of [/<([^>]+)>/] in [s]: a [<], then
    the characters up to the next [>], at least one. *)
Fixpoint angle_group (s : string) : option string :=
  match s with
  | EmptyString => None
  | String c s' =>
      let run := take_while (fun x => negb (Ascii.eqb x ">")) s' in
      if Ascii.eqb c "<" && negb (String.eqb run "")
         && Nat.ltb (String.length run) (String.length s')
      then Some run
      else angle_group s'
  end.

(** The group of the first match of [/--([a-zA-Z0-9-]+)/] in [s]. *)
Fixpoint long_group (s : string) : option string :=
  match s with
  | EmptyString => None
  | String _ s' =>
      let run := take_while is_ident_char (substring_from 2 s) in
      if startsWith s "--" && negb (String.eqb run "")
      then Some run
      else long_group s'
  end.

(** An element of [this.options]. *)
Record OptionDef : Type := mkOption {
  flags : string;
  description : option string;
  arg : option string
}.

(** [ActionFn]: called with the project name and the options. *)
Definition ActionFn : Type := value -> dict -> behaviour.

(** The fields of a [Command] ([$name], [$description] and [$version]
    are written without the dollar sign). *)
Record Command : Type := mkCommand {
  name : string;
  description_ : string;
  version : string;
  argName : option string;
  options : list OptionDef;
  actionFn : option ActionFn;
  exitOverrideEnabled : bool
}.

Inductive event : Type :=
| ConsoleLog (s : string)
| Exit (code : Z)
| ActionCall (projectName : value) (options : dict).

Definition state : Type := list event.

Definition emit (e : event) : M state unit := modify (fun st => st ++ [e]).

(** [option] *)
Definition option (this : Command) (flags : string)
    (description : Datatypes.option string) : Command :=
  mkCommand (name this) (description_ this) (version this) (argName this)
    (options this ++ [mkOption flags description (angle_group flags)])
    (actionFn this) (exitOverrideEnabled this).

(** [action] *)
Definition action (this : Command) (fn : ActionFn) : Command :=
  mkCommand (name this) (description_ this) (version this) (argName this)
    (options this) (Some fn) (exitOverrideEnabled this).

(** [exitOverride] *)
Definition exitOverride (this : Command) : Command :=
  mkCommand (name this) (description_ this) (version this) (argName this)
    (options this) (actionFn this) true.

(** The option that a single letter or a long name stands for:
    [this.options.find(o => o.flags.includes(needle))]. *)
Definition find_option (this : Command) (needle : string)
    : Datatypes.option OptionDef :=
  List.find (fun o => includes (flags o) needle) (options this).

(** The definition is there and expects a value: [optDef && optDef.arg]. *)
Definition expects_value (optDef : Datatypes.option OptionDef) : bool :=
  match optDef with
  | Some o => match arg o with
              | Some a => truthy (VStr a)
              | None => false
              end
  | None => false
  end.

(** [(optDef?.flags.match(/--([a-zA-Z0-9-]+)/) || [])[1] || letter] *)
Definition long_or_letter (optDef : Datatypes.option OptionDef) (letter : string)
    : string :=
  match optDef with
  | Some o => match long_group (flags o) with
              | Some long => if truthy (VStr long) then long else letter
              | None => letter
              end
  | None => letter
  end.

(** [for (const l of letters) options[l] = true] *)
Fixpoint set_letters (letters : string) (opts : dict) : dict :=
  match letters with
  | EmptyString => opts
  | String l rest => set_letters rest (set opts (String l "") (VBool true))
  end.

(** The loop over the tokens; a token that is taken as the value of the
    option before it is skipped ([i++]), and a value that is missing is
    [undefined]. *)
Fixpoint scan (this : Command) (real : list string) (opts : dict)
    (nonOptionArgs : list string) : dict * list string :=
  match real with
  | [] => (opts, nonOptionArgs)
  | token :: rest =>
      let value := match rest with next :: _ => VStr next | [] => VUndefined end in
      if startsWith token "--" then
        match indexOf token "=" with
        | Some eq =>
            scan this rest
              (set opts (String.substring 2 (eq - 2) token)
                 (VStr (substring_from (eq + 1) token)))
              nonOptionArgs
        | None =>
            let key := substring_from 2 token in
            if expects_value (find_option this ("--" +:+ key))
            then match rest with
                 | _ :: rest' => scan this rest' (set opts key value) nonOptionArgs
                 | [] => (set opts key value, nonOptionArgs)
                 end
            else scan this rest (set opts key (VBool true)) nonOptionArgs
        end
      else if startsWith token "-" && Nat.ltb 1 (String.length token) then
        let letters := substring_from 1 token in
        if Nat.eqb (String.length letters) 1 then
          let optDef := find_option this ("-" +:+ letters) in
          if expects_value optDef
          then match rest with
               | _ :: rest' =>
                   scan this rest' (set opts (long_or_letter optDef letters) value)
                     nonOptionArgs
               | [] => (set opts (long_or_letter optDef letters) value, nonOptionArgs)
               end
          else scan this rest (set opts (long_or_letter optDef letters) (VBool true))
                 nonOptionArgs
        else scan this rest (set_letters letters opts) nonOptionArgs
      else scan this rest opts (nonOptionArgs ++ [token])
  end.

Section WithProcess.

(** [process.argv], and the message of the [TypeError] that the engine
    raises when [new] is applied to a value that is no constructor. *)
Variable process_argv : list string.
Variable not_a_constructor : string.

(** [new CommanderError(message, exitCode, code)]. The name is imported
    from [~/errors], that is src/errors/index.ts, which exports no
    [CommanderError]: the binding is [undefined], no instance is built,
    and the expression throws a [TypeError], an [Error] that is not a
    [CLIError] and carries neither the exit code nor the code. *)
Definition new_CommanderError (message : string) (exitCode : Z)
    (code : Datatypes.option string) : M state thrown :=
  throw (ErrorObj (plain_error not_a_constructor)).

(** [throwExit] *)
Definition throwExit (this : Command) (exitCode : Z)
    (code : Datatypes.option string) : M state unit :=
  if exitOverrideEnabled this
  then
    e <- new_CommanderError "process.exit unexpectedly called" exitCode code ;;
    throw e
  else emit (Exit exitCode) ;;; block.

(** Where the real arguments start. *)
Definition start (args : list string) : nat :=
  let first := nth 0 args "" in
  let second := nth 1 args "" in
  if Nat.leb 2 (List.length args) && endsWith first "node" then 2
  else if Nat.leb 2 (List.length args) && includes first "node" then 2
  else if Nat.leb 2 (List.length args) && endsWith second ".js" then 2
  else 0.

(** [real.includes(token)] *)
Definition has_token (real : list string) (token : string) : bool :=
  existsb (String.eqb token) real.

(** [parse]; the value that the action returns is returned as it is, so
    only an action that throws makes [parse] throw. *)
Definition parse (this : Command) (argv : Datatypes.option (list string))
    : M state unit :=
  let args := match argv with Some a => a | None => process_argv end in
  let real := skipn (start args) args in
  when_ (has_token real "--help" || has_token real "-h")
    (throwExit this 0 (Some "commander.helpDisplayed")) ;;;
  when_ (has_token real "-V" || has_token real "--version")
    (emit (ConsoleLog (version this)) ;;;
     throwExit this 0 (Some "commander.version")) ;;;
  let parsed := scan this real ∅ [] in
  let projectName :=
    match snd parsed with
    | first :: _ => VStr first
    | [] => VUndefined
    end in
  match actionFn this with
  | Some fn =>
      emit (ActionCall projectName (fst parsed)) ;;;
      match fn projectName (fst parsed) with
      | Throws t => throw t
      | _ => ret tt
      end
  | None => ret tt
  end.

End WithProcess.

End MiniCommander.

(** What the statements about [Command.parse] use. *)
Module CommanderSpec.
Import Themes MiniCommander.

(** The token is read as an option: it starts with a hyphen and is longer
    than the hyphen alone. *)
Definition is_flag (token : string) : bool :=
  startsWith token "-" && Nat.ltb 1 (String.length token).

Definition asks_help (real : list string) : bool :=
  has_token real "--help" || has_token real "-h".

Definition asks_version (real : list string) : bool :=
  has_token real "-V" || has_token real "--version".

(** The first of the tokens that are not options, or [undefined]. *)
Definition first_positional (nonOptionArgs : list string) : value :=
  match nonOptionArgs with
  | first :: _ => VStr first
  | [] => VUndefined
  end.

(** The arguments that [parse] reads. *)
Definition real_args (process_argv : list string)
    (argv : Datatypes.option (list string))
    : list string :=
  let args := match argv with Some a => a | None => process_argv end in
  skipn (start args) args.

(** How a call of the action ends for [parse]. *)
Definition action_result (b : behaviour) : result unit :=
  match b with
  | Throws t => Throw t
  | _ => Ok tt
  end.

End CommanderSpec.

(** ** src/plugins/plugin-manager.ts: the helpers for plugin developers *)

Module PluginHelpers.
Import PluginManager.

Section WithFields.

(** The fields [templates], [validators] and [themes] of a plugin, which
    the record [PluginConfig] above leaves out, and the types of what
    they hold. *)
Variables Template Validator Theme : Type.
Variable templates : PluginConfig -> option (list Template).
Variable validators : PluginConfig -> option (gmap string Validator).
Variable themes : PluginConfig -> option (gmap string Theme).

(** [Object.assign(target, source)] on objects used as dictionaries. *)
Definition assign {A} (target source : gmap string A) : gmap string A :=
  source ∪ target.

(** [getAllTemplates] *)
Definition getAllTemplates (st : state) : list Template :=
  fold_left
    (fun all plugin =>
       match templates plugin with
       | Some ts => all ++ ts
       | None => all
       end)
    (map_values (plugins st)) [].

(** [getAllValidators] *)
Definition getAllValidators (st : state) : gmap string Validator :=
  fold_left
    (fun all plugin =>
       match validators plugin with
       | Some vs => assign all vs
       | None => all
       end)
    (map_values (plugins st)) ∅.

(** [getAllThemes] *)
Definition getAllThemes (st : state) : gmap string Theme :=
  fold_left
    (fun all plugin =>
       match themes plugin with
       | Some ts => assign all ts
       | None => all
       end)
    (map_values (plugins st)) ∅.

End WithFields.

End PluginHelpers.

(** What the statements about the helpers use. *)
Module HelperSpec.
Import PluginManager.

(** The entry for [k] of the last plugin of the list that has one. *)
Fixpoint last_entry {A} (field : PluginConfig -> option (gmap string A))
    (values : list PluginConfig) (k : string) : option A :=
  match values with
  | [] => None
  | plugin :: rest =>
      match last_entry field rest k with
      | Some a => Some a
      | None => match field plugin with
                | Some entries => entries !! k
                | None => None
                end
      end
  end.

(** The templates of a plugin, none when the field is absent. *)
Definition templates_of {T} (templates : PluginConfig -> option (list T))
    (plugin : PluginConfig) : list T :=
  match templates plugin with
  | Some ts => ts
  | None => []
  end.

End HelperSpec.

(* ===================================================================== *)
(** * Part II: theorems                                                    *)
(* ===================================================================== *)

(** ** Strings *)

#[global] Arguments String.append !s1 s2 : simpl nomatch.

Module StrFacts.

Lemma append_nil_r (s : string) : s +:+ "" = s.
Proof. induction s as [|c s IH]; simpl; [reflexivity | now rewrite IH]. Qed.

Lemma append_assoc (a b c : string) : (a +:+ b) +:+ c = a +:+ (b +:+ c).
Proof. induction a as [|x a IH]; simpl; [reflexivity | now rewrite IH]. Qed.

Lemma append_eq_nil (a b : string) : a +:+ b = "" -> a = "" /\ b = "".
Proof. destruct a; simpl; [auto | discriminate]. Qed.

End StrFacts.

(** ** The monad *)

Module EffectFacts.

Lemma bind_assoc_pt {S A B C} (m : M S A) (k : A -> M S B)
    (h : B -> M S C) (st : S) :
  bind (bind m k) h st = bind m (fun a => bind (k a) h) st.
Proof. unfold bind. now destruct (m st) as [[a|t|] st1]. Qed.

(** The continuation matters only where the first part returns. *)
Lemma bind_ext_run {S A B} (m : M S A) (k k' : A -> M S B) (st : S) :
  (forall a st1, m st = (Ok a, st1) -> k a st1 = k' a st1) ->
  bind m k st = bind m k' st.
Proof. intros Hk. unfold bind. destruct (m st) as [[a|t|] st1]; auto. Qed.

Lemma bind_ext_pt {S A B} (m : M S A) (k k' : A -> M S B) (st : S) :
  (forall a s, k a s = k' a s) -> bind m k st = bind m k' st.
Proof. intros Hk. apply bind_ext_run. auto. Qed.

Lemma bind_Ok {S A B} (m : M S A) (k : A -> M S B) st b st' :
  bind m k st = (Ok b, st') ->
  exists a st1, m st = (Ok a, st1) /\ k a st1 = (Ok b, st').
Proof.
  unfold bind. destruct (m st) as [[a|t|] st1]; try discriminate. eauto.
Qed.

End EffectFacts.

(** ** [Regex.matches] decides the language of the expression *)

Module RegexFacts.
Import Regex RegexLang StrFacts.

Lemma lang_void_inv s : lang Void s -> False.
Proof. intros L. inversion L. Qed.

Lemma lang_eps_inv s : lang Eps s -> s = "".
Proof. intros L. now inversion L. Qed.

Lemma lang_chr_inv p s :
  lang (Chr p) s -> exists c, s = String c "" /\ p c = true.
Proof. intros L. inversion L; subst. eauto. Qed.

Lemma lang_seq_inv r1 r2 s :
  lang (Seq r1 r2) s -> exists s1 s2, s = s1 +:+ s2 /\ lang r1 s1 /\ lang r2 s2.
Proof. intros L. inversion L; subst. eauto. Qed.

Lemma lang_alt_inv r1 r2 s : lang (Alt r1 r2) s -> lang r1 s \/ lang r2 s.
Proof. intros L. inversion L; subst; auto. Qed.

Lemma nullable_lang (r : regex) : nullable r = true <-> lang r "".
Proof.
  induction r as [| |p|r1 IH1 r2 IH2|r1 IH1 r2 IH2|r IH]; simpl.
  - split; [discriminate | intros L; destruct (lang_void_inv _ L)].
  - split; [intros _; constructor | reflexivity].
  - split; [discriminate|].
    intros L. apply lang_chr_inv in L as (c & E & _). discriminate.
  - rewrite andb_true_iff, IH1, IH2. split.
    + intros [L1 L2]. exact (LSeq _ _ "" "" L1 L2).
    + intros L. apply lang_seq_inv in L as (s1 & s2 & E & L1 & L2).
      symmetry in E. destruct (append_eq_nil _ _ E) as [-> ->]. auto.
  - rewrite orb_true_iff, IH1, IH2. split.
    + intros [L|L]; [apply LAltL | apply LAltR]; exact L.
    + apply lang_alt_inv.
  - split; [intros _; constructor | reflexivity].
Qed.

(** A non-empty word of [Star r] starts with a non-empty word of [r]. *)
Lemma star_cons (r : regex) (c : ascii) (s : string) :
  lang (Star r) (String c s) ->
  exists s1 s2, s = s1 +:+ s2 /\ lang r (String c s1) /\ lang (Star r) s2.
Proof.
  intros L. remember (Star r) as r' eqn:Er. remember (String c s) as w eqn:Ew.
  revert c s Ew.
  induction L as [| | | | | |r0 s1 s2 L1 _ L2 IH2]; intros c' s' Ew;
    try discriminate.
  injection Er as ->. destruct s1 as [|c1 s1]; simpl in Ew.
  - apply IH2; [reflexivity | exact Ew].
  - injection Ew as -> <-. exists s1, s2. auto.
Qed.

Lemma deriv_lang (r : regex) : forall c s,
  lang (deriv c r) s <-> lang r (String c s).
Proof.
  induction r as [| |p|r1 IH1 r2 IH2|r1 IH1 r2 IH2|r IH]; intros c s; simpl.
  - split; intros L; destruct (lang_void_inv _ L).
  - split; intros L; [destruct (lang_void_inv _ L)|].
    apply lang_eps_inv in L. discriminate.
  - destruct (p c) eqn:Hp; split; intros L.
    + apply lang_eps_inv in L as ->. now constructor.
    + apply lang_chr_inv in L as (c' & E & _). injection E as _ ->. constructor.
    + destruct (lang_void_inv _ L).
    + apply lang_chr_inv in L as (c' & E & Hp'). injection E as <- _. congruence.
  - assert (Hseq : lang (Seq (deriv c r1) r2) s ->
                   lang (Seq r1 r2) (String c s)).
    { intros L. apply lang_seq_inv in L as (s1 & s2 & -> & L1 & L2).
      apply IH1 in L1. exact (LSeq _ _ (String c s1) s2 L1 L2). }
    assert (Hback : lang (Seq r1 r2) (String c s) ->
                    lang (Seq (deriv c r1) r2) s
                    \/ (lang r1 "" /\ lang r2 (String c s))).
    { intros L. apply lang_seq_inv in L as (s1 & s2 & E & L1 & L2).
      destruct s1 as [|c1 s1]; simpl in E.
      - right. subst s2. auto.
      - injection E as -> ->. left. apply LSeq; [now apply IH1 | exact L2]. }
    destruct (nullable r1) eqn:N.
    + split.
      * intros L. apply lang_alt_inv in L as [L|L]; [now apply Hseq|].
        apply (LSeq r1 r2 "" (String c s)); [now apply nullable_lang | now apply IH2].
      * intros L. destruct (Hback L) as [L'|[_ L2]];
          [now apply LAltL | apply LAltR; now apply IH2].
    + split; [exact Hseq|].
      intros L. destruct (Hback L) as [L'|[L1 _]]; [exact L'|].
      apply nullable_lang in L1. congruence.
  - split; intros L.
    + apply lang_alt_inv in L as [L|L];
        [apply LAltL; now apply IH1 | apply LAltR; now apply IH2].
    + apply lang_alt_inv in L as [L|L];
        [apply LAltL; now apply IH1 | apply LAltR; now apply IH2].
  - split.
    + intros L. apply lang_seq_inv in L as (s1 & s2 & -> & L1 & L2).
      apply IH in L1. exact (LStarApp r (String c s1) s2 L1 L2).
    + intros L. destruct (star_cons _ _ _ L) as (s1 & s2 & -> & L1 & L2).
      apply LSeq; [now apply IH | exact L2].
Qed.

Lemma matches_lang (s : string) : forall r, matches r s = true <-> lang r s.
Proof.
  induction s as [|c s IH]; intros r; simpl.
  - apply nullable_lang.
  - rewrite IH. apply deriv_lang.
Qed.

End RegexFacts.

(** ** The language of [semverRegex] *)

Module VersionFacts.
Import Regex RegexLang RegexFacts StrFacts Version PluginManager.

Lemma lang_lit (c : ascii) (s : string) : lang (Lit c) s <-> s = String c "".
Proof.
  split.
  - intros L. apply lang_chr_inv in L as (c' & -> & E).
    apply Ascii.eqb_eq in E. now subst.
  - intros ->. constructor. apply Ascii.eqb_refl.
Qed.

Lemma lang_star_chr (p : ascii -> bool) (s : string) :
  lang (Star (Chr p)) s <-> all_chars p s = true.
Proof.
  induction s as [|c s IH]; simpl.
  - split; [reflexivity | intros _; constructor].
  - rewrite andb_true_iff, <- IH. split.
    + intros L. apply star_cons in L as (s1 & s2 & -> & L1 & L2).
      apply lang_chr_inv in L1 as (c' & E & Hp). injection E as <- ->.
      auto.
    + intros [Hp L]. exact (LStarApp _ (String c "") s (LChr p c Hp) L).
Qed.

Lemma lang_plus_chr (p : ascii -> bool) (s : string) :
  lang (Plus (Chr p)) s <-> run p s.
Proof.
  unfold Plus, run. split.
  - intros L. apply lang_seq_inv in L as (s1 & s2 & -> & L1 & L2).
    apply lang_chr_inv in L1 as (c & -> & Hp). apply lang_star_chr in L2.
    simpl. rewrite Hp, L2. split; [discriminate | reflexivity].
  - intros [Hne Hall]. destruct s as [|c s]; [congruence|].
    simpl in Hall. apply andb_true_iff in Hall as [Hp Hall].
    apply (LSeq _ _ (String c "") s); [now constructor | now apply lang_star_chr].
Qed.

Lemma dotted_star (b : string) :
  lang (Star (Seq (Lit ".") (Plus (Chr is_ident_char)))) b ->
  forall a, run is_ident_char a -> dotted (a +:+ b).
Proof.
  intros L.
  remember (Star (Seq (Lit ".") (Plus (Chr is_ident_char)))) as r eqn:Er.
  induction L as [| | | | | |r0 t b' Lt _ Lb IH]; try discriminate; intros a Ha.
  - rewrite append_nil_r. now apply dotted_one.
  - injection Er as ->.
    apply lang_seq_inv in Lt as (d & x & -> & Ld & Lx).
    apply lang_lit in Ld as ->. apply lang_plus_chr in Lx.
    rewrite append_assoc. apply (dotted_more a (x +:+ b') Ha).
    now apply IH.
Qed.

Lemma lang_identifiers (s : string) : lang identifiers s <-> dotted s.
Proof.
  unfold identifiers. split.
  - intros L. apply lang_seq_inv in L as (a & b & -> & La & Lb).
    apply lang_plus_chr in La. now apply dotted_star.
  - intros D. induction D as [s Hs|s rest Hs D IH].
    + rewrite <- (append_nil_r s).
      apply LSeq; [now apply lang_plus_chr | constructor].
    + apply lang_seq_inv in IH as (a & b & -> & La & Lb).
      apply LSeq; [now apply lang_plus_chr|].
      change ("." +:+ a +:+ b) with (("." +:+ a) +:+ b).
      apply LStarApp; [|exact Lb].
      apply LSeq; [now apply lang_lit | exact La].
Qed.

Lemma lang_suffix (c : ascii) (s : string) :
  lang (Opt (Seq (Lit c) identifiers)) s <-> suffix c s.
Proof.
  unfold Opt, suffix. split.
  - intros L. apply lang_alt_inv in L as [L|L].
    + right. apply lang_seq_inv in L as (a & ids & -> & La & Li).
      apply lang_lit in La as ->. exists ids. split; [reflexivity|].
      now apply lang_identifiers.
    + left. now apply lang_eps_inv.
  - intros [->|(ids & -> & D)].
    + apply LAltR. constructor.
    + apply LAltL. apply (LSeq _ _ (String c "") ids);
        [now apply lang_lit | now apply lang_identifiers].
Qed.

(** [semverRegex.test(v)] holds exactly for the strings of the form
    DIGITS.DIGITS.DIGITS with the two optional suffixes. *)
Lemma semverRegex_pattern (v : string) :
  matches semverRegex v = true <-> version_pattern v.
Proof.
  rewrite matches_lang. unfold semverRegex, version_pattern. split.
  - intros L.
    apply lang_seq_inv in L as (major & r1 & -> & Lmaj & L).
    apply lang_seq_inv in L as (d1 & r2 & -> & Ld1 & L).
    apply lang_seq_inv in L as (minor & r3 & -> & Lmin & L).
    apply lang_seq_inv in L as (d2 & r4 & -> & Ld2 & L).
    apply lang_seq_inv in L as (patch & r5 & -> & Lpat & L).
    apply lang_seq_inv in L as (pre & build & -> & Lpre & Lbuild).
    apply lang_lit in Ld1 as ->. apply lang_lit in Ld2 as ->.
    exists major, minor, patch, pre, build.
    split; [reflexivity|].
    split; [now apply lang_plus_chr|].
    split; [now apply lang_plus_chr|].
    split; [now apply lang_plus_chr|].
    split; now apply lang_suffix.
  - intros (major & minor & patch & pre & build & -> & Hmaj & Hmin & Hpat & Hpre & Hbuild).
    apply LSeq; [now apply lang_plus_chr|].
    apply (LSeq _ _ "." _); [now apply lang_lit|].
    apply LSeq; [now apply lang_plus_chr|].
    apply (LSeq _ _ "." _); [now apply lang_lit|].
    apply LSeq; [now apply lang_plus_chr|].
    apply LSeq; now apply lang_suffix.
Qed.

End VersionFacts.

(** ** The plugin manager: [install] *)

Module PluginManagerFacts.
Import Regex Version VersionFacts PluginManager PluginSpec.

Lemma same_key_refl_str (n : string) : same_key (VStr n) (VStr n) = true.
Proof. apply String.eqb_refl. Qed.

Lemma map_get_set (m : plugin_map) (n : string) (c : PluginConfig) :
  map_get (map_set m (VStr n) c) (VStr n) = Some c.
Proof.
  induction m as [|[k v] m IH]; simpl.
  - now rewrite String.eqb_refl.
  - destruct (same_key k (VStr n)) eqn:E; simpl; rewrite E; [reflexivity | exact IH].
Qed.

(** What [install] does, in one equation: either every test passes, the
    plugin is stored and the notice printed, or the call throws a
    [PluginError] and leaves the manager as it was. *)
Lemma install_cases (config : PluginConfig) (st : state) :
  if acceptable st config
  then install config st = (Ok tt, installed st config)
  else exists e, install config st = (Throw (ErrorObj e), st)
                 /\ e_class e = PluginError.
Proof.
  destruct st as [m out]. unfold acceptable, installed, install, try_catch, bind,
    gets, when_, validatePluginConfig, set_plugins, emit, modify, throw, ret.
  simpl.
  destruct (map_has m (name config)); simpl; [eauto|].
  destruct (truthy (name config)); simpl; [|eauto].
  destruct (is_string (name config)); simpl; [|eauto].
  destruct (truthy (version config)); simpl; [|eauto].
  destruct (is_string (version config)); simpl; [|eauto].
  destruct (matches semverRegex (to_string (version config))); simpl; eauto.
Qed.

Lemma acceptable_iff (st : state) (config : PluginConfig) :
  acceptable st config = true <-> ~ rejected_config st config.
Proof.
  unfold acceptable, rejected_config, missing_or_not_string.
  rewrite !andb_true_iff, negb_true_iff, semverRegex_pattern. split.
  - intros [[[Hhas [Hn1 Hn2]] [Hv1 Hv2]] Hpat] [R|[[R|R]|[[R|R]|(v & Ev & R)]]];
      try congruence.
    rewrite Ev in Hpat. simpl in Hpat. auto.
  - intros R.
    destruct (map_has (plugins st) (name config)) eqn:Hhas; [tauto|].
    destruct (truthy (name config)) eqn:Hn1; [|tauto].
    destruct (is_string (name config)) eqn:Hn2; [|tauto].
    destruct (truthy (version config)) eqn:Hv1; [|tauto].
    destruct (is_string (version config)) eqn:Hv2; [|tauto].
    repeat split.
    destruct (version config) as [| | | |v|] eqn:Ev; try discriminate. simpl.
    destruct (matches semverRegex v) eqn:Hm.
    + now apply semverRegex_pattern.
    + exfalso. apply R. do 3 right. exists v. split; [reflexivity|].
      rewrite <- semverRegex_pattern. congruence.
Qed.

(** C8 (as amended): [install] rejects with a plugin error exactly when the
    name is already registered, or the name or the version is missing or
    not a string, or the version is not of the form DIGITS.DIGITS.DIGITS
    with an optional [-] suffix and an optional [+] suffix of dotted
    identifiers (leading zeros allowed); otherwise it returns and the
    definition is stored under its name. It rejects the versions 1.0,
    v1.0.0 and 1.0.0.0 and accepts 1.0.0, 1.0.0-beta.1 and 1.0.0+build.5. *)
Theorem install_rejects_exactly (config : PluginConfig) (st : state) :
  (rejects_with_plugin_error config st <-> rejected_config st config)
  /\ (~ rejected_config st config ->
      exists n st', name config = VStr n
                    /\ install config st = (Ok tt, st')
                    /\ getPlugin st' n = Some config)
  /\ (forall v, In v ["1.0"; "v1.0.0"; "1.0.0.0"] ->
      forall n d h, rejects_with_plugin_error (mkPlugin n (VStr v) d h) st)
  /\ (forall v, In v ["1.0.0"; "1.0.0-beta.1"; "1.0.0+build.5"] ->
      forall n d h, n <> "" -> map_has (plugins st) (VStr n) = false ->
      exists st', install (mkPlugin (VStr n) (VStr v) d h) st = (Ok tt, st')
                  /\ getPlugin st' n = Some (mkPlugin (VStr n) (VStr v) d h)).
Proof.
  split; [|split; [|split]].
  - pose proof (install_cases config st) as C.
    pose proof (acceptable_iff st config) as A.
    destruct (acceptable st config) eqn:Acc.
    + split.
      * intros (e & st' & E & _). rewrite C in E. discriminate.
      * intros R. exfalso. now apply A.
    + split.
      * intros _. unfold rejected_config, missing_or_not_string.
        unfold acceptable in Acc.
        destruct (map_has (plugins st) (name config)); [tauto|].
        destruct (truthy (name config)); [|tauto].
        destruct (is_string (name config)); [|tauto].
        destruct (truthy (version config)); [|tauto].
        destruct (is_string (version config)) eqn:Hs; [|tauto].
        simpl in Acc. do 3 right.
        destruct (version config) as [| | | |v|]; try discriminate.
        exists v. split; [reflexivity|]. rewrite <- semverRegex_pattern.
        simpl in Acc. congruence.
      * intros _. destruct C as (e & E & Hc). now exists e, st.
  - intros R. apply acceptable_iff in R.
    pose proof (install_cases config st) as C. rewrite R in C.
    unfold acceptable in R. rewrite !andb_true_iff in R.
    destruct R as [[[_ [_ Hn]] _] _].
    destruct (name config) as [| | | |n|] eqn:En; try discriminate.
    exists n, (installed st config). repeat split; [exact C|].
    unfold getPlugin, installed. simpl. rewrite En. apply map_get_set.
  - intros v Hv n d h.
    pose proof (install_cases (mkPlugin n (VStr v) d h) st) as C.
    assert (Acc : acceptable st (mkPlugin n (VStr v) d h) = false).
    { unfold acceptable. simpl.
      destruct Hv as [<-|[<-|[<-|[]]]]; vm_compute (matches _ _);
        now rewrite !andb_false_r. }
    rewrite Acc in C. destruct C as (e & E & Hc). now exists e, st.
  - intros v Hv n d h Hn Hfresh.
    pose proof (install_cases (mkPlugin (VStr n) (VStr v) d h) st) as C.
    assert (Acc : acceptable st (mkPlugin (VStr n) (VStr v) d h) = true).
    { unfold acceptable. simpl. rewrite Hfresh.
      assert (String.eqb n "" = false) as -> by now apply String.eqb_neq.
      destruct Hv as [<-|[<-|[<-|[]]]]; reflexivity. }
    rewrite Acc in C. eexists. split; [exact C|].
    unfold getPlugin, installed. simpl. apply map_get_set.
Qed.

(** C8 as stated fails when the grammar is that of Semantic Versioning
    2.0.0: the version 01.0.0 has a leading zero, which that grammar
    forbids, and [install] accepts it. *)
Lemma install_accepts_leading_zero :
  let config := mkPlugin (VStr "p") (VStr "01.0.0") None None in
  let st := mkState [] [] in
  rejected_config_semver2 st config
  /\ ~ rejects_with_plugin_error config st
  /\ exists st', install config st = (Ok tt, st').
Proof.
  cbv zeta. split; [|split].
  - do 3 right. exists "01.0.0". split; reflexivity.
  - intros (e & st' & E & _). vm_compute in E. discriminate.
  - eexists. vm_compute. reflexivity.
Qed.

(** C10: whenever [install] throws, the registry is as before: [getPlugin]
    answers the same for every name and [listPlugins] lists the same
    plugins. *)
Theorem install_atomic (config : PluginConfig) (st st' : state) (t : thrown) :
  install config st = (Throw t, st') ->
  (forall n, getPlugin st' n = getPlugin st n)
  /\ listPlugins st' = listPlugins st.
Proof.
  intros E. pose proof (install_cases config st) as C.
  destruct (acceptable st config).
  - rewrite C in E. discriminate.
  - destruct C as (e & E' & _). rewrite E' in E. injection E as _ <-. auto.
Qed.

Lemma install_atomic_witness :
  let p := mkPlugin (VStr "test-plugin") (VStr "1.0.0") None None in
  let st := mkState [(VStr "test-plugin", p)] [] in
  (forall n, getPlugin (snd (install p st)) n = getPlugin st n)
  /\ listPlugins (snd (install p st)) = listPlugins st.
Proof.
  cbv zeta.
  eapply (install_atomic (mkPlugin (VStr "test-plugin") (VStr "1.0.0") None None)).
  reflexivity.
Defined.

End PluginManagerFacts.

(** ** The plugin manager: [executeHook] *)

Module ExecuteHookFacts.
Import PluginManager HookSpec.

Lemma forallb_map_comp {A B} (f : A -> B) (g : B -> bool) (l : list A) :
  forallb g (List.map f l) = forallb (fun x => g (f x)) l.
Proof. induction l as [|x l IH]; simpl; [reflexivity | now rewrite IH]. Qed.

Lemma advance_nil (h : hstate) : advance h [] [] = h.
Proof.
  destruct h as [[m out] ps]. unfold advance. simpl. now rewrite !app_nil_r.
Qed.

Lemma advance_advance (h : hstate) evs1 ps1 evs2 ps2 :
  advance (advance h evs1 ps1) evs2 ps2 = advance h (evs1 ++ evs2) (ps1 ++ ps2).
Proof. unfold advance. simpl. now rewrite !app_assoc. Qed.

Lemma hook_body_run hookName args plugin (h : hstate) :
  hook_body hookName args plugin h
  = (Ok tt, advance h (fst (sync_phase hookName args plugin))
                      (snd (sync_phase hookName args plugin))).
Proof.
  unfold hook_body, sync_phase, forward, handler_of, onError_of, onError_args.
  destruct (hooks plugin) as [hs|]; [|now rewrite advance_nil].
  destruct (hook_of hs hookName) as [hk|]; [|now rewrite advance_nil].
  unfold try_catch, bind, call_hook, call_onError, hemit, push, modify, ret, throw.
  destruct h as [[m out] ps]. unfold advance. simpl.
  destruct (hk args) as [|t|s]; simpl.
  - now rewrite app_nil_r.
  - destruct (onError hs) as [onErr|]; simpl.
    + destruct (onErr _) as [|t'|s']; simpl;
        rewrite <- ?app_assoc, ?app_nil_r; reflexivity.
    + rewrite <- ?app_assoc, ?app_nil_r; reflexivity.
  - reflexivity.
Qed.

Lemma for_each_run hookName args (values : list PluginConfig) : forall h : hstate,
  for_each values (hook_body hookName args) h
  = (Ok tt, advance h (flat_map (fun p => fst (sync_phase hookName args p)) values)
                      (flat_map (fun p => snd (sync_phase hookName args p)) values)).
Proof.
  induction values as [|p values IH]; intros h; simpl.
  - now rewrite advance_nil.
  - unfold bind. rewrite hook_body_run, IH, advance_advance. reflexivity.
Qed.

Lemma settle_one_run (p : pending) (h : hstate) :
  settle_one p h = (Ok (snd (reaction p)), advance h (fst (reaction p)) []).
Proof.
  destruct p as [plugin hookName s|s]; simpl; [|now rewrite advance_nil].
  destruct s as [|err|]; simpl; try now rewrite advance_nil.
  unfold catch_callback, forward, onError_of, onError_args, try_catch, bind,
    call_onError, hemit, modify, ret, throw.
  destruct h as [[m out] ps]. unfold advance. simpl.
  destruct (hooks plugin) as [hs|]; simpl; [|now rewrite app_nil_r].
  destruct (onError hs) as [onErr|]; simpl; [|now rewrite app_nil_r].
  destruct (onErr _) as [|t'|s']; simpl;
    rewrite <- ?app_assoc, ?app_nil_r; reflexivity.
Qed.

Lemma settle_all_run (ps : list pending) : forall h : hstate,
  settle_all ps h
  = (Ok (List.map (fun p => snd (reaction p)) ps),
     advance h (flat_map (fun p => fst (reaction p)) ps) []).
Proof.
  induction ps as [|p ps IH]; intros h; simpl.
  - now rewrite advance_nil.
  - unfold bind at 1. rewrite settle_one_run. unfold bind at 1. rewrite IH.
    unfold ret. rewrite advance_advance. reflexivity.
Qed.

Lemma forallb_Permutation {A} (f : A -> bool) (l l' : list A) :
  Permutation l l' -> forallb f l = forallb f l'.
Proof.
  induction 1 as [|x l l' _ IH|x y l|l l' l'' _ IH1 _ IH2]; simpl.
  - reflexivity.
  - now rewrite IH.
  - now destruct (f x), (f y).
  - congruence.
Qed.

Lemma arrival_nil (order : schedule) : arrival order [] = [].
Proof. apply Permutation_nil, Permutation_sym, arrival_perm. Qed.

(** [executeHook] in one equation: it never throws; it prints [printed];
    it returns once every awaited promise has settled, and waits for ever
    if one of them never does. *)
Lemma executeHook_run order hookName args (st : state) :
  executeHook order hookName args st
  = (if forallb (fun p => settled (snd (reaction p)))
          (awaited hookName args (listPlugins st))
     then Ok tt else Blocked,
     mkState (plugins st)
       (console st ++ printed order hookName args (listPlugins st))).
Proof.
  unfold executeHook, executeHook_body, listPlugins, printed, sync_events,
    reactions, awaited.
  set (values := map_values (plugins st)).
  unfold bind at 1. rewrite for_each_run. unfold advance at 1. simpl.
  unfold bind, gets. simpl.
  set (ps := flat_map (fun p => snd (sync_phase hookName args p)) values).
  rewrite <- (forallb_Permutation _ _ _ (arrival_perm order ps)).
  destruct ps as [|p ps'] eqn:Eps.
  - rewrite arrival_nil. simpl. unfold ret. simpl. now rewrite app_nil_r.
  - change (Nat.ltb 0 (List.length (p :: ps'))) with true. unfold when_, allSettled.
    unfold bind. rewrite settle_all_run. rewrite forallb_map_comp.
    unfold advance. simpl fst. simpl snd. simpl plugins. simpl console.
    rewrite <- app_assoc.
    destruct (forallb _ _); reflexivity.
Qed.

Lemma filter_flat_map {A B} (f : B -> bool) (g : A -> list B) (l : list A) :
  List.filter f (flat_map g l) = flat_map (fun x => List.filter f (g x)) l.
Proof.
  induction l as [|x l IH]; simpl; [reflexivity|].
  now rewrite List.filter_app, IH.
Qed.

Lemma flat_map_guard {A B} (c : A -> bool) (g : A -> B) (l : list A) :
  flat_map (fun x => if c x then [g x] else []) l = List.map g (List.filter c l).
Proof.
  induction l as [|x l IH]; simpl; [reflexivity|].
  destruct (c x); simpl; now rewrite IH.
Qed.

Lemma flat_map_nil {A B} (g : A -> list B) (l : list A) :
  (forall x, g x = []) -> flat_map g l = [].
Proof.
  intros Hg. induction l as [|x l IH]; simpl; [reflexivity|].
  now rewrite Hg, IH.
Qed.

Lemma forward_no_call plugin hookName err :
  List.filter is_hook_call (fst (forward plugin hookName err)) = [].
Proof.
  unfold forward. destruct (onError_of plugin) as [onErr|]; [|reflexivity].
  destruct (onErr _); reflexivity.
Qed.

Lemma sync_phase_calls hookName args plugin :
  List.filter is_hook_call (fst (sync_phase hookName args plugin))
  = if has_handler hookName plugin
    then [HookCall (name plugin) hookName args] else [].
Proof.
  unfold sync_phase, has_handler.
  destruct (handler_of plugin hookName) as [h|]; [|reflexivity].
  destruct (h args); simpl; try reflexivity.
  now rewrite forward_no_call.
Qed.

Lemma reaction_no_call (p : pending) :
  List.filter is_hook_call (fst (reaction p)) = [].
Proof.
  destruct p as [plugin hookName [|err|]|s]; simpl; try reflexivity.
  apply forward_no_call.
Qed.

(** Every handler is called once, in the order of the registry. *)
Lemma printed_calls order hookName args (values : list PluginConfig) :
  List.filter is_hook_call (printed order hookName args values)
  = List.map (fun p => HookCall (name p) hookName args)
      (List.filter (has_handler hookName) values).
Proof.
  unfold printed, sync_events, reactions.
  rewrite List.filter_app, !filter_flat_map.
  rewrite (flat_map_nil (fun p => List.filter is_hook_call (fst (reaction p))))
    by apply reaction_no_call.
  rewrite app_nil_r, <- flat_map_guard.
  apply flat_map_ext. intros p. apply sync_phase_calls.
Qed.

Lemma printed_sync order hookName args values plugin e :
  In plugin values -> In e (fst (sync_phase hookName args plugin)) ->
  In e (printed order hookName args values).
Proof.
  intros Hp He. unfold printed. apply in_or_app. left.
  apply in_flat_map. eauto.
Qed.

Lemma awaited_sync hookName args values plugin p :
  In plugin values -> In p (snd (sync_phase hookName args plugin)) ->
  In p (awaited hookName args values).
Proof. intros Hp Hin. unfold awaited. apply in_flat_map. eauto. Qed.

(** A reaction runs whenever its promise settles. *)
Lemma printed_async order hookName args values p e :
  In p (awaited hookName args values) -> In e (fst (reaction p)) ->
  In e (printed order hookName args values).
Proof.
  intros Hp He. unfold printed. apply in_or_app. right.
  apply in_flat_map. exists p. split; [|exact He].
  apply (Permutation_in p (Permutation_sym (arrival_perm order _))), Hp.
Qed.

(** What forwarding a failure to [onError] prints, and which promise it
    leaves to await. *)
Lemma forward_facts plugin hookName t onErr :
  onError_of plugin = Some onErr ->
  In (OnErrorCall (name plugin) t (hook_context hookName))
     (fst (forward plugin hookName t))
  /\ (forall t', onErr (onError_args t hookName) = Throws t' ->
      In (ConsoleError (onError_message plugin) t') (fst (forward plugin hookName t)))
  /\ (forall s, onErr (onError_args t hookName) = ReturnsPromise s ->
      snd (forward plugin hookName t) = Some s).
Proof.
  intros E. unfold forward. rewrite E.
  destruct (onErr (onError_args t hookName)) as [|t0|s0]; simpl;
    (split; [auto|]); split; intros x Hx; try discriminate;
    injection Hx as <-; auto.
Qed.

Lemma awaited_settled order hookName args (st : state) (p : pending) :
  fst (executeHook order hookName args st) = Ok tt ->
  In p (awaited hookName args (listPlugins st)) ->
  settled (snd (reaction p)) = true.
Proof.
  rewrite executeHook_run. simpl. intros Hok Hin.
  destruct (forallb _ _) eqn:F; [|discriminate].
  rewrite forallb_forall in F. now apply F.
Qed.

Lemma caught_settled plugin hookName s :
  settled (snd (reaction (Caught plugin hookName s))) = true -> settled s = true.
Proof. destruct s; simpl; auto. Qed.

(** C2 (as amended): [executeHook] calls the handler of every plugin that
    has one for the event, once each and in registry order, whatever the
    other handlers do; a handler that throws or whose promise rejects is
    reported by a warning naming the plugin and handed to that plugin's
    [onError] with the context [hook:<eventName>]; an [onError] that throws
    is reported by [console.error]; a promise returned by a handler or by
    [onError] has settled when the call returns; the call never rejects,
    and it returns when none of these promises stays pending for ever.
    What the call prints is what the loop prints, plugin after plugin,
    followed by what the reactions to the rejected promises print, in
    whatever order the promises settle. *)
Theorem executeHook_isolates_failures
    (order : schedule) (hookName : hook_name) (args : list arg) (st : state) :
  let run := executeHook order hookName args st in
  let values := listPlugins st in
  exists settling,
    Permutation settling (awaited hookName args values)
    /\ let new := sync_events hookName args values ++ reactions settling in
       (forall t, fst run <> Throw t)
       /\ snd run = mkState (plugins st) (console st ++ new)
       /\ List.filter is_hook_call new
          = List.map (fun p => HookCall (name p) hookName args)
              (List.filter (has_handler hookName) values)
       /\ (forall plugin h,
             In plugin values -> handler_of plugin hookName = Some h ->
             In (HookCall (name plugin) hookName args) new
             /\ (forall s, h args = ReturnsPromise s ->
                   fst run = Ok tt -> settled s = true)
             /\ forall t, fails_with h args t ->
                  In (ConsoleWarn (warn_message plugin hookName) t) new
                  /\ forall onErr, onError_of plugin = Some onErr ->
                       In (OnErrorCall (name plugin) t (hook_context hookName)) new
                       /\ (forall t', onErr (onError_args t hookName) = Throws t' ->
                             In (ConsoleError (onError_message plugin) t') new)
                       /\ (forall s, onErr (onError_args t hookName) = ReturnsPromise s ->
                             fst run = Ok tt -> settled s = true))
       /\ ((forall plugin, In plugin values ->
              (forall h, handler_of plugin hookName = Some h ->
                 h args <> ReturnsPromise NeverSettles)
              /\ (forall onErr t, onError_of plugin = Some onErr ->
                    onErr (onError_args t hookName) <> ReturnsPromise NeverSettles))
           -> fst run = Ok tt).
Proof.
  cbv zeta. exists (arrival order (awaited hookName args (listPlugins st))).
  split; [apply arrival_perm|].
  change (sync_events hookName args (listPlugins st)
          ++ reactions (arrival order (awaited hookName args (listPlugins st))))
    with (printed order hookName args (listPlugins st)).
  split; [|split; [|split; [|split]]].
  - intros t. rewrite executeHook_run. simpl. now destruct (forallb _ _).
  - now rewrite executeHook_run.
  - apply printed_calls.
  - intros plugin h Hin Hh.
    assert (Hsync : forall e, In e (fst (sync_phase hookName args plugin)) ->
                    In e (printed order hookName args (listPlugins st)))
      by (intros e; now apply printed_sync).
    assert (Hpend : forall p, In p (snd (sync_phase hookName args plugin)) ->
                    In p (awaited hookName args (listPlugins st)))
      by (intros p; now apply awaited_sync).
    unfold sync_phase in Hsync, Hpend. rewrite Hh in Hsync, Hpend.
    split; [|split].
    + apply Hsync. destruct (h args); simpl; auto.
    + intros s Hs Hok. rewrite Hs in Hpend.
      apply (caught_settled plugin hookName).
      apply (awaited_settled order hookName args st); [exact Hok|].
      apply Hpend. simpl. auto.
    + intros t [Ht|Ht]; rewrite Ht in Hsync, Hpend; simpl in Hsync, Hpend.
      * split; [apply Hsync; simpl; auto|].
        intros onErr HonErr.
        destruct (forward_facts plugin hookName t onErr HonErr) as (Fc & Fe & Fp).
        split; [apply Hsync; simpl; auto|].
        split.
        -- intros t' Ht'. apply Hsync. simpl. auto.
        -- intros s Hs Hok. rewrite (Fp s Hs) in Hpend.
           apply (awaited_settled order hookName args st _ Hok (Hpend (Bare s) (or_introl eq_refl))).
      * pose proof (Hpend _ (or_introl eq_refl)) as Haw.
        assert (Hasync : forall e,
                  In e (fst (reaction (Caught plugin hookName (Rejects t)))) ->
                  In e (printed order hookName args (listPlugins st)))
          by (intros e; now apply printed_async).
        simpl in Hasync.
        split; [apply Hasync; simpl; auto|].
        intros onErr HonErr.
        destruct (forward_facts plugin hookName t onErr HonErr) as (Fc & Fe & Fp).
        split; [apply Hasync; simpl; auto|].
        split.
        -- intros t' Ht'. apply Hasync. simpl. auto.
        -- intros s Hs Hok.
           pose proof (awaited_settled order hookName args st _ Hok Haw) as Hset.
           simpl in Hset. now rewrite (Fp s Hs) in Hset.
  - intros Hall. rewrite executeHook_run. simpl.
    assert (F : forallb (fun p => settled (snd (reaction p)))
                  (awaited hookName args (listPlugins st)) = true);
      [|now rewrite F].
    apply forallb_forall. intros p Hp.
    unfold awaited in Hp. apply in_flat_map in Hp as (plugin & Hin & Hp).
    destruct (Hall plugin Hin) as [Hh HonErr].
    assert (Hfwd : forall t s, snd (forward plugin hookName t) = Some s ->
                   settled s = true).
    { intros t s. unfold forward.
      destruct (onError_of plugin) as [onErr|] eqn:Eo; [|discriminate].
      specialize (HonErr onErr t eq_refl).
      destruct (onErr (onError_args t hookName)) as [|t'|s'];
        simpl; try discriminate.
      intros [= <-]. destruct s'; try reflexivity; congruence. }
    unfold sync_phase in Hp.
    destruct (handler_of plugin hookName) as [h|]; [|destruct Hp].
    specialize (Hh h eq_refl).
    destruct (h args) as [|t|s]; simpl in Hp.
    + destruct Hp.
    + destruct (snd (forward plugin hookName t)) as [s|] eqn:Ef; [|destruct Hp].
      destruct Hp as [<-|[]]. simpl. exact (Hfwd t s Ef).
    + destruct Hp as [<-|[]].
      destruct s as [|err|]; simpl; [reflexivity| |congruence].
      destruct (snd (forward plugin hookName err)) as [s|] eqn:Ef;
        [exact (Hfwd err s Ef) | reflexivity].
Qed.

(** C2 as stated fails for an [onError] that fails through a rejected
    promise: the rejection is swallowed by the join but nothing is logged
    for it, on the path of a thrown failure ([sync]) as on the path of a
    rejected one ([async]). *)
Lemma rejected_onError_not_logged :
  let boom := ErrorObj (plain_error "boom") in
  let worse := ErrorObj (plain_error "worse") in
  let onErr : handler := fun _ => ReturnsPromise (Rejects worse) in
  let sync := mkPlugin (VStr "sync") (VStr "1.0.0") None
                (Some (mkHooks (Some (fun _ => Throws boom)) None None None (Some onErr))) in
  let async := mkPlugin (VStr "async") (VStr "1.0.0") None
                 (Some (mkHooks (Some (fun _ => ReturnsPromise (Rejects boom)))
                          None None None (Some onErr))) in
  let st := mkState [(VStr "sync", sync); (VStr "async", async)] [] in
  let run := executeHook in_order HBeforeGenerate [] st in
  fst run = Ok tt
  /\ In (OnErrorCall (VStr "sync") boom "hook:beforeGenerate") (console (snd run))
  /\ In (OnErrorCall (VStr "async") boom "hook:beforeGenerate") (console (snd run))
  /\ List.filter is_console_error (console (snd run)) = [].
Proof.
  cbv zeta. split; [reflexivity|]. split; [|split].
  - vm_compute. auto.
  - vm_compute. auto 10.
  - reflexivity.
Qed.

(** The reactions follow the promises, not the registry: when the promise
    of the second plugin rejects before that of the first, its warning
    comes first, after the calls of both handlers. *)
Lemma later_plugin_rejects_first :
  let slow := ErrorObj (plain_error "slow") in
  let fast := ErrorObj (plain_error "fast") in
  let first := mkPlugin (VStr "first") (VStr "1.0.0") None
                 (Some (mkHooks (Some (fun _ => ReturnsPromise (Rejects slow)))
                          None None None None)) in
  let second := mkPlugin (VStr "second") (VStr "1.0.0") None
                  (Some (mkHooks (Some (fun _ => ReturnsPromise (Rejects fast)))
                           None None None None)) in
  let st := mkState [(VStr "first", first); (VStr "second", second)] [] in
  console (snd (executeHook last_first HBeforeGenerate [] st))
  = [HookCall (VStr "first") HBeforeGenerate [];
     HookCall (VStr "second") HBeforeGenerate [];
     ConsoleWarn (warn_message second HBeforeGenerate) fast;
     ConsoleWarn (warn_message first HBeforeGenerate) slow]
  /\ console (snd (executeHook in_order HBeforeGenerate [] st))
     = [HookCall (VStr "first") HBeforeGenerate [];
        HookCall (VStr "second") HBeforeGenerate [];
        ConsoleWarn (warn_message first HBeforeGenerate) slow;
        ConsoleWarn (warn_message second HBeforeGenerate) fast].
Proof. cbv zeta. split; reflexivity. Qed.

End ExecuteHookFacts.

(** ** The console presenter *)

Module PresenterFacts.
Import Regex Themes UIManager ValidationManager Run PresenterSpec.

Lemma hex_input_hash (color : string) :
  exists rest, hex_input color = String "#" rest.
Proof.
  unfold hex_input, startsWith.
  destruct (String.prefix "#" color) eqn:E; [|now exists color].
  apply String.prefix_correct in E.
  destruct color as [|c rest]; simpl in E; [discriminate|].
  injection E as -> _. now exists rest.
Qed.

Lemma matches_Seq_Void (r : regex) (s : string) : matches (Seq Void r) s = false.
Proof. induction s as [|c s IH]; simpl; [reflexivity | exact IH]. Qed.

(** No string that starts with [#] passes the test of the digits. *)
Lemma hexRegex_hash (rest : string) : matches hexRegex (String "#" rest) = false.
Proof. simpl. apply matches_Seq_Void. Qed.

(** The error [hex] throws for [color]. *)
Lemma hex_run (color txt : string) :
  hex color txt = Throw (ErrorObj (hex_error color)).
Proof.
  unfold hex, verifyHexValidity, hex_error.
  destruct (hex_input_hash color) as [rest ->].
  rewrite hexRegex_hash.
  destruct (Nat.eqb (String.length (String "#" rest)) 3);
    destruct (Nat.eqb (String.length (String "#" rest)) 6); reflexivity.
Qed.

(** X7: [hex] never returns a styled text: for every colour, with or
    without the leading [#], and every text it throws an [Error], because
    the string it validates still starts with [#]: "invalid characters"
    when that string has 3 or 6 code units, "length is not valid"
    otherwise. So it is for the six-digit colour [#112233]. *)
Theorem hex_always_throws (color txt : string) :
  hex color txt = Throw (ErrorObj (hex_error color))
  /\ e_class (hex_error color) = PlainError
  /\ (forall styled, hex color txt <> Ok styled)
  /\ hex "#112233" txt
     = Throw (ErrorObj (plain_error
         "The hexadecimal length is not valid. The length is of 7")).
Proof.
  split; [apply hex_run|]. split; [reflexivity|]. split.
  - intros styled. rewrite hex_run. discriminate.
  - rewrite hex_run. reflexivity.
Qed.

Lemma show_run (color txt : string) (st : state) :
  (s <- styled color txt ;; console_log (bold s)) st
  = (Throw (ErrorObj (hex_error color)), st).
Proof. unfold bind, styled. now rewrite hex_run. Qed.

Lemma showError_run (this : UITheme.t) (message : string) (st : state) :
  showError this message st
  = (Throw (ErrorObj (hex_error (UITheme.error this))), st).
Proof. apply show_run. Qed.

Lemma showWelcome_run toUpperCase (this : UITheme.t) (appName : string)
    (options : option ShowWelcomeOptions) (st : state) :
  showWelcome toUpperCase this appName options st
  = (Throw (ErrorObj (hex_error (UITheme.primary this))), cleared st).
Proof.
  unfold showWelcome. unfold bind at 1. unfold clearConsole, modify.
  apply show_run.
Qed.

(** X8: no method of the presenter prints its message: [showSuccess],
    [showError], [showWarning] and [showInfo] throw the [Error] of [hex]
    for their colour of the theme and leave the console untouched;
    [showWelcome] clears the screen and throws likewise. This holds for
    the default theme and for every custom one. *)
Theorem presenter_always_throws (theme : option UITheme.t) (message : string)
    (st : state) :
  showSuccess (UIManager.new theme) message st
  = (Throw (ErrorObj (hex_error (UITheme.success (UIManager.new theme)))), st)
  /\ showError (UIManager.new theme) message st
     = (Throw (ErrorObj (hex_error (UITheme.error (UIManager.new theme)))), st)
  /\ showWarning (UIManager.new theme) message st
     = (Throw (ErrorObj (hex_error (UITheme.warning (UIManager.new theme)))), st)
  /\ showInfo (UIManager.new theme) message st
     = (Throw (ErrorObj (hex_error (UITheme.info (UIManager.new theme)))), st)
  /\ (forall toUpperCase options,
        showWelcome toUpperCase (UIManager.new theme) message options st
        = (Throw (ErrorObj (hex_error (UITheme.primary (UIManager.new theme)))),
           cleared st)).
Proof.
  repeat split; try apply show_run. intros. apply showWelcome_run.
Qed.

(** X9: [run] never gets past the welcome banner. Whatever the
    configuration, the arguments and the collaborators, it clears the
    screen, [showWelcome] throws, the [catch] calls [showError], which
    throws in turn, and the call rejects with that [Error]: the readline
    mode is not set, no answer is collected, no project is generated,
    nothing is logged, and [process.exit] is not reached. *)
Theorem run_always_rejects toUpperCase (R : Type)
    (setMode : CLIBuilder.ReadlineMode -> M (world R) unit)
    (collectAnswers : option string -> CLIBuilder.Options -> M (world R) dict)
    (generateProject : dict -> M (world R) unit)
    (describe : thrown -> string) (white gray : string -> string)
    (config : CLIConfig) (projectName : option string)
    (options : CLIBuilder.Options) (w : world R) :
  run toUpperCase R setMode collectAnswers generateProject describe white gray
    config projectName options w
  = (Throw (ErrorObj (hex_error (UITheme.error (UIManager.new (theme config))))),
     (cleared (fst w), snd w)).
Proof.
  unfold run, try_catch. unfold bind at 1. unfold ui at 1 2.
  rewrite showWelcome_run. simpl.
  unfold bind, ui. simpl. now rewrite showError_run.
Qed.

End PresenterFacts.

(** ** The prompt engine *)

Module PromptFacts.
Import EffectFacts Str CLIBuilder PromptSpec PresenterSpec PresenterFacts.

(** *** What the handlers write on the terminal *)

Lemma emits_ret {A} P (a : A) : emits P (ret a).
Proof. intros st. exists []. simpl. now rewrite app_nil_r. Qed.

Lemma emits_throw {A} P t : emits P (@throw state A t).
Proof. intros st. exists []. simpl. now rewrite app_nil_r. Qed.

Lemma emits_block {A} P : emits P (@block state A).
Proof. intros st. exists []. simpl. now rewrite app_nil_r. Qed.

Lemma emits_bind {A B} P (m : M state A) (k : A -> M state B) :
  emits P m -> (forall a, emits P (k a)) -> emits P (bind m k).
Proof.
  intros Hm Hk st. destruct (Hm st) as (evs1 & E1 & F1). unfold bind.
  destruct (m st) as [[a|t|] st1]; simpl in *; [|now exists evs1..].
  destruct (Hk a st1) as (evs2 & E2 & F2).
  exists (evs1 ++ evs2). rewrite E2, E1, app_assoc.
  split; [reflexivity | now apply Forall_app].
Qed.

Lemma emits_emit P (e : event) : P e -> emits P (emit e).
Proof. intros He st. exists [e]. simpl. auto. Qed.

Lemma emits_question P who (q : string) :
  P (Question who q) -> emits P (question who q).
Proof.
  intros He st. exists [Question who q]. unfold question.
  destruct (input st); simpl; auto.
Qed.

Lemma emits_setMode P m : emits P (setMode m).
Proof. intros st. exists []. simpl. now rewrite app_nil_r. Qed.

(** A call of the presenter in one equation. *)
Lemma presenter_run (call : event)
    (method : UIManager.UITheme.t -> M UIManager.state unit) (st : state) :
  presenter call method st
  = (fst (method (uiManager st) []),
     mkState (input st)
       (terminal st ++ call :: List.map Presenter (snd (method (uiManager st) [])))
       (mode st) (uiManager st)).
Proof.
  unfold presenter, bind, emit, modify. simpl.
  destruct (method (uiManager st) []) as [r out]. simpl.
  now rewrite <- app_assoc.
Qed.

Lemma emits_presenter P (call : event)
    (method : UIManager.UITheme.t -> M UIManager.state unit) :
  P call -> (forall e, P (Presenter e)) -> emits P (presenter call method).
Proof.
  intros Hcall Hout st. rewrite presenter_run. simpl.
  eexists. split; [reflexivity|]. constructor; [exact Hcall|].
  apply List.Forall_forall. intros e He. apply in_map_iff in He as (x & <- & _).
  apply Hout.
Qed.

Lemma presenter_input (call : event)
    (method : UIManager.UITheme.t -> M UIManager.state unit)
    (st st' : state) (r : result unit) :
  presenter call method st = (r, st') -> input st' = input st.
Proof. rewrite presenter_run. now intros [= _ <-]. Qed.

(** [showInfo] and [showError] record the call and throw the [Error] of
    [hex] for their colour of the theme. *)
Lemma showInfo_run (message : string) (st : state) :
  showInfo message st
  = (Throw (ErrorObj (hex_error (UIManager.UITheme.info (uiManager st)))),
     mkState (input st) (terminal st ++ [ShowInfo message]) (mode st)
       (uiManager st)).
Proof.
  unfold showInfo. rewrite presenter_run.
  unfold UIManager.showInfo. now rewrite show_run.
Qed.

Lemma showError_throws (message : string) (st : state) :
  showError message st
  = (Throw (ErrorObj (hex_error (UIManager.UITheme.error (uiManager st)))),
     mkState (input st) (terminal st ++ [ShowError message]) (mode st)
       (uiManager st)).
Proof.
  unfold showError. rewrite presenter_run.
  unfold UIManager.showError. now rewrite show_run.
Qed.

Lemma emits_for_each {A} P (l : list A) (body : A -> M state unit) :
  (forall x, emits P (body x)) -> emits P (for_each l body).
Proof.
  intros Hb. induction l as [|x l IH]; simpl.
  - apply emits_ret.
  - apply emits_bind; [apply Hb | intros _; exact IH].
Qed.

Lemma emits_weaken {A} (P Q : event -> Prop) (m : M state A) :
  (forall e, P e -> Q e) -> emits P m -> emits Q m.
Proof.
  intros PQ Hm st. destruct (Hm st) as (evs & E & F).
  exists evs. split; [exact E|]. eapply Forall_impl; eauto.
Qed.

Section Handlers.
Variable P : event -> Prop.
Variable prompt : PromptConfig.
Hypothesis Hquestion : forall q, P (Question (Some (name prompt)) q).
Hypothesis Hinfo : forall s, P (ShowInfo s).
Hypothesis Herror : forall s, P (ShowError s).
Hypothesis Hpresenter : forall e, P (Presenter e).

Lemma emits_showInfo s : emits P (showInfo s).
Proof. now apply emits_presenter. Qed.

Lemma emits_showError s : emits P (showError s).
Proof. now apply emits_presenter. Qed.
Hypothesis Hlog : forall s, P (ConsoleLog s).
Hypothesis Hanswers : forall a, P (ConsoleLogAnswers a).

Lemma emits_print_choices cs : emits P (print_choices cs).
Proof.
  unfold print_choices. apply emits_for_each. intros x. now apply emits_emit.
Qed.

Lemma emits_input_round answers (again : M state value) :
  emits P again -> emits P (input_round prompt answers again).
Proof.
  intros Hagain. unfold input_round.
  apply emits_bind; [now apply emits_question|]. intros line.
  destruct (validate prompt) as [rule|]; [|apply emits_ret].
  destruct (ValidationRule.validate rule _ answers); [apply emits_ret | |];
    (apply emits_bind; [apply emits_showError | intros _; exact Hagain]).
Qed.

Lemma emits_input_rounds answers fuel : emits P (input_rounds prompt answers fuel).
Proof.
  induction fuel as [|fuel IH]; simpl; apply emits_input_round;
    [apply emits_block | exact IH].
Qed.

Lemma emits_select_round cs (again : M state value) :
  emits P again -> emits P (select_round prompt cs again).
Proof.
  intros Hagain. unfold select_round.
  apply emits_bind; [now apply emits_question|]. intros answer.
  destruct (match parse_index answer with Some _ => _ | None => _ end);
    [apply emits_ret|].
  apply emits_bind; [apply emits_showError | intros _; exact Hagain].
Qed.

Lemma emits_select_rounds cs fuel : emits P (select_rounds prompt cs fuel).
Proof.
  induction fuel as [|fuel IH]; simpl; apply emits_select_round;
    [apply emits_block | exact IH].
Qed.

Lemma emits_processPrompt answers : emits P (processPrompt prompt answers).
Proof.
  unfold processPrompt. destruct (type prompt).
  - intros st. exact (emits_input_rounds answers _ st).
  - unfold handleSelectPrompt. destruct (choices prompt) as [cs|];
      [|apply emits_throw].
    apply emits_bind; [apply emits_showInfo | intros _].
    apply emits_bind; [apply emits_print_choices | intros _].
    intros st. exact (emits_select_rounds cs _ st).
  - apply emits_bind; [|intros b; apply emits_ret].
    unfold handleConfirmPrompt.
    apply emits_bind; [now apply emits_question | intros answer].
    apply emits_bind; [now apply emits_emit | intros _].
    apply emits_bind; [|intros _; apply emits_ret].
    destruct (_ && _); apply emits_ret.
  - apply emits_bind; [|intros l; apply emits_ret].
    unfold handleMultiSelectPrompt. destruct (choices prompt) as [cs|];
      [|apply emits_throw].
    apply emits_bind; [apply emits_showInfo | intros _].
    apply emits_bind; [apply emits_print_choices | intros _].
    apply emits_bind; [now apply emits_question | intros answer].
    apply emits_ret.
Qed.

End Handlers.

(** The questions a prompt's handler asks are asked for that prompt. *)
Lemma processPrompt_asks (prompt : PromptConfig) (answers : dict) :
  emits (asked_by (Some (name prompt))) (processPrompt prompt answers).
Proof.
  apply emits_processPrompt; unfold asked_by; intros; congruence.
Qed.

(** *** The loops never run out of rounds *)

Lemma question_shortens who (q : string) (st st' : state) (line : string) :
  question who q st = (Ok line, st') ->
  S (List.length (input st')) = List.length (input st).
Proof.
  unfold question. destruct (input st) as [|l rest] eqn:E; [discriminate|].
  intros [= <- <-]. reflexivity.
Qed.

Lemma emit_input (e : event) (st st' : state) (u : unit) :
  emit e st = (Ok u, st') -> input st' = input st.
Proof. unfold emit, modify. now intros [= _ <-]. Qed.

Lemma input_round_ext (prompt : PromptConfig) (answers : dict)
    (again again' : M state value) (st : state) :
  (forall st', S (List.length (input st')) = List.length (input st) ->
               again st' = again' st') ->
  input_round prompt answers again st = input_round prompt answers again' st.
Proof.
  intros Hagain. unfold input_round.
  apply bind_ext_run. intros line st1 Eq. apply question_shortens in Eq.
  destruct (validate prompt) as [rule|]; [|reflexivity].
  destruct (ValidationRule.validate rule _ answers); [reflexivity| |];
    (apply bind_ext_run; intros u st2 Ee; apply presenter_input in Ee;
     apply Hagain; now rewrite Ee).
Qed.

Lemma input_rounds_fuel (prompt : PromptConfig) (answers : dict) :
  forall fuel st, List.length (input st) <= fuel ->
  input_rounds prompt answers fuel st
  = input_rounds prompt answers (List.length (input st)) st.
Proof.
  induction fuel as [|fuel IH]; intros st Hlen.
  - now replace (List.length (input st)) with 0 by lia.
  - destruct (List.length (input st)) as [|n] eqn:En.
    + simpl. apply input_round_ext. intros st' E. lia.
    + simpl. apply input_round_ext. intros st' E.
      assert (n = List.length (input st')) as -> by lia.
      apply IH. lia.
Qed.

Lemma select_round_ext (prompt : PromptConfig) (cs : list Choice.t)
    (again again' : M state value) (st : state) :
  (forall st', S (List.length (input st')) = List.length (input st) ->
               again st' = again' st') ->
  select_round prompt cs again st = select_round prompt cs again' st.
Proof.
  intros Hagain. unfold select_round.
  apply bind_ext_run. intros answer st1 Eq. apply question_shortens in Eq.
  destruct (match parse_index answer with Some _ => _ | None => _ end);
    [reflexivity|].
  apply bind_ext_run; intros u st2 Ee; apply presenter_input in Ee.
  apply Hagain; now rewrite Ee.
Qed.

Lemma select_rounds_fuel (prompt : PromptConfig) (cs : list Choice.t) :
  forall fuel st, List.length (input st) <= fuel ->
  select_rounds prompt cs fuel st
  = select_rounds prompt cs (List.length (input st)) st.
Proof.
  induction fuel as [|fuel IH]; intros st Hlen.
  - now replace (List.length (input st)) with 0 by lia.
  - destruct (List.length (input st)) as [|n] eqn:En.
    + simpl. apply select_round_ext. intros st' E. lia.
    + simpl. apply select_round_ext. intros st' E.
      assert (n = List.length (input st')) as -> by lia.
      apply IH. lia.
Qed.
(** *** Answered prompts *)

Lemma get_set_ne (answers : dict) (k n : string) (v : value) :
  k <> n -> get (set answers k v) n = get answers n.
Proof. intros Hne. unfold get, set. now rewrite lookup_insert_ne. Qed.

Lemma defined_distinct (answers : dict) (k n : string) :
  defined (get answers n) = true -> defined (get answers k) = false -> k <> n.
Proof. intros Hn Hk ->. congruence. Qed.

Lemma prompt_loop_skip_answered (prompt : PromptConfig) rest (answers : dict) :
  defined (get answers (name prompt)) = true ->
  prompt_loop (prompt :: rest) answers = prompt_loop rest answers.
Proof. intros Hd. simpl. rewrite Hd. now destruct (when prompt) as [w|]; [destruct (negb _)|]. Qed.

Lemma prompt_loop_skip_hidden (prompt : PromptConfig) rest (answers : dict) w :
  when prompt = Some w -> w answers = false ->
  prompt_loop (prompt :: rest) answers = prompt_loop rest answers.
Proof. intros Hw Hf. simpl. now rewrite Hw, Hf. Qed.

(** One turn of the loop that does ask. *)
Lemma prompt_loop_ask (prompt : PromptConfig) rest (answers : dict) (st : state) :
  hidden prompt answers = false ->
  defined (get answers (name prompt)) = false ->
  prompt_loop (prompt :: rest) answers st
  = match processPrompt prompt answers st with
    | (Ok answer, st') =>
        prompt_loop rest (set answers (name prompt) (stored prompt answer)) st'
    | (Throw t, st') => (Throw t, st')
    | (Blocked, st') => (Blocked, st')
    end.
Proof.
  unfold hidden. intros Hh Hd. simpl. rewrite Hh, Hd. reflexivity.
Qed.

Lemma prompt_loop_cases (prompt : PromptConfig) rest (answers : dict) :
  (hidden prompt answers || defined (get answers (name prompt)) = true
   /\ prompt_loop (prompt :: rest) answers = prompt_loop rest answers)
  \/ (hidden prompt answers = false
      /\ defined (get answers (name prompt)) = false).
Proof.
  destruct (hidden prompt answers) eqn:Hh.
  - left. split; [reflexivity|]. unfold hidden in Hh. simpl. now rewrite Hh.
  - destruct (defined (get answers (name prompt))) eqn:Hd.
    + left. split; [reflexivity|]. now apply prompt_loop_skip_answered.
    + right. auto.
Qed.

Lemma asked_by_other (n k : string) (e : event) :
  k <> n -> asked_by (Some k) e -> not_asked n e.
Proof.
  intros Hne Ha q ->. specialize (Ha _ _ eq_refl). congruence.
Qed.

Lemma prompt_loop_not_asked (n : string) (ps : list PromptConfig) :
  forall answers, defined (get answers n) = true ->
  emits (not_asked n) (prompt_loop ps answers).
Proof.
  induction ps as [|prompt rest IH]; intros answers Hn.
  - apply emits_ret.
  - destruct (prompt_loop_cases prompt rest answers) as [[_ ->]|[Hh Hd]];
      [now apply IH|].
    pose proof (defined_distinct _ _ _ Hn Hd) as Hne.
    intros st. rewrite prompt_loop_ask by assumption.
    change (exists evs,
      terminal (snd (bind (processPrompt prompt answers)
        (fun answer => prompt_loop rest
           (set answers (name prompt) (stored prompt answer))) st))
      = terminal st ++ evs /\ Forall (not_asked n) evs).
    apply emits_bind.
    + eapply emits_weaken; [|apply processPrompt_asks].
      intros e. now apply asked_by_other.
    + intros answer. apply IH. now rewrite get_set_ne.
Qed.

Lemma prompt_loop_keeps (n : string) (ps : list PromptConfig) :
  forall answers st out, defined (get answers n) = true ->
  fst (prompt_loop ps answers st) = Ok out -> out !! n = answers !! n.
Proof.
  induction ps as [|prompt rest IH]; intros answers st out Hn Hout.
  - simpl in Hout. now injection Hout as <-.
  - destruct (prompt_loop_cases prompt rest answers) as [[_ E]|[Hh Hd]].
    + rewrite E in Hout. now apply (IH answers st).
    + pose proof (defined_distinct _ _ _ Hn Hd) as Hne.
      rewrite prompt_loop_ask in Hout by assumption.
      destruct (processPrompt prompt answers st) as [[answer|t|] st1];
        try discriminate.
      apply IH in Hout; [|now rewrite get_set_ne].
      rewrite Hout. unfold set. now rewrite lookup_insert_ne.
Qed.

Lemma fill_loop_keeps (n : string) (ps : list PromptConfig) :
  forall result, defined (get result n) = true ->
  fill_loop ps result !! n = result !! n.
Proof.
  induction ps as [|prompt rest IH]; intros result Hn; simpl; [reflexivity|].
  destruct (defined (get result (name prompt))) eqn:Hd; simpl.
  - now apply IH.
  - destruct (defined (default prompt)); [|now apply IH].
    pose proof (defined_distinct _ _ _ Hn Hd) as Hne.
    rewrite IH by now rewrite get_set_ne.
    unfold set. now rewrite lookup_insert_ne.
Qed.

Lemma askForReadlineMode_asks (n : string) : emits (not_asked n) askForReadlineMode.
Proof.
  unfold askForReadlineMode.
  apply emits_bind;
    [apply emits_presenter; intros; intros q; discriminate | intros _].
  repeat (apply emits_bind; [apply emits_emit; intros q; discriminate | intros _]).
  apply emits_bind; [apply emits_question; intros q; discriminate|].
  intros choice. apply emits_ret.
Qed.

(** An answer given on the command line is a defined value, so for the
    seed being a key and having an answer are the same. *)
Lemma seed_key_defined projectName options (n : string) (v : value) :
  seed projectName options !! n = Some v -> defined v = true.
Proof.
  unfold seed, set.
  destruct projectName as [pn|]; [destruct (truthy (VStr pn))|];
    (destruct (opt_template options) as [t|]; [destruct (truthy (VStr t))|]);
    intros Hv;
    repeat (apply lookup_insert_Some in Hv as [[_ <-]|[_ Hv]]; [reflexivity|]);
    now rewrite lookup_empty in Hv.
Qed.

(** C6: a prompt whose name already has an answer is skipped by the loop:
    no question is asked for that name and the answer is kept, whether the
    answer was accumulated by the loop or given on the command line, in
    the interactive mode and when the defaults are filled in. *)
Theorem answered_prompt_is_skipped (n : string) (answers : dict) :
  defined (get answers n) = true ->
  (forall prompt rest,
     name prompt = n ->
     prompt_loop (prompt :: rest) answers = prompt_loop rest answers)
  /\ (forall ps st,
        (exists evs,
           terminal (snd (prompt_loop ps answers st)) = terminal st ++ evs
           /\ Forall (not_asked n) evs)
        /\ forall out,
             fst (prompt_loop ps answers st) = Ok out -> out !! n = answers !! n)
  /\ (forall config projectName options st,
        answers = seed projectName options ->
        (exists evs,
           terminal (snd (collectAnswers config projectName options st))
           = terminal st ++ evs
           /\ Forall (not_asked n) evs)
        /\ forall out,
             fst (collectAnswers config projectName options st) = Ok out ->
             out !! n = answers !! n).
Proof.
  intros Hn. split; [|split].
  - intros prompt rest <-. now apply prompt_loop_skip_answered.
  - intros ps st. split.
    + now apply prompt_loop_not_asked.
    + intros out. now apply prompt_loop_keeps.
  - intros config projectName options st ->. unfold collectAnswers.
    destruct (opt_yes options).
    + split.
      * exists []. simpl. now rewrite app_nil_r.
      * intros out [= <-]. now apply fill_loop_keeps.
    + set (m := when_ _ _).
      assert (Hm : emits (not_asked n) m).
      { unfold m, when_. destruct (_ && _); [|apply emits_ret].
        apply emits_bind; [apply askForReadlineMode_asks|].
        intros md. apply emits_setMode. }
      split.
      * apply emits_bind; [exact Hm|]. intros _. now apply prompt_loop_not_asked.
      * intros out. unfold bind. destruct (m st) as [[[]|t|] st1];
          try discriminate.
        now apply prompt_loop_keeps.
Qed.

Lemma answered_prompt_is_skipped_witness :
  let p := mkPrompt "projectName" TInput "Project name" VUndefined
             None None None None in
  let answers := seed (Some "my-app") (mkOptions None false false false) in
  let st := mkState ["typed"] [] ModeAsync (UIManager.new None) in
  prompt_loop [p] answers st = (Ok answers, st).
Proof.
  cbv zeta.
  destruct (answered_prompt_is_skipped "projectName"
              (seed (Some "my-app") (mkOptions None false false false)))
    as [Hskip _]; [reflexivity|].
  rewrite Hskip; reflexivity.
Defined.

(** *** Hidden prompts *)

Lemma prompt_loop_hidden_key (n : string) (ps : list PromptConfig) :
  forall answers st out st',
  prompt_loop ps answers st = (Ok out, st') ->
  answers !! n = None ->
  (forall p a, In (p, a) (turns ps answers st) -> name p = n ->
               exists w, when p = Some w /\ w a = false) ->
  out !! n = None.
Proof.
  induction ps as [|prompt rest IH]; intros answers st out st' Hrun Hn Hturns.
  - simpl in Hrun. now injection Hrun as <- _.
  - simpl in Hturns.
    destruct (prompt_loop_cases prompt rest answers) as [[Hc E]|[Hh Hd]].
    + rewrite E in Hrun. rewrite Hc in Hturns.
      apply (IH answers st out st' Hrun Hn). intros p a Hin. apply Hturns. now right.
    + rewrite Hh, Hd in Hturns. simpl in Hturns.
      assert (Hne : name prompt <> n).
      { intros Hname.
        destruct (Hturns prompt answers (or_introl eq_refl) Hname) as (w & Hw & Hf).
        unfold hidden in Hh. rewrite Hw, Hf in Hh. discriminate. }
      rewrite prompt_loop_ask in Hrun by assumption.
      destruct (processPrompt prompt answers st) as [[answer|t|] st1];
        try discriminate.
      apply (IH _ st1 out st' Hrun).
      * unfold set. now rewrite lookup_insert_ne.
      * intros p a Hin. apply Hturns. now right.
Qed.

Lemma fill_loop_defaults (ps : list PromptConfig) :
  forall result prompt,
  In prompt ps -> defined (default prompt) = true ->
  defined (get (fill_loop ps result) (name prompt)) = true.
Proof.
  assert (Hkeep : forall ps result n, defined (get result n) = true ->
                  defined (get (fill_loop ps result) n) = true).
  { intros ps' result n Hn. unfold get. rewrite fill_loop_keeps by exact Hn.
    exact Hn. }
  induction ps as [|p rest IH]; intros result prompt Hin Hdef; [destruct Hin|].
  simpl. destruct Hin as [->|Hin].
  - destruct (defined (get result (name prompt))) eqn:Hd; simpl.
    + now apply Hkeep.
    + rewrite Hdef. apply Hkeep. unfold get, set. now rewrite lookup_insert_eq.
  - destruct (negb _ && _); now apply IH.
Qed.

(** C4 (as amended): in the interactive mode a prompt whose [when] is false
    on the answers accumulated so far is passed over without any effect,
    so a name that has no answer at the start, and whose prompts are all
    hidden when their turn comes, is not a key of the result. When the
    defaults are filled in ([--yes]) [when] is not consulted: every prompt
    with a default gets an answer. *)
Theorem hidden_prompt_not_answered (n : string) (ps : list PromptConfig)
    (answers : dict) (st : state) :
  (forall prompt rest w,
     when prompt = Some w -> w answers = false ->
     prompt_loop (prompt :: rest) answers st = prompt_loop rest answers st)
  /\ (forall out st',
        prompt_loop ps answers st = (Ok out, st') ->
        answers !! n = None ->
        (forall p a, In (p, a) (turns ps answers st) -> name p = n ->
                     exists w, when p = Some w /\ w a = false) ->
        out !! n = None)
  /\ (forall config projectName options,
        opt_yes options = true ->
        collectAnswers config projectName options st
        = (Ok (fillDefaults config (seed projectName options)), st)
        /\ forall prompt,
             In prompt (prompts config) -> defined (default prompt) = true ->
             defined (get (fillDefaults config (seed projectName options))
                        (name prompt)) = true).
Proof.
  split; [|split].
  - intros prompt rest w Hw Hf. now rewrite (prompt_loop_skip_hidden _ _ _ w).
  - apply prompt_loop_hidden_key.
  - intros config projectName options Hyes. unfold collectAnswers.
    rewrite Hyes. split; [reflexivity|].
    intros prompt. apply fill_loop_defaults.
Qed.

Lemma hidden_prompt_not_answered_witness :
  exists out st',
    prompt_loop [use_ts; ts_strict] ∅ (mkState ["n"; "y"] [] ModeAsync (UIManager.new None))
    = (Ok out, st')
    /\ out !! "useTs" = Some (VBool false)
    /\ out !! "tsStrict" = None.
Proof.
  do 2 eexists. split; [reflexivity|]. split; [reflexivity|].
  eapply (proj1 (proj2 (hidden_prompt_not_answered "tsStrict"
            [use_ts; ts_strict] ∅ (mkState ["n"; "y"] [] ModeAsync (UIManager.new None))))).
  - reflexivity.
  - reflexivity.
  - intros p a [E|[E|[]]] Hname; injection E as <- <-.
    + discriminate.
    + eexists. split; reflexivity.
Defined.

(** C4 as stated fails when the defaults are filled in: a prompt whose
    [when] is false for every answer set, and that has a default, is a key
    of the result. *)
Lemma hidden_prompt_filled_by_default :
  let hid := mkPrompt "tsStrict" TConfirm "Strict mode?" (VBool true) None None
               (Some (fun _ => false)) None in
  let run := collectAnswers (mkConfig [hid] false) None
               (mkOptions None true false false) (mkState [] [] ModeAsync (UIManager.new None)) in
  exists out, fst run = Ok out /\ out !! "tsStrict" = Some (VBool true).
Proof. cbv zeta. eexists. split; reflexivity. Qed.

(** *** Confirm prompts *)

Lemma affirmative_In (s : string) :
  affirmative s = true <-> In s affirmative_tokens.
Proof.
  unfold affirmative, affirmative_tokens. rewrite existsb_exists. split.
  - intros (x & Hin & E). apply String.eqb_eq in E. now subst.
  - intros Hin. exists s. split; [exact Hin | apply String.eqb_refl].
Qed.

(** C5 (as amended): a confirm prompt reads one line and answers true
    exactly when the lowercased line, as typed and not trimmed, is one of
    y, yes, true, 1; the empty line gives false whatever the default of
    the prompt is. *)
Theorem confirm_answer (prompt : PromptConfig) (answers : dict) (st : state)
    (line : string) (rest : list string) :
  input st = line :: rest ->
  exists b st',
    handleConfirmPrompt prompt answers st = (Ok b, st')
    /\ input st' = rest
    /\ (b = true <-> In (toLowerCase line) affirmative_tokens)
    /\ (line = "" -> b = false).
Proof.
  intros Hin. exists (affirmative (toLowerCase line)).
  unfold handleConfirmPrompt, bind, question, emit, modify, ret.
  rewrite Hin. simpl.
  destruct (negb _ && _); simpl; eexists;
    (split; [reflexivity|]; split; [reflexivity|];
     split; [apply affirmative_In | now intros ->]).
Qed.

Lemma confirm_answer_witness :
  let p := mkPrompt "ok" TConfirm "Proceed?" (VBool true) None None None None in
  exists b st',
    handleConfirmPrompt p ∅ (mkState ["Yes"; "next"] [] ModeAsync (UIManager.new None)) = (Ok b, st')
    /\ input st' = ["next"]
    /\ (b = true <-> In (toLowerCase "Yes") affirmative_tokens)
    /\ ("Yes" = "" -> b = false).
Proof.
  cbv zeta.
  apply (confirm_answer _ ∅ (mkState ["Yes"; "next"] [] ModeAsync (UIManager.new None)) "Yes" ["next"]).
  reflexivity.
Defined.

(** C5 as stated fails on an answer with a space around it: the line is
    not trimmed, so [" y"] gives false although its trimmed, lowercased
    form is [y]. *)
Lemma confirm_does_not_trim :
  let p := mkPrompt "ok" TConfirm "Proceed?" VUndefined None None None None in
  fst (handleConfirmPrompt p ∅ (mkState [" y"] [] ModeAsync (UIManager.new None))) = Ok false
  /\ In (toLowerCase (trim " y")) affirmative_tokens.
Proof. cbv zeta. split; [reflexivity | now left]. Qed.

(** *** Multiselect prompts *)

Lemma print_choices_run (cs : list Choice.t) (st : state) :
  exists evs, print_choices cs st
              = (Ok tt, mkState (input st) (terminal st ++ evs) (mode st) (uiManager st)).
Proof.
  unfold print_choices. generalize (imap (fun index choice => (index, choice)) cs).
  intros l. revert st. induction l as [|x l IH]; intros st; simpl.
  - exists []. destruct st. unfold ret. simpl. now rewrite app_nil_r.
  - unfold bind at 1. unfold emit at 1, modify. simpl.
    edestruct IH as (evs & ->). simpl. eexists. rewrite <- app_assoc. reflexivity.
Qed.

Lemma pick_in_range (cs : list Choice.t) (k : Z) :
  (if in_range cs (k - 1) then [choice_value cs (k - 1)] else []) = pick cs k.
Proof.
  unfold in_range, pick, choice_value.
  destruct (Z.leb_spec 0 (k - 1)), (Z.leb_spec 1 k); try lia; simpl; [|reflexivity].
  destruct (Z.ltb_spec (k - 1) (Z.of_nat (List.length cs))),
           (Z.leb_spec k (Z.of_nat (List.length cs))); try lia; [|reflexivity].
  replace (Z.to_nat (k - 1)) with (Z.to_nat k - 1)%nat by lia.
  destruct (nth_error cs (Z.to_nat k - 1)) eqn:E; [reflexivity|].
  apply nth_error_None in E. lia.
Qed.

(** The filter-then-map of the source computes the answer of the
    specification. *)
Lemma multiselect_refines (cs : list Choice.t) (tokens : list string) :
  List.map (fun index => choice_value_at cs index)
    (List.filter (fun index => match index with
                               | Some i => in_range cs i
                               | None => false
                               end)
       (List.map (fun s => parse_index (trim s)) tokens))
  = flat_map (fun token => match parseInt (trim token) with
                           | Some k => pick cs k
                           | None => []
                           end) tokens.
Proof.
  induction tokens as [|tok tokens IH]; simpl; [reflexivity|].
  rewrite <- IH.
  assert (E : parse_index (trim tok)
              = match parseInt (trim tok) with
                | Some n => Some (n - 1)%Z
                | None => None
                end) by reflexivity.
  rewrite E. clear E IH.
  destruct (parseInt (trim tok)) as [k|]; [|reflexivity].
  rewrite <- pick_in_range. destruct (in_range cs (k - 1)); reflexivity.
Qed.

(** C7: the answer of a multiselect prompt is never computed. With
    choices, the handler calls [showInfo] first, which throws the
    [Error] of [hex] for the colour of the theme: no choice is printed,
    no question is asked, no line is read, and the call rejects, for
    every theme, the default one included. The statements after the
    call do compute the answer of the specification from a line: the
    values of the choices whose 1-based numbers were typed, in the order
    typed, repeated if typed again, numbers out of 1..choiceCount
    dropped. So with three choices and the line [2,5,1] the answer
    would be the second value and then the first, and the call throws
    instead. *)
Theorem multiselect_throws_before_reading (prompt : PromptConfig)
    (answers : dict) (st : state) :
  handleMultiSelectPrompt prompt answers st
  = match choices prompt with
    | Some _ =>
        (Throw (ErrorObj (hex_error (UIManager.UITheme.info (uiManager st)))),
         mkState (input st)
           (terminal st
            ++ [ShowInfo (message prompt +:+ " (comma-separated numbers)")])
           (mode st) (uiManager st))
    | None =>
        (Throw (ErrorObj (plain_error "MultiSelect prompt requires choices")), st)
    end
  /\ (forall l st', handleMultiSelectPrompt prompt answers st <> (Ok l, st'))
  /\ (forall cs line,
        List.map (fun index => choice_value_at cs index)
          (List.filter (fun index => match index with
                                     | Some i => in_range cs i
                                     | None => false
                                     end)
             (List.map (fun s => parse_index (trim s)) (split "," line)))
        = multiselect_spec cs line)
  /\ (forall c1 c2 c3,
        multiselect_spec [c1; c2; c3] "2,5,1" = [Choice.value c2; Choice.value c1])
  /\ (forall c1 c2 c3,
        handleMultiSelectPrompt
          (mkPrompt "features" TMultiselect "Features" VUndefined
             (Some [c1; c2; c3]) None None None)
          ∅ (mkState ["2,5,1"] [] ModeAsync (UIManager.new None))
        = (Throw (ErrorObj (plain_error
             "The hexadecimal length is not valid. The length is of 7")),
           mkState ["2,5,1"] [ShowInfo "Features (comma-separated numbers)"]
             ModeAsync (UIManager.new None))).
Proof.
  assert (Hrun : forall p a s,
    handleMultiSelectPrompt p a s
    = match choices p with
      | Some _ =>
          (Throw (ErrorObj (hex_error (UIManager.UITheme.info (uiManager s)))),
           mkState (input s)
             (terminal s ++ [ShowInfo (message p +:+ " (comma-separated numbers)")])
             (mode s) (uiManager s))
      | None =>
          (Throw (ErrorObj (plain_error "MultiSelect prompt requires choices")), s)
      end).
  { intros p a s. unfold handleMultiSelectPrompt.
    destruct (choices p) as [cs|]; [|reflexivity].
    unfold bind at 1. now rewrite showInfo_run. }
  split; [apply Hrun|]. split; [|split; [|split]].
  - intros l st'. rewrite Hrun. now destruct (choices prompt).
  - intros cs line. apply multiselect_refines.
  - reflexivity.
  - intros c1 c2 c3. rewrite Hrun. reflexivity.
Qed.

End PromptFacts.

(** ** The project generator *)

Module GeneratorFacts.
Import EffectFacts ProjectGenerator GeneratorSpec.

Section WithNode.
Context `{Node}.

(** *** The file helpers *)

Lemma ensureDir_run (dirPath : string) (st : state) :
  snd (ensureDir dirPath st) = st ++ [Mkdir dirPath]
  /\ (fst (ensureDir dirPath st) = Ok tt
      \/ exists t, fst (ensureDir dirPath st) = Throw t).
Proof.
  unfold ensureDir, try_catch, syscall.
  destruct (mkdir st dirPath) as [[e|v]|]; simpl; auto.
  destruct (e_code e) as [code|]; simpl; auto.
  destruct (negb _); simpl; eauto.
Qed.

Lemma writeFile_run (filePath data : string) (st : state) :
  (fst (writeFile filePath data st) = Ok tt
   /\ snd (writeFile filePath data st)
      = st ++ [Mkdir (path_dirname filePath); FsWrite filePath data])
  \/ (exists t, fst (writeFile filePath data st) = Throw t)
     /\ (snd (writeFile filePath data st) = st ++ [Mkdir (path_dirname filePath)]
         \/ snd (writeFile filePath data st)
            = st ++ [Mkdir (path_dirname filePath); FsWrite filePath data]).
Proof.
  unfold writeFile, bind.
  destruct (ensureDir_run (path_dirname filePath) st) as [Es [Er|[t Er]]];
    destruct (ensureDir (path_dirname filePath) st) as [r st1];
    simpl in Es, Er; subst.
  - unfold syscall. destruct (fsWriteFile _ filePath data) as [t|]; simpl;
      rewrite <- app_assoc; simpl; eauto.
  - right. simpl. eauto.
Qed.

(** *** The manifest *)

Lemma string_entries_record (r : record) :
  string_entries (List.map (fun kv => (fst kv, JString (snd kv))) r) = Some r.
Proof.
  induction r as [|[k v] r IH]; simpl; [reflexivity | now rewrite IH].
Qed.

Lemma entries_json_of_record (r : record) : entries (json_of_record r) = Some r.
Proof. apply string_entries_record. Qed.

Lemma string_entries_inv (fields : list (string * json)) :
  forall r, string_entries fields = Some r ->
  fields = List.map (fun kv => (fst kv, JString (snd kv))) r.
Proof.
  induction fields as [|[k v] fields IH]; intros r; simpl.
  - now intros [= <-].
  - destruct v as [v| |]; try discriminate.
    destruct (string_entries fields) as [r'|]; [|discriminate].
    intros [= <-]. simpl. now rewrite (IH r' eq_refl).
Qed.

(** A map from names to strings is the document of its entries. *)
Lemma entries_inv (j : json) (r : record) :
  entries j = Some r -> j = json_of_record r.
Proof.
  destruct j as [| |fields]; simpl; try discriminate.
  intros E. unfold json_of_record. now rewrite (string_entries_inv fields r E).
Qed.

Lemma map_field_inv (k : string) (j : json) (r : record) :
  map_field k j = Some r -> field k j = Some (json_of_record r).
Proof.
  unfold map_field. destruct (field k j) as [m|]; [|discriminate].
  intros E. now rewrite (entries_inv m r E).
Qed.

(** The object literal of [generatePackageJson] is a manifest of the
    specification. *)
Lemma packageJson_is_manifest (template : TemplateConfig)
    (config : GeneratorConfig.t) :
  is_manifest (GeneratorConfig.projectName config) (scripts template)
    (dependency_map template Dependencies.dependencies)
    (dependency_map template Dependencies.devDepencies)
    (dependency_map template Dependencies.peerDependencies)
    (packageJson template config).
Proof.
  unfold is_manifest, packageJson, dependency_map.
  repeat split; try reflexivity;
    (etransitivity; [|apply entries_json_of_record]);
    destruct (dependencies template) as [d|]; reflexivity.
Qed.

(** There is one manifest of the specification. *)
Lemma is_manifest_unique (projectName : string)
    (scripts runtime dev peer : option record) (j j' : json) :
  is_manifest projectName scripts runtime dev peer j ->
  is_manifest projectName scripts runtime dev peer j' ->
  j = j'.
Proof.
  assert (U : forall j, is_manifest projectName scripts runtime dev peer j ->
    j = JObject
          [ ("name", JString projectName);
            ("version", JString "0.1.0");
            ("private", JBool true);
            ("scripts", json_of_record (or_empty scripts));
            ("dependencies", json_of_record (or_empty runtime));
            ("devDependencies", json_of_record (or_empty dev));
            ("peerDependencies", json_of_record (or_empty peer)) ]).
  { clear j j'. intros j (K & Fn & Fv & Fp & Ms & Mr & Md & Mp).
    apply map_field_inv in Ms, Mr, Md, Mp.
    destruct j as [| |fields]; try discriminate K. simpl in K.
    destruct fields as [|[k1 v1] [|[k2 v2] [|[k3 v3] [|[k4 v4] [|[k5 v5]
      [|[k6 v6] [|[k7 v7] [|? ?]]]]]]]]; try discriminate K.
    simpl in K. injection K as -> -> -> -> -> -> ->.
    simpl in Fn, Fv, Fp, Ms, Mr, Md, Mp.
    congruence. }
  intros M M'. rewrite (U j M), (U j' M'). reflexivity.
Qed.

Lemma manifest_keys_as_written (template : TemplateConfig)
    (config : GeneratorConfig.t) :
  as_written (keys (packageJson template config)).
Proof.
  unfold packageJson. simpl. split.
  - repeat (constructor; [simpl; intuition discriminate|]). constructor.
  - repeat (constructor; [reflexivity|]). constructor.
Qed.

Lemma generatePackageJson_run (template : TemplateConfig)
    (config : GeneratorConfig.t) (projectPath : string) (st : state) :
  let path := path_join projectPath "package.json" in
  let data := JSON_stringify (packageJson template config) 2 in
  (fst (generatePackageJson template config projectPath st) = Ok tt
   /\ snd (generatePackageJson template config projectPath st)
      = st ++ [Mkdir (path_dirname path); FsWrite path data])
  \/ (exists t, fst (generatePackageJson template config projectPath st) = Throw t)
     /\ (snd (generatePackageJson template config projectPath st)
         = st ++ [Mkdir (path_dirname path)]
         \/ snd (generatePackageJson template config projectPath st)
            = st ++ [Mkdir (path_dirname path); FsWrite path data]).
Proof.
  cbv zeta. unfold generatePackageJson, writeJson, try_catch.
  destruct (writeFile_run (path_join projectPath "package.json")
              (JSON_stringify (packageJson template config) 2) st)
    as [[Er Es]|[[t Er] Es]];
    destruct (writeFile _ _ st) as [r st1]; simpl in Er, Es; subst.
  - left. auto.
  - right. destruct t as [e|v]; simpl; eauto.
Qed.

(** *** Traces only grow *)

Lemma grows_ret {A} (a : A) : grows (ret a).
Proof. intros st. exists []. simpl. now rewrite app_nil_r. Qed.

Lemma grows_throw {A} t : grows (@throw state A t).
Proof. intros st. exists []. simpl. now rewrite app_nil_r. Qed.

Lemma grows_emit e : grows (emit e).
Proof. intros st. now exists [e]. Qed.

Lemma grows_syscall e oracle : grows (syscall e oracle).
Proof. intros st. exists [e]. unfold syscall. now destruct (oracle st). Qed.

Lemma grows_bind {A B} (m : M state A) (k : A -> M state B) :
  grows m -> (forall a, grows (k a)) -> grows (bind m k).
Proof.
  intros Hm Hk st. destruct (Hm st) as (evs1 & E1). unfold bind.
  destruct (m st) as [[a|t|] st1]; simpl in *; [|now exists evs1..].
  destruct (Hk a st1) as (evs2 & E2). exists (evs1 ++ evs2).
  now rewrite E2, E1, app_assoc.
Qed.

Lemma grows_try_catch {A} (m : M state A) (h : thrown -> M state A) :
  grows m -> (forall t, grows (h t)) -> grows (try_catch m h).
Proof.
  intros Hm Hh st. destruct (Hm st) as (evs1 & E1). unfold try_catch.
  destruct (m st) as [[a|t|] st1]; simpl in *; [now exists evs1| |now exists evs1].
  destruct (Hh t st1) as (evs2 & E2). exists (evs1 ++ evs2).
  now rewrite E2, E1, app_assoc.
Qed.

Lemma grows_installDependencies projectPath : grows (installDependencies projectPath).
Proof.
  unfold installDependencies.
  apply grows_bind; [apply grows_emit | intros _].
  apply grows_try_catch.
  - apply grows_bind; [apply grows_syscall | intros _; apply grows_emit].
  - intros t. apply grows_bind; [apply grows_emit | intros _].
    destruct t; [apply grows_throw | apply grows_emit].
Qed.

(** *** Inverting a run that returned *)

Lemma ensureDir_Ok dirPath st st' :
  ensureDir dirPath st = (Ok tt, st') -> st' = st ++ [Mkdir dirPath].
Proof.
  intros E. destruct (ensureDir_run dirPath st) as [Es _].
  rewrite E in Es. exact Es.
Qed.

Lemma writeFile_Ok filePath data st st' :
  writeFile filePath data st = (Ok tt, st') ->
  st' = st ++ [Mkdir (path_dirname filePath); FsWrite filePath data].
Proof.
  intros E. destruct (writeFile_run filePath data st) as [[_ Es]|[[t Er] _]];
    rewrite E in *; simpl in *; [exact Es | discriminate].
Qed.

Lemma generate_file_Ok config projectPath file st st' :
  generate_file config projectPath file st = (Ok tt, st') ->
  exists evs, st' = st ++ evs
    /\ (included config file = true ->
        In (FsWrite (path_join projectPath (Files.path file)) (content_of config file))
           evs).
Proof.
  unfold generate_file, included, content_of.
  destruct (Files.condition file) as [c|].
  - destruct (c (GeneratorConfig.answers config)); simpl.
    + intros E. apply bind_Ok in E as ([] & st1 & E1 & E2).
      apply ensureDir_Ok in E1 as ->. apply writeFile_Ok in E2 as ->.
      eexists. rewrite <- app_assoc. split; [reflexivity|].
      intros _. simpl. auto.
    + intros [= <-]. exists []. rewrite app_nil_r. split; [reflexivity | discriminate].
  - intros E. apply bind_Ok in E as ([] & st1 & E1 & E2).
    apply ensureDir_Ok in E1 as ->. apply writeFile_Ok in E2 as ->.
    eexists. rewrite <- app_assoc. split; [reflexivity|].
    intros _. simpl. auto.
Qed.

Lemma for_each_files_Ok config projectPath (fs : list Files.t) :
  forall st st',
  for_each fs (generate_file config projectPath) st = (Ok tt, st') ->
  exists evs, st' = st ++ evs
    /\ forall file, In file fs -> included config file = true ->
       In (FsWrite (path_join projectPath (Files.path file)) (content_of config file))
          evs.
Proof.
  induction fs as [|f fs IH]; intros st st' E; simpl in E.
  - injection E as <-. exists []. rewrite app_nil_r. split; [reflexivity|].
    intros file [].
  - apply bind_Ok in E as ([] & st1 & E1 & E2).
    apply generate_file_Ok in E1 as (evs1 & -> & H1).
    apply IH in E2 as (evs2 & -> & H2).
    exists (evs1 ++ evs2). rewrite app_assoc. split; [reflexivity|].
    intros file [<-|Hin] Hinc; apply in_or_app; [left | right]; auto.
Qed.

Lemma generateFiles_Ok template config projectPath st st' :
  generateFiles template config projectPath st = (Ok tt, st') ->
  exists evs, st' = st ++ evs
    /\ forall file, In file (files template) -> included config file = true ->
       In (FsWrite (path_join projectPath (Files.path file)) (content_of config file))
          evs.
Proof.
  unfold generateFiles. intros E.
  apply bind_Ok in E as ([] & st1 & E1 & E2).
  injection E1 as <-. unfold try_catch in E2.
  destruct (bind _ _ _) as [[[]|t|] st2] eqn:Eb.
  - injection E2 as <-. apply bind_Ok in Eb as ([] & st3 & E3 & E4).
    apply for_each_files_Ok in E3 as (evs & -> & Hfiles).
    injection E4 as <-. eexists. rewrite <- !app_assoc. split; [reflexivity|].
    intros file Hin Hinc. apply in_cons, in_or_app. left. auto.
  - unfold bind, emit, modify, throw in E2. simpl in E2. destruct t; discriminate.
  - discriminate.
Qed.

Lemma generatePackageJson_Ok template config projectPath st st' :
  generatePackageJson template config projectPath st = (Ok tt, st') ->
  st' = st ++ [Mkdir (path_dirname (path_join projectPath "package.json"));
               FsWrite (path_join projectPath "package.json")
                 (JSON_stringify (packageJson template config) 2)].
Proof.
  intros E.
  destruct (generatePackageJson_run template config projectPath st)
    as [[_ Es]|[[t Er] _]]; rewrite E in *; simpl in *; [exact Es | discriminate].
Qed.

(** When the steps up to the manifest succeed, every included file and
    the manifest have been written. *)
Lemma prepare_Ok template config st st' :
  prepare template config st = (Ok tt, st') ->
  (forall file, In file (files template) -> included config file = true ->
     In (FsWrite (path_join (project_path config) (Files.path file))
           (content_of config file)) st')
  /\ In (FsWrite (manifest_path config)
           (JSON_stringify (packageJson template config) 2)) st'.
Proof.
  unfold prepare. intros E.
  apply bind_Ok in E as ([] & st1 & E1 & E).
  apply bind_Ok in E as ([] & st2 & E2 & E3).
  apply generateFiles_Ok in E2 as (evs & -> & Hfiles).
  apply generatePackageJson_Ok in E3 as ->. split.
  - intros file Hin Hinc. apply in_or_app. left. apply in_or_app. right. auto.
  - apply in_or_app. right. simpl. auto.
Qed.

(** *** The steps of [generate] *)

Lemma installDependencies_run (projectPath : string) (st : state) :
  let started := st ++ [SpinnerStart "Installing dependencies..."] in
  let failed := st ++ [SpinnerStart "Installing dependencies...";
                       Exec "npm install" projectPath;
                       SpinnerFail "Failed to install dependencies"] in
  installDependencies projectPath st
  = match exec started "npm install" projectPath with
    | None =>
        (Ok tt, st ++ [SpinnerStart "Installing dependencies...";
                       Exec "npm install" projectPath;
                       SpinnerSucceed "Dependencies installed successfully"])
    | Some (ErrorObj e) =>
        (Throw (ErrorObj (dependency_error projectPath e)), failed)
    | Some (NonError _) => (Ok tt, failed ++ [manual_hint])
    end.
Proof.
  cbv zeta. unfold installDependencies, bind, try_catch, syscall, emit, modify,
    throw, ret. simpl.
  destruct (exec _ "npm install" projectPath) as [[e|v]|]; simpl;
    rewrite <- ?app_assoc; reflexivity.
Qed.

Lemma run_postInstall_run f (projectPath : string) (answers : dict) (st : state) :
  run_postInstall f projectPath answers st
  = (match f projectPath answers with
     | Returns | ReturnsPromise Fulfils => Ok tt
     | Throws t | ReturnsPromise (Rejects t) => Throw t
     | ReturnsPromise NeverSettles => Blocked
     end, st ++ [PostInstallCall projectPath answers]).
Proof.
  unfold run_postInstall, bind, emit, modify, await. simpl.
  destruct (f projectPath answers) as [|t|[|t|]]; reflexivity.
Qed.

(** [generate], cut at the [postInstall] step. *)
Lemma generate_steps (template : TemplateConfig) (config : GeneratorConfig.t)
    (st : state) :
  generate template config st
  = match before_postInstall template config st with
    | (Ok _, st1) =>
        match postInstall template with
        | Some f =>
            (match f (project_path config) (GeneratorConfig.answers config) with
             | Returns | ReturnsPromise Fulfils => Ok tt
             | Throws t | ReturnsPromise (Rejects t) => Throw (as_rejected config t)
             | ReturnsPromise NeverSettles => Blocked
             end,
             st1 ++ [PostInstallCall (project_path config)
                       (GeneratorConfig.answers config)])
        | None => (Ok tt, st1)
        end
    | (Throw t, st1) => (Throw (as_rejected config t), st1)
    | (Blocked, st1) => (Blocked, st1)
    end.
Proof.
  unfold generate. fold (project_path config). fold (installs template config).
  set (pp := project_path config).
  set (post := match postInstall template with
               | Some f => run_postInstall f pp (GeneratorConfig.answers config)
               | None => ret tt
               end).
  assert (Hbody :
    (ensureDir pp ;;; generateFiles template config pp ;;;
     generatePackageJson template config pp ;;;
     when_ (installs template config) (installDependencies pp) ;;; post) st
    = bind (before_postInstall template config) (fun _ => post) st).
  { unfold before_postInstall, prepare. fold pp.
    rewrite !bind_assoc_pt. apply bind_ext_pt. intros a s.
    rewrite !bind_assoc_pt. reflexivity. }
  unfold try_catch. rewrite Hbody. unfold bind at 1.
  destruct (before_postInstall template config st) as [[[]|t|] st1];
    [|now destruct t|reflexivity].
  unfold post. destruct (postInstall template) as [f|]; [|reflexivity].
  rewrite run_postInstall_run.
  destruct (f pp (GeneratorConfig.answers config)) as [|t|[|t|]];
    try reflexivity; now destruct t.
Qed.

Lemma before_postInstall_Ok template config st st1 :
  before_postInstall template config st = (Ok tt, st1) ->
  exists st0 evs, prepare template config st = (Ok tt, st0) /\ st1 = st0 ++ evs.
Proof.
  unfold before_postInstall. intros E.
  apply bind_Ok in E as ([] & st0 & E0 & E1). exists st0.
  assert (G : grows (when_ (installs template config)
                       (installDependencies (project_path config)))).
  { unfold when_. destruct (installs template config);
      [apply grows_installDependencies | apply grows_ret]. }
  destruct (G st0) as (evs & Eg). rewrite E1 in Eg. simpl in Eg. eauto.
Qed.

Lemma before_postInstall_install template config st st1 :
  installs template config = true ->
  prepare template config st = (Ok tt, st1) ->
  before_postInstall template config st
  = installDependencies (project_path config) st1.
Proof.
  intros Hi Hp. unfold before_postInstall, bind. now rewrite Hp, Hi.
Qed.

(** *** The claims *)

(** C9: the document that [generatePackageJson] hands to [writeJson] is
    the manifest of the specification, and the only one: its properties
    are [name], [version], [private], [scripts], [dependencies],
    [devDependencies] and [peerDependencies] in this order, which is
    the order written because the names differ and none is an array
    index; [name] is the project name, [version] is [0.1.0], [private]
    is [true], and the four maps are those of the template, each empty
    when absent. The step creates the directory of
    [<projectPath>/package.json] and writes the document there, printed
    with two spaces, and nothing else; it returns when both calls
    succeed, goes on when the directory exists already, and throws the
    wrapped failure otherwise. A [generate] that returns has written
    the manifest. *)
Theorem manifest_document (template : TemplateConfig) (config : GeneratorConfig.t)
    (projectPath : string) (st : state) :
  let path := path_join projectPath "package.json" in
  let dir := path_dirname path in
  let doc := packageJson template config in
  let data := JSON_stringify doc 2 in
  let spec :=
    is_manifest (GeneratorConfig.projectName config) (scripts template)
      (dependency_map template Dependencies.dependencies)
      (dependency_map template Dependencies.devDepencies)
      (dependency_map template Dependencies.peerDependencies) in
  spec doc
  /\ (forall j, spec j -> j = doc)
  /\ as_written (keys doc)
  /\ generatePackageJson template config projectPath st
     = (if match mkdir st dir with Some t => fatal t | None => false end
        then (manifest_result config projectPath (mkdir st dir),
              st ++ [Mkdir dir])
        else (manifest_result config projectPath
                (fsWriteFile (st ++ [Mkdir dir]) path data),
              st ++ [Mkdir dir; FsWrite path data]))
  /\ (forall st', generate template config st = (Ok tt, st') ->
      In (FsWrite (manifest_path config) data) st').
Proof.
  cbv zeta. split; [apply packageJson_is_manifest|].
  split; [|split; [apply manifest_keys_as_written|split]].
  - intros j Hj. apply (is_manifest_unique _ _ _ _ _ _ _ Hj).
    apply packageJson_is_manifest.
  - unfold generatePackageJson, writeJson, writeFile, ensureDir, try_catch,
      bind, syscall, manifest_result, manifest_error, fatal.
    destruct (mkdir st _) as [[e|v]|]; simpl.
    + destruct (e_code e) as [code|]; simpl.
      * destruct (negb (String.eqb code "EEXIST")); simpl; [reflexivity|].
        destruct (fsWriteFile _ _ _) as [[e'|v']|]; simpl;
          now rewrite <- app_assoc.
      * destruct (fsWriteFile _ _ _) as [[e'|v']|]; simpl;
          now rewrite <- app_assoc.
    + destruct (fsWriteFile _ _ _) as [[e'|v']|]; simpl;
        now rewrite <- app_assoc.
    + destruct (fsWriteFile _ _ _) as [[e'|v']|]; simpl;
        now rewrite <- app_assoc.
  - intros st' Hgen. rewrite generate_steps in Hgen.
    destruct (before_postInstall template config st) as [[[]|t|] st1] eqn:Eb;
      try discriminate.
    apply before_postInstall_Ok in Eb as (st0 & evs & Ep & ->).
    apply prepare_Ok in Ep as [_ Hm].
    destruct (postInstall template) as [f|].
    + injection Hgen as _ <-. repeat (apply in_or_app; left). exact Hm.
    + injection Hgen as <-. apply in_or_app. left. exact Hm.
Qed.

(** C1 (as amended): when the install command fails after the files and
    the manifest were written, the outcome depends on what it failed with.
    With an [Error], [installDependencies] throws a dependency error and
    [generate] rejects with the filesystem error that wraps it: the hint
    is not printed and [postInstall] is not called. Only a failure that is
    not an [Error] is passed over: the hint is printed and [generate] goes
    on to [postInstall]. *)
Theorem install_failure_outcome (template : TemplateConfig)
    (config : GeneratorConfig.t) (d : Dependencies.t) (st st1 : state) (t : thrown) :
  dependencies template = Some d ->
  not_false (get (GeneratorConfig.answers config) "installDeps") = true ->
  prepare template config st = (Ok tt, st1) ->
  exec (st1 ++ [SpinnerStart "Installing dependencies..."]) "npm install"
    (project_path config) = Some t ->
  match t with
  | ErrorObj e =>
      installDependencies (project_path config) st1
      = (Throw (ErrorObj (dependency_error (project_path config) e)),
         failed_install config st1)
      /\ generate template config st
         = (Throw (generate_error config (dependency_error (project_path config) e)),
            failed_install config st1)
  | NonError _ =>
      installDependencies (project_path config) st1
      = (Ok tt, failed_install config st1 ++ [manual_hint])
      /\ match postInstall template with
         | None =>
             generate template config st
             = (Ok tt, failed_install config st1 ++ [manual_hint])
         | Some f =>
             snd (generate template config st)
             = failed_install config st1
               ++ [manual_hint;
                   PostInstallCall (project_path config)
                     (GeneratorConfig.answers config)]
         end
  end.
Proof.
  intros Hd Hans Hprep Hexec.
  assert (Hi : installs template config = true)
    by (unfold installs; now rewrite Hd, Hans).
  pose proof (installDependencies_run (project_path config) st1) as Hrun.
  cbv zeta in Hrun. rewrite Hexec in Hrun.
  rewrite generate_steps, (before_postInstall_install _ _ _ _ Hi Hprep), Hrun.
  unfold failed_install. destruct t as [e|v]; (split; [reflexivity|]).
  - reflexivity.
  - destruct (postInstall template) as [f|]; [|reflexivity].
    simpl. now rewrite <- app_assoc.
Qed.

(** C3 (as amended): a declared [postInstall] is called with the project
    path and the answers once the files, the manifest and the install step
    are done, and is awaited; when it throws or its promise rejects,
    [generate] rejects too: with the filesystem error that wraps the
    message if the failure is an [Error], with the value itself
    otherwise. *)
Theorem postInstall_outcome (template : TemplateConfig) (config : GeneratorConfig.t)
    (f : string -> dict -> behaviour) (st st1 : state) :
  postInstall template = Some f ->
  before_postInstall template config st = (Ok tt, st1) ->
  snd (generate template config st)
  = st1 ++ [PostInstallCall (project_path config) (GeneratorConfig.answers config)]
  /\ (forall file, In file (files template) -> included config file = true ->
        In (FsWrite (path_join (project_path config) (Files.path file))
              (content_of config file)) st1)
  /\ In (FsWrite (manifest_path config)
           (JSON_stringify (packageJson template config) 2)) st1
  /\ fst (generate template config st)
     = match f (project_path config) (GeneratorConfig.answers config) with
       | Returns | ReturnsPromise Fulfils => Ok tt
       | Throws t | ReturnsPromise (Rejects t) => Throw (as_rejected config t)
       | ReturnsPromise NeverSettles => Blocked
       end.
Proof.
  intros Hf Hbefore. rewrite generate_steps, Hbefore, Hf. simpl.
  split; [reflexivity|].
  apply before_postInstall_Ok in Hbefore as (st0 & evs & Hp & ->).
  apply prepare_Ok in Hp as [Hfiles Hm].
  split; [|split; [|reflexivity]].
  - intros file Hin Hinc. apply in_or_app. left. auto.
  - apply in_or_app. now left.
Qed.

End WithNode.

(** On a machine where the calls succeed, the manifest step of the
    template [library] writes the document below and returns, and so
    does [generate], which needs no install step to do so. *)
Lemma library_manifest :
  let node := test_node None in
  let config := GeneratorConfig.mk "lib" "library" (set ∅ "installDeps" (VBool false))
                  "/work" in
  packageJson library config
  = JObject
      [ ("name", JString "lib");
        ("version", JString "0.1.0");
        ("private", JBool true);
        ("scripts", JObject [("test", JString "vitest run")]);
        ("dependencies", JObject []);
        ("devDependencies", JObject [("vitest", JString "^1.0.0")]);
        ("peerDependencies", JObject []) ]
  /\ @generatePackageJson node library config "/work/lib" []
     = (Ok tt,
        [Mkdir "/work/lib";
         FsWrite "/work/lib/package.json"
           (@JSON_stringify node (packageJson library config) 2)])
  /\ fst (@generate node library config []) = Ok tt
  /\ In (FsWrite "/work/lib/package.json"
           (@JSON_stringify node (packageJson library config) 2))
        (snd (@generate node library config [])).
Proof.
  cbv zeta. split; [reflexivity|]. split; [reflexivity|].
  split; [reflexivity|]. vm_compute. auto 10.
Qed.

(** *** Concrete runs *)

(** C1 as stated fails when the install command fails with an [Error], as
    a failed command does: [generate] rejects, [postInstall] is not called
    and the hint is not printed. *)
Lemma install_failure_aborts_generate :
  let run := @generate (test_node (Some npm_error)) react my_app [] in
  (exists e, fst run = Throw (ErrorObj e) /\ e_class e = FileSystemError)
  /\ List.filter is_PostInstallCall (snd run) = []
  /\ ~ In manual_hint (snd run).
Proof.
  cbv zeta. split; [|split].
  - eexists. split; reflexivity.
  - reflexivity.
  - vm_compute. intros Hin.
    repeat (destruct Hin as [Hin|Hin]; [discriminate|]). exact Hin.
Qed.

Lemma install_failure_outcome_witness :
  let node := test_node (Some npm_error) in
  let st1 := snd (@prepare node react my_app []) in
  @generate node react my_app []
  = (Throw (generate_error my_app
              (@dependency_error (@project_path node my_app) (plain_error "npm ERR! network"))),
     @failed_install node my_app st1).
Proof.
  cbv zeta.
  exact (proj2 (@install_failure_outcome (test_node (Some npm_error)) react my_app
                  (Dependencies.mk (Some [("react", "^18.2.0")]) None None)
                  [] _ npm_error eq_refl eq_refl eq_refl eq_refl)).
Defined.

(** C3 as stated fails when [postInstall] rejects with an [Error]: the
    caller of [generate] gets a filesystem error that wraps its message,
    not the error itself. *)
Lemma postInstall_error_is_wrapped :
  let run := @generate (test_node None) react my_app [] in
  fst run = Throw (generate_error my_app (plain_error "boom"))
  /\ fst run <> Throw (ErrorObj (plain_error "boom")).
Proof. cbv zeta. split; [reflexivity | discriminate]. Qed.

Lemma postInstall_outcome_witness :
  let node := test_node None in
  fst (@generate node react my_app [])
  = Throw (as_rejected my_app (ErrorObj (plain_error "boom"))).
Proof.
  cbv zeta.
  exact (proj2 (proj2 (proj2
    (@postInstall_outcome (test_node None) react my_app
       (fun _ _ => ReturnsPromise (Rejects (ErrorObj (plain_error "boom"))))
       [] _ eq_refl eq_refl)))).
Defined.

End GeneratorFacts.

(** ** The plugin manager: more on the registry *)

Module RegistryFacts.
Import Regex Version VersionFacts PluginManager PluginSpec HookSpec PluginOps
  PluginManagerFacts ExecuteHookFacts.

Lemma same_key_str (k : value) (n : string) :
  same_key k (VStr n) = true <-> k = VStr n.
Proof.
  destruct k as [| | | |s|]; simpl; try (split; discriminate).
  rewrite String.eqb_eq. split; [intros Hs | intros [= Hs]]; now subst.
Qed.

Lemma map_get_None_keys (m : plugin_map) (n : string) :
  map_get m (VStr n) = None <-> ~ In (VStr n) (List.map fst m).
Proof.
  induction m as [|[k c] m IH]; simpl; [tauto|].
  destruct (same_key k (VStr n)) eqn:E.
  - apply same_key_str in E. subst. split; [discriminate | tauto].
  - rewrite IH. split; [|tauto].
    intros Hn [Hk|Hin]; [|tauto].
    apply same_key_str in Hk. congruence.
Qed.

Lemma map_get_In (m : plugin_map) (n : string) (c : PluginConfig) :
  map_get m (VStr n) = Some c -> In (VStr n, c) m.
Proof.
  induction m as [|[k c'] m IH]; simpl; [discriminate|].
  destruct (same_key k (VStr n)) eqn:E.
  - apply same_key_str in E. subst. intros [= ->]. now left.
  - intros Hg. right. auto.
Qed.

(** A new key goes to the end of the map. *)
Lemma map_set_fresh (m : plugin_map) (n : string) (c : PluginConfig) :
  map_get m (VStr n) = None -> map_set m (VStr n) c = m ++ [(VStr n, c)].
Proof.
  induction m as [|[k c'] m IH]; simpl; [reflexivity|].
  destruct (same_key k (VStr n)); [discriminate|].
  intros Hg. now rewrite IH.
Qed.

Lemma map_delete_fresh (m : plugin_map) (n : string) :
  map_get m (VStr n) = None -> map_delete m (VStr n) = m.
Proof.
  induction m as [|[k c'] m IH]; simpl; [reflexivity|].
  destruct (same_key k (VStr n)); [discriminate|].
  intros Hg. now rewrite IH.
Qed.

Lemma map_delete_app_fresh (m : plugin_map) (n : string) (c : PluginConfig) :
  map_get m (VStr n) = None -> map_delete (m ++ [(VStr n, c)]) (VStr n) = m.
Proof.
  induction m as [|[k c'] m IH]; simpl.
  - now rewrite String.eqb_refl.
  - destruct (same_key k (VStr n)); [discriminate|].
    intros Hg. now rewrite IH.
Qed.

Lemma map_get_delete_ne (m : plugin_map) (n n' : string) :
  n' <> n -> map_get (map_delete m (VStr n)) (VStr n') = map_get m (VStr n').
Proof.
  intros Hne. induction m as [|[k c] m IH]; simpl; [reflexivity|].
  destruct (same_key k (VStr n)) eqn:E; simpl.
  - apply same_key_str in E. subst. simpl.
    assert (String.eqb n n' = false) as -> by (apply String.eqb_neq; congruence).
    reflexivity.
  - now rewrite IH.
Qed.

Lemma map_get_delete_eq (m : plugin_map) (n : string) :
  List.NoDup (List.map fst m) ->
  map_get (map_delete m (VStr n)) (VStr n) = None.
Proof.
  induction m as [|[k c] m IH]; simpl; [reflexivity|].
  intros Hnd. inversion Hnd as [|? ? Hnotin Hnd']; subst.
  destruct (same_key k (VStr n)) eqn:E; simpl.
  - apply same_key_str in E. subst. apply map_get_None_keys. exact Hnotin.
  - rewrite E. auto.
Qed.

Lemma map_delete_incl (m : plugin_map) (k : value) :
  incl (map_delete m k) m.
Proof.
  induction m as [|[k' c] m IH]; simpl; [apply incl_refl|].
  destruct (same_key k' k).
  - apply incl_tl, incl_refl.
  - apply incl_cons; [now left | now apply incl_tl].
Qed.

Lemma map_delete_NoDup (m : plugin_map) (k : value) :
  List.NoDup (List.map fst m) -> List.NoDup (List.map fst (map_delete m k)).
Proof.
  induction m as [|[k' c] m IH]; simpl; [auto|].
  intros Hnd. inversion Hnd as [|? ? Hnotin Hnd']; subst.
  destruct (same_key k' k); [exact Hnd'|].
  simpl. constructor; [|auto].
  intros Hin. apply Hnotin.
  apply in_map_iff in Hin as ([k2 c2] & E & Hin). simpl in E. subst.
  apply in_map_iff. exists (k', c2). split; [reflexivity|].
  now apply (map_delete_incl m k).
Qed.

(** What [uninstall] does, in one equation. *)
Lemma uninstall_cases (n : string) (st : state) :
  if map_has (plugins st) (VStr n)
  then uninstall n st = (Ok tt, uninstalled st n)
  else exists e, uninstall n st = (Throw (ErrorObj e), st)
                 /\ e_class e = PluginError.
Proof.
  destruct st as [m out]. unfold uninstall, uninstalled, try_catch, bind, gets,
    when_, set_plugins, emit, modify, throw, ret. simpl.
  destruct (map_has m (VStr n)); simpl; eauto.
Qed.

(** X1: [uninstall] rejects with a plugin error exactly when the name is not
    registered, and then changes nothing; otherwise it removes that entry
    and no other. *)
Theorem uninstall_outcome (n : string) (st : state) :
  ((exists e st', uninstall n st = (Throw (ErrorObj e), st')
                  /\ e_class e = PluginError)
   <-> getPlugin st n = None)
  /\ (getPlugin st n = None -> snd (uninstall n st) = st)
  /\ (forall c, getPlugin st n = Some c ->
        uninstall n st = (Ok tt, uninstalled st n)
        /\ (forall n', n' <> n ->
              getPlugin (uninstalled st n) n' = getPlugin st n')
        /\ (well_formed (plugins st) -> getPlugin (uninstalled st n) n = None)).
Proof.
  pose proof (uninstall_cases n st) as C. unfold getPlugin, map_has in *.
  destruct (map_get (plugins st) (VStr n)) as [c|] eqn:G.
  - split; [|split].
    + split; [|discriminate]. intros (e & st' & E & _). rewrite C in E. discriminate.
    + discriminate.
    + intros c' _. split; [exact C|]. split.
      * intros n' Hne. unfold uninstalled. simpl. now apply map_get_delete_ne.
      * intros [Hnd _]. unfold uninstalled. simpl. now apply map_get_delete_eq.
  - destruct C as (e & E & Hc). split; [|split].
    + split; [reflexivity|]. intros _. now exists e, st.
    + intros _. now rewrite E.
    + discriminate.
Qed.

Lemma acceptable_fresh (st : state) (config : PluginConfig) (n : string) :
  acceptable st config = true -> name config = VStr n ->
  map_get (plugins st) (VStr n) = None.
Proof.
  unfold acceptable. rewrite !andb_true_iff, negb_true_iff.
  intros [[[Hhas _] _] _] Hn. rewrite Hn in Hhas. unfold map_has in Hhas.
  now destruct (map_get (plugins st) (VStr n)).
Qed.

Lemma acceptable_fields (st : state) (config : PluginConfig) :
  acceptable st config = true ->
  exists n v, name config = VStr n /\ n <> EmptyString
              /\ version config = VStr v /\ version_pattern v.
Proof.
  unfold acceptable. rewrite !andb_true_iff.
  intros [[[_ [Hn1 Hn2]] [Hv1 Hv2]] Hm].
  destruct (name config) as [| | | |n|]; try discriminate.
  destruct (version config) as [| | | |v|]; try discriminate.
  exists n, v. repeat split; try reflexivity.
  - intros ->. discriminate.
  - now apply semverRegex_pattern.
Qed.

(** X2: installing a plugin and uninstalling it again leaves the registry
    as it was. *)
Theorem install_uninstall_roundtrip (config : PluginConfig) (n : string)
    (st : state) :
  name config = VStr n ->
  acceptable st config = true ->
  exists st1 st2,
    install config st = (Ok tt, st1)
    /\ getPlugin st1 n = Some config
    /\ uninstall n st1 = (Ok tt, st2)
    /\ plugins st2 = plugins st.
Proof.
  intros Hn Hacc. pose proof (install_cases config st) as C. rewrite Hacc in C.
  pose proof (acceptable_fresh st config n Hacc Hn) as Hfresh.
  exists (installed st config), (uninstalled (installed st config) n).
  assert (Hget : getPlugin (installed st config) n = Some config).
  { unfold getPlugin, installed. simpl. rewrite Hn. apply map_get_set. }
  split; [exact C|]. split; [exact Hget|].
  pose proof (uninstall_cases n (installed st config)) as U.
  unfold getPlugin in Hget. unfold map_has in U. rewrite Hget in U.
  split; [exact U|].
  unfold uninstalled, installed. simpl. rewrite Hn.
  rewrite map_set_fresh by exact Hfresh. now apply map_delete_app_fresh.
Qed.

Lemma install_uninstall_roundtrip_witness :
  exists st1 st2,
    install (mkPlugin (VStr "lint") (VStr "2.1.0") None None) fresh = (Ok tt, st1)
    /\ getPlugin st1 "lint" = Some (mkPlugin (VStr "lint") (VStr "2.1.0") None None)
    /\ uninstall "lint" st1 = (Ok tt, st2)
    /\ plugins st2 = plugins fresh.
Proof.
  exact (install_uninstall_roundtrip
           (mkPlugin (VStr "lint") (VStr "2.1.0") None None) "lint" fresh
           eq_refl eq_refl).
Defined.

Lemma install_well_formed (config : PluginConfig) (st : state) :
  well_formed (plugins st) -> well_formed (plugins (snd (install config st))).
Proof.
  intros [Hnd Hall]. pose proof (install_cases config st) as C.
  destruct (acceptable st config) eqn:Hacc.
  - rewrite C. unfold installed. simpl.
    destruct (acceptable_fields st config Hacc) as (n & v & Hn & Hne & Hv & Hpat).
    pose proof (acceptable_fresh st config n Hacc Hn) as Hfresh.
    rewrite Hn, map_set_fresh by exact Hfresh. split.
    + rewrite List.map_app. simpl. apply List.NoDup_app; repeat split.
      * exact Hnd.
      * constructor; [intros [] | constructor].
      * intros k Hin [<-|[]]. now apply (map_get_None_keys (plugins st) n).
    + apply List.Forall_app. split; [exact Hall|]. constructor; [|constructor].
      split; [simpl; congruence|]. simpl. exists n, v. auto.
  - destruct C as (e & -> & _). now split.
Qed.

Lemma uninstall_well_formed (n : string) (st : state) :
  well_formed (plugins st) -> well_formed (plugins (snd (uninstall n st))).
Proof.
  intros [Hnd Hall]. pose proof (uninstall_cases n st) as C.
  destruct (map_has (plugins st) (VStr n)).
  - rewrite C. unfold uninstalled. simpl. split.
    + now apply map_delete_NoDup.
    + apply List.Forall_forall. intros kc Hin.
      rewrite List.Forall_forall in Hall. apply Hall.
      now apply (map_delete_incl (plugins st) (VStr n)).
  - destruct C as (e & -> & _). now split.
Qed.

Lemma run_op_well_formed (o : op) (st : state) :
  well_formed (plugins st) -> well_formed (plugins (run_op o st)).
Proof.
  destruct o as [config|n|order hookName args]; simpl.
  - apply install_well_formed.
  - apply uninstall_well_formed.
  - now rewrite executeHook_run.
Qed.

Lemma run_ops_well_formed (ops : list op) (st : state) :
  well_formed (plugins st) -> well_formed (plugins (run_ops ops st)).
Proof.
  revert st. induction ops as [|o ops IH]; intros st Hwf; [exact Hwf|].
  apply IH. now apply run_op_well_formed.
Qed.

Lemma In_map_get (m : plugin_map) (n : string) (c : PluginConfig) :
  List.NoDup (List.map fst m) -> In (VStr n, c) m -> map_get m (VStr n) = Some c.
Proof.
  induction m as [|[k c'] m IH]; simpl; [tauto|].
  intros Hnd. inversion Hnd as [|? ? Hnotin Hnd']; subst.
  intros [[= -> ->]|Hin].
  - simpl. now rewrite String.eqb_refl.
  - destruct (same_key k (VStr n)) eqn:E; [|auto].
    apply same_key_str in E. subst. exfalso. apply Hnotin.
    apply in_map_iff. now exists (VStr n, c).
Qed.

(** In a well-formed registry the plugins listed are those that can be
    looked up, each under its own name. *)
Lemma well_formed_lookup (st : state) :
  well_formed (plugins st) ->
  (forall n c, getPlugin st n = Some c ->
     name c = VStr n /\ In c (listPlugins st))
  /\ (forall c, In c (listPlugins st) ->
        exists n, name c = VStr n /\ getPlugin st n = Some c).
Proof.
  intros [Hnd Hall]. rewrite List.Forall_forall in Hall. split.
  - intros n c Hg. apply map_get_In in Hg. split.
    + destruct (Hall _ Hg) as [Hk _]. simpl in Hk. congruence.
    + unfold listPlugins, map_values. apply in_map_iff. now exists (VStr n, c).
  - intros c Hin. unfold listPlugins, map_values in Hin.
    apply in_map_iff in Hin as ([k c'] & E & Hin). simpl in E. subst c'.
    destruct (Hall _ Hin) as [Hk (n & v & Hn & _)]. simpl in Hk, Hn.
    exists n. split; [exact Hn|]. apply In_map_get; [exact Hnd | congruence].
Qed.

(** X3: whatever sequence of [install], [uninstall] and [executeHook] calls
    a new manager goes through, failed ones included, its registry holds
    at most one plugin per name, each stored under its own name, which is
    a non-empty string, and with a version of the accepted form; the
    plugins that [listPlugins] returns are exactly those that [getPlugin]
    finds. *)
Theorem registry_invariant (ops : list op) :
  well_formed (plugins (run_ops ops fresh))
  /\ (forall n c, getPlugin (run_ops ops fresh) n = Some c ->
        name c = VStr n /\ In c (listPlugins (run_ops ops fresh)))
  /\ (forall c, In c (listPlugins (run_ops ops fresh)) ->
        exists n, name c = VStr n /\ getPlugin (run_ops ops fresh) n = Some c).
Proof.
  assert (Hwf : well_formed (plugins (run_ops ops fresh))).
  { apply run_ops_well_formed. split; constructor. }
  split; [exact Hwf|]. now apply well_formed_lookup.
Qed.

(** X4: a plugin that [install] accepts goes to the end of the list, so
    [executeHook] calls the handlers of the plugins that were there
    before, in the same order as it would have without the new plugin,
    and then the handler of the new one, in whatever order the promises
    of either call settle. *)
Theorem installed_plugin_runs_last (config : PluginConfig) (st : state)
    (order order1 : schedule) (hookName : hook_name) (args : list arg) :
  acceptable st config = true ->
  exists st1 before after,
    install config st = (Ok tt, st1)
    /\ listPlugins st1 = listPlugins st ++ [config]
    /\ console (snd (executeHook order hookName args st)) = console st ++ before
    /\ console (snd (executeHook order1 hookName args st1)) = console st1 ++ after
    /\ List.filter is_hook_call after
       = List.filter is_hook_call before
         ++ (if has_handler hookName config
             then [HookCall (name config) hookName args] else []).
Proof.
  intros Hacc. pose proof (install_cases config st) as C. rewrite Hacc in C.
  exists (installed st config), (printed order hookName args (listPlugins st)),
    (printed order1 hookName args (listPlugins (installed st config))).
  split; [exact C|].
  destruct (acceptable_fields st config Hacc) as (n & v & Hn & _).
  pose proof (acceptable_fresh st config n Hacc Hn) as Hfresh.
  assert (Hlist : listPlugins (installed st config) = listPlugins st ++ [config]).
  { unfold listPlugins, installed, map_values. simpl.
    rewrite Hn, map_set_fresh by exact Hfresh. now rewrite List.map_app. }
  split; [exact Hlist|].
  split; [now rewrite executeHook_run|].
  split; [now rewrite executeHook_run|].
  rewrite !printed_calls, Hlist, List.filter_app, List.map_app. simpl.
  now destruct (has_handler hookName config).
Qed.

Lemma installed_plugin_runs_last_witness :
  exists st1 before after,
    install lint fresh = (Ok tt, st1)
    /\ listPlugins st1 = listPlugins fresh ++ [lint]
    /\ console (snd (executeHook in_order HBeforeGenerate [] fresh))
       = console fresh ++ before
    /\ console (snd (executeHook in_order HBeforeGenerate [] st1))
       = console st1 ++ after
    /\ List.filter is_hook_call after
       = List.filter is_hook_call before
         ++ (if has_handler HBeforeGenerate lint
             then [HookCall (name lint) HBeforeGenerate []] else []).
Proof.
  exact (installed_plugin_runs_last lint fresh in_order in_order
           HBeforeGenerate [] eq_refl).
Defined.

Lemma hook_call_from (order : schedule) (hookName : hook_name) (args : list arg)
    (values : list PluginConfig) (k : value) (h : hook_name) (a : list arg) :
  In (HookCall k h a) (printed order hookName args values) ->
  exists plugin, In plugin values /\ name plugin = k
                 /\ has_handler hookName plugin = true.
Proof.
  intros Hin.
  assert (Hf : In (HookCall k h a)
                 (List.filter is_hook_call (printed order hookName args values))).
  { apply filter_In. now split. }
  rewrite printed_calls in Hf. apply in_map_iff in Hf as (p & [= <- _ _] & Hp).
  apply filter_In in Hp as [Hp Hh]. now exists p.
Qed.

(** X5: after [uninstall] has removed a plugin, [executeHook] no longer
    calls any handler under its name. *)
Theorem uninstalled_plugin_not_called (n : string) (st : state)
    (order : schedule) (hookName : hook_name) (args : list arg) :
  well_formed (plugins st) ->
  map_has (plugins st) (VStr n) = true ->
  exists st1 after,
    uninstall n st = (Ok tt, st1)
    /\ console (snd (executeHook order hookName args st1)) = console st1 ++ after
    /\ forall h a, ~ In (HookCall (VStr n) h a) after.
Proof.
  intros Hwf Hhas. pose proof (uninstall_cases n st) as C. rewrite Hhas in C.
  exists (uninstalled st n),
    (printed order hookName args (listPlugins (uninstalled st n))).
  split; [exact C|].
  split; [now rewrite executeHook_run|].
  intros h a Hin. apply hook_call_from in Hin as (p & Hp & Hname & _).
  assert (Hwf' : well_formed (plugins (uninstalled st n))).
  { pose proof (uninstall_well_formed n st Hwf) as W. now rewrite C in W. }
  destruct (well_formed_lookup _ Hwf') as [_ Hlist].
  destruct (Hlist p Hp) as (n' & Hn' & Hget).
  assert (n' = n) as -> by congruence.
  unfold getPlugin, uninstalled in Hget. simpl in Hget.
  destruct Hwf as [Hnd _]. now rewrite map_get_delete_eq in Hget.
Qed.

Lemma uninstalled_plugin_not_called_witness :
  exists st1 after,
    uninstall "lint" (run_ops [OpInstall lint] fresh) = (Ok tt, st1)
    /\ console (snd (executeHook in_order HBeforeGenerate [] st1))
       = console st1 ++ after
    /\ forall h a, ~ In (HookCall (VStr "lint") h a) after.
Proof.
  exact (uninstalled_plugin_not_called "lint" (run_ops [OpInstall lint] fresh)
           in_order HBeforeGenerate []
           (run_ops_well_formed [OpInstall lint] fresh
              (conj (List.NoDup_nil _) (List.Forall_nil _)))
           eq_refl).
Defined.

Lemma forward_events plugin hookName t e :
  In e (fst (forward plugin hookName t)) ->
  exists onErr,
    onError_of plugin = Some onErr
    /\ (e = OnErrorCall (name plugin) t (hook_context hookName)
        \/ exists t', onErr (onError_args t hookName) = Throws t'
                      /\ e = ConsoleError (onError_message plugin) t').
Proof.
  unfold forward. destruct (onError_of plugin) as [onErr|]; [|intros []].
  intros H. exists onErr. split; [reflexivity|].
  destruct (onErr (onError_args t hookName)) as [|t'|s] eqn:E; simpl in H;
    repeat destruct H as [<-|H]; try destruct H; eauto.
Qed.

Lemma failure_events hookName args values plugin t e :
  failure hookName args values plugin t ->
  e = ConsoleWarn (warn_message plugin hookName) t
  \/ In e (fst (forward plugin hookName t)) ->
  accounted hookName args values e.
Proof.
  intros F [->|Hin]; [simpl; eauto|].
  apply forward_events in Hin as (onErr & Hon & [->|(t' & Ht' & ->)]); simpl.
  - exists plugin. split; [exact F|]. split; [congruence|]. now split.
  - exists plugin, t, onErr. auto.
Qed.

Lemma sync_phase_accounted hookName args values plugin :
  In plugin values ->
  List.Forall (accounted hookName args values)
    (fst (sync_phase hookName args plugin))
  /\ List.Forall (fun p => List.Forall (accounted hookName args values)
                             (fst (reaction p)))
       (snd (sync_phase hookName args plugin)).
Proof.
  intros Hp. unfold sync_phase.
  destruct (handler_of plugin hookName) as [h|] eqn:Hh; [|split; constructor].
  assert (Hcall : accounted hookName args values
                    (HookCall (name plugin) hookName args)).
  { simpl. repeat split. exists plugin. unfold has_handler. now rewrite Hh. }
  destruct (h args) as [|t|s] eqn:Hr; simpl.
  - split; [|apply List.Forall_nil].
    apply List.Forall_cons; [exact Hcall | apply List.Forall_nil].
  - assert (F : failure hookName args values plugin t).
    { split; [exact Hp|]. exists h. split; [exact Hh | now left]. }
    split.
    + apply List.Forall_cons; [exact Hcall|]. apply List.Forall_cons.
      * apply (failure_events _ _ _ plugin t); auto.
      * apply List.Forall_forall. intros e He.
        apply (failure_events _ _ _ plugin t); auto.
    + destruct (snd (forward plugin hookName t));
        [apply List.Forall_cons; [apply List.Forall_nil|] |]; apply List.Forall_nil.
  - split; [apply List.Forall_cons; [exact Hcall | apply List.Forall_nil]|].
    apply List.Forall_cons; [|apply List.Forall_nil].
    destruct s as [|err|]; simpl; try apply List.Forall_nil.
    assert (F : failure hookName args values plugin err).
    { split; [exact Hp|]. exists h. split; [exact Hh | now right]. }
    apply List.Forall_cons.
    + apply (failure_events _ _ _ plugin err); auto.
    + apply List.Forall_forall. intros e He.
      apply (failure_events _ _ _ plugin err); auto.
Qed.

(** X6: what [executeHook] adds to the console is what the loop prints,
    plugin after plugin, followed by what the reactions to the rejected
    promises print, in whatever order the promises settle; and all of
    it is accounted for: a handler call is that of an installed plugin
    with a handler for the event, called with the arguments of the call;
    a warning, an [onError] call or an error line reports a handler of
    an installed plugin that failed; no log line is printed. *)
Theorem executeHook_reports_only_failures (order : schedule)
    (hookName : hook_name) (args : list arg) (st : state) :
  exists settling,
    Permutation settling (awaited hookName args (listPlugins st))
    /\ console (snd (executeHook order hookName args st))
       = console st ++ sync_events hookName args (listPlugins st)
         ++ reactions settling
    /\ List.Forall (accounted hookName args (listPlugins st))
         (sync_events hookName args (listPlugins st) ++ reactions settling).
Proof.
  exists (arrival order (awaited hookName args (listPlugins st))).
  split; [apply arrival_perm|].
  split; [now rewrite executeHook_run|].
  unfold sync_events, reactions, awaited. apply List.Forall_app. split.
  - apply List.Forall_flat_map, List.Forall_forall. intros plugin Hp.
    now apply sync_phase_accounted.
  - apply List.Forall_flat_map, List.Forall_forall. intros p Hp.
    apply (Permutation_in p (arrival_perm order _)) in Hp.
    apply in_flat_map in Hp as (plugin & Hplugin & Hp).
    destruct (sync_phase_accounted hookName args _ plugin Hplugin) as [_ H].
    rewrite List.Forall_forall in H. now apply H.
Qed.

End RegistryFacts.

(** ** The answers: defaults, validation, and the prompts asked *)

Module AnswerFacts.
Import EffectFacts Str CLIBuilder PromptSpec PromptFacts ValidationManager
  AnswerSpec.

Lemma get_set_eq (answers : dict) (n : string) (v : value) :
  get (set answers n v) n = v.
Proof. unfold get, set. now rewrite lookup_insert_eq. Qed.

(** [fillDefaults] in closed form. *)
Lemma fill_loop_lookup (ps : list PromptConfig) (n : string) :
  forall result,
  get (fill_loop ps result) n
  = if defined (get result n) then get result n else first_default ps n.
Proof.
  induction ps as [|prompt rest IH]; intros result; simpl.
  - destruct (get result n); reflexivity.
  - destruct (String.eqb_spec (name prompt) n) as [->|Hne]; simpl.
    + destruct (defined (get result n)) eqn:Hd; simpl.
      * rewrite IH, Hd. reflexivity.
      * destruct (defined (default prompt)) eqn:Hdef.
        -- rewrite IH, get_set_eq, Hdef. reflexivity.
        -- rewrite IH, Hd. reflexivity.
    + destruct (negb (defined (get result (name prompt))) && defined (default prompt)).
      * rewrite IH, get_set_ne by exact Hne. reflexivity.
      * apply IH.
Qed.

(** X10: for prompts none of which is named like a member of
    [Object.prototype], and for every name [n] that is no such member:
    with [--yes] no prompt is put to the user and nothing is printed;
    the answer for [n] is the one given on the command line or else the
    default of the first prompt of that name that declares one (whether
    or not that prompt would be shown), and [validateAnswers] accepts
    the result exactly when the answers for [projectName] and [template]
    obtained this way are truthy. [fillDefaults] has this closed form
    for every set of answers it starts from. (A name such as
    [constructor] reads as defined on the answers object before anything
    is stored under it, so a prompt of that name gets no default.) *)
Theorem unattended_answers (config : CLIConfig) (projectName : option string)
    (options : Options) (st : state) :
  own_names (prompts config) ->
  (forall answers n,
     inherited n = false ->
     get (fillDefaults config answers) n
     = if defined (get answers n) then get answers n
       else first_default (prompts config) n)
  /\ (opt_yes options = true ->
      exists answers,
        collectAnswers config projectName options st = (Ok answers, st)
        /\ (forall n,
              inherited n = false ->
              get answers n = unattended config projectName options n)
        /\ valid (validateAnswers answers)
           = truthy (unattended config projectName options "projectName")
             && truthy (unattended config projectName options "template")).
Proof.
  intros _. split.
  - intros answers n _. apply fill_loop_lookup.
  - intros Hyes. unfold collectAnswers. rewrite Hyes.
    eexists. split; [reflexivity|].
    assert (Hget : forall n,
      get (fillDefaults config (seed projectName options)) n
      = unattended config projectName options n).
    { intros n. apply fill_loop_lookup. }
    split; [intros n _; exact (Hget n)|].
    unfold validateAnswers. rewrite !Hget.
    destruct (truthy (unattended config projectName options "projectName"));
      [|reflexivity].
    now destruct (truthy (unattended config projectName options "template")).
Qed.

Lemma unattended_answers_witness :
  (forall answers n,
     inherited n = false ->
     get (fillDefaults (mkConfig [use_ts] false) answers) n
     = if defined (get answers n) then get answers n
       else first_default [use_ts] n)
  /\ (opt_yes (mkOptions None true false false) = true ->
      exists answers,
        collectAnswers (mkConfig [use_ts] false) (Some "app")
          (mkOptions None true false false) (mkState [] [] ModeAsync (UIManager.new None))
        = (Ok answers, mkState [] [] ModeAsync (UIManager.new None))
        /\ (forall n,
              inherited n = false ->
              get answers n
              = unattended (mkConfig [use_ts] false) (Some "app")
                  (mkOptions None true false false) n)
        /\ valid (validateAnswers answers)
           = truthy (unattended (mkConfig [use_ts] false) (Some "app")
                       (mkOptions None true false false) "projectName")
             && truthy (unattended (mkConfig [use_ts] false) (Some "app")
                          (mkOptions None true false false) "template")).
Proof.
  apply (unattended_answers (mkConfig [use_ts] false) (Some "app")
           (mkOptions None true false false) (mkState [] [] ModeAsync (UIManager.new None))).
  repeat constructor.
Defined.

Lemma seed_projectName (pn : string) (options : Options) :
  pn <> "" -> get (seed (Some pn) options) "projectName" = VStr pn.
Proof.
  intros Hpn. unfold seed. simpl.
  destruct (String.eqb_spec pn "") as [->|_]; [contradiction|]. simpl.
  destruct (opt_template options) as [t|]; [destruct (String.eqb t ""); simpl|];
    try apply get_set_eq.
  rewrite get_set_ne by discriminate. apply get_set_eq.
Qed.

Lemma seed_template (projectName : option string) (options : Options) (t : string) :
  opt_template options = Some t -> t <> "" ->
  get (seed projectName options) "template" = VStr t.
Proof.
  intros Ht Hne. unfold seed. rewrite Ht. simpl.
  destruct (String.eqb_spec t "") as [->|_]; [contradiction|]. simpl.
  apply get_set_eq.
Qed.

Lemma get_lookup (a b : dict) (n : string) :
  a !! n = b !! n -> get a n = get b n.
Proof. unfold get. now intros ->. Qed.

(** What [collectAnswers] returns keeps the answers of the command
    line. *)
Lemma collectAnswers_keeps (config : CLIConfig) (projectName : option string)
    (options : Options) (st : state) (answers : dict) (n : string) :
  defined (get (seed projectName options) n) = true ->
  fst (collectAnswers config projectName options st) = Ok answers ->
  get answers n = get (seed projectName options) n.
Proof.
  intros Hn. unfold collectAnswers.
  destruct (opt_yes options).
  - simpl. intros [= <-]. apply get_lookup. now apply fill_loop_keeps.
  - unfold bind at 1.
    destruct (when_ _ _ st) as [[[]|t|] st1]; simpl; try discriminate.
    intros Hrun. apply get_lookup.
    now apply (prompt_loop_keeps n (prompts config) _ st1).
Qed.

(** X11: a project name and a template given on the command line, both
    non-empty, are in the answers that [collectAnswers] returns, with or
    without [--yes] and whatever the prompts do, so [validateAnswers]
    accepts these answers. *)
Theorem command_line_answers_validate (config : CLIConfig) (pn t : string)
    (options : Options) (st : state) (answers : dict) :
  pn <> "" -> opt_template options = Some t -> t <> "" ->
  fst (collectAnswers config (Some pn) options st) = Ok answers ->
  get answers "projectName" = VStr pn
  /\ get answers "template" = VStr t
  /\ validateAnswers answers = mkVerdict true None.
Proof.
  intros Hpn Ht Hne Hrun.
  pose proof (seed_projectName pn options Hpn) as Sp.
  pose proof (seed_template (Some pn) options t Ht Hne) as Stp.
  assert (Ap : get answers "projectName" = VStr pn).
  { rewrite <- Sp. apply (collectAnswers_keeps config _ _ st); [now rewrite Sp | exact Hrun]. }
  assert (At : get answers "template" = VStr t).
  { rewrite <- Stp. apply (collectAnswers_keeps config _ _ st); [now rewrite Stp | exact Hrun]. }
  split; [exact Ap|]. split; [exact At|].
  unfold validateAnswers. rewrite Ap, At. simpl.
  destruct (String.eqb_spec pn "") as [->|_]; [contradiction|].
  destruct (String.eqb_spec t "") as [->|_]; [contradiction|]. reflexivity.
Qed.

Lemma command_line_answers_validate_witness :
  get (set (seed (Some "my-app") (mkOptions (Some "react") false false false))
         "useTs" (VBool true)) "projectName" = VStr "my-app"
  /\ get (set (seed (Some "my-app") (mkOptions (Some "react") false false false))
            "useTs" (VBool true)) "template" = VStr "react"
  /\ validateAnswers
       (set (seed (Some "my-app") (mkOptions (Some "react") false false false))
          "useTs" (VBool true))
     = mkVerdict true None.
Proof.
  apply (command_line_answers_validate (mkConfig [use_ts] false) "my-app" "react"
           (mkOptions (Some "react") false false false)
           (mkState ["y"] [] ModeAsync (UIManager.new None)));
    [discriminate | reflexivity | discriminate | reflexivity].
Defined.

Lemma processPrompt_input (prompt : PromptConfig) (answers : dict) :
  type prompt = TInput ->
  processPrompt prompt answers = handleInputPrompt prompt answers.
Proof. unfold processPrompt. now intros ->. Qed.

Lemma input_value_eq (prompt : PromptConfig) (line : string) :
  (if negb (truthy (VStr line)) && truthy (default prompt)
   then default prompt else VStr line) = input_value prompt line.
Proof. unfold input_value. simpl. now rewrite negb_involutive. Qed.

(** One round of the input loop on a line that the rule accepts. *)
Lemma input_round_accepted (prompt : PromptConfig) (answers : dict)
    (again : M state value) (st : state) (line : string) (rest : list string) :
  input st = line :: rest ->
  accepts prompt (input_value prompt line) answers = true ->
  input_round prompt answers again st
  = (Ok (input_value prompt line),
     mkState rest
       (terminal st ++ [Question (Some (name prompt)) (input_query prompt)])
       (mode st) (uiManager st)).
Proof.
  intros Hin Hacc. unfold input_round, bind, question. rewrite Hin.
  rewrite input_value_eq. unfold accepts in Hacc. fold (input_query prompt).
  destruct (validate prompt) as [rule|]; [|reflexivity].
  now destruct (ValidationRule.validate rule (input_value prompt line) answers).
Qed.

Lemma input_round_blocked (prompt : PromptConfig) (answers : dict)
    (again : M state value) (st : state) :
  input st = [] ->
  input_round prompt answers again st
  = (Blocked,
     mkState []
       (terminal st ++ [Question (Some (name prompt)) (input_query prompt)])
       (mode st) (uiManager st)).
Proof.
  intros Hin. unfold input_round, bind, question. rewrite Hin.
  fold (input_query prompt). reflexivity.
Qed.

(** X12: an input prompt asks its message, followed by the default in
    parentheses when the default is truthy; when the line typed (or, for
    the empty line, the truthy default in its place) passes the rule of
    the prompt, or there is no rule, this one question is all that
    happens and the value is the answer: the line as typed, without
    trimming, or the default itself. Without a line to read the call
    waits for ever after asking once. *)
Theorem input_prompt_accepted (prompt : PromptConfig) (answers : dict)
    (st : state) :
  (forall line rest,
     input st = line :: rest ->
     accepts prompt (input_value prompt line) answers = true ->
     handleInputPrompt prompt answers st
     = (Ok (input_value prompt line),
        mkState rest
          (terminal st ++ [Question (Some (name prompt)) (input_query prompt)])
          (mode st) (uiManager st)))
  /\ (input st = [] ->
      handleInputPrompt prompt answers st
      = (Blocked,
         mkState []
           (terminal st ++ [Question (Some (name prompt)) (input_query prompt)])
           (mode st) (uiManager st))).
Proof.
  unfold handleInputPrompt. split.
  - intros line rest Hin Hacc. destruct (List.length (input st)); simpl;
      now apply input_round_accepted.
  - intros Hin. destruct (List.length (input st)); simpl;
      now apply input_round_blocked.
Qed.

Lemma processPrompt_lacks_choices (prompt : PromptConfig) (answers : dict)
    (st : state) (msg : string) :
  lacks_choices prompt = Some msg ->
  processPrompt prompt answers st = (Throw (ErrorObj (plain_error msg)), st).
Proof.
  unfold lacks_choices, processPrompt, handleSelectPrompt, handleMultiSelectPrompt.
  destruct (type prompt); destruct (choices prompt); try discriminate;
    now intros [= <-].
Qed.

Lemma was_asked_true (prompt : PromptConfig) (answers : dict) :
  was_asked (prompt, answers) = true <->
  hidden prompt answers = false
  /\ defined (get answers (name prompt)) = false.
Proof.
  unfold was_asked. simpl. rewrite andb_true_iff, !negb_true_iff. tauto.
Qed.

Lemma was_asked_false (prompt : PromptConfig) (answers : dict) :
  hidden prompt answers || defined (get answers (name prompt)) = true ->
  was_asked (prompt, answers) = false.
Proof.
  unfold was_asked. simpl.
  destruct (hidden prompt answers); [reflexivity|]. simpl. now intros ->.
Qed.

(** X13: the keys of the answers that the prompt loop returns are the keys
    it started with and the names of the prompts it put to the user:
    every prompt that was neither hidden nor already answered at its turn
    has a key, and no other key appears. *)
Theorem answer_keys (ps : list PromptConfig) (answers : dict) (st : state)
    (out : dict) (st' : state) :
  prompt_loop ps answers st = (Ok out, st') ->
  forall n,
    is_Some (out !! n)
    <-> is_Some (answers !! n)
        \/ exists turn, In turn (turns ps answers st)
                        /\ was_asked turn = true /\ name (fst turn) = n.
Proof.
  revert answers st. induction ps as [|prompt rest IH]; intros answers st Hrun n.
  - simpl in Hrun. injection Hrun as <- _. simpl. split; [tauto|].
    intros [H|(turn & [] & _)]. exact H.
  - simpl turns.
    destruct (prompt_loop_cases prompt rest answers) as [[Hc E]|[Hh Hd]].
    + rewrite E in Hrun. rewrite Hc. rewrite (IH _ _ Hrun n).
      split; (intros [H|(turn & Hin & Ha & Hn)]; [now left|right]).
      * exists turn. split; [now right | auto].
      * destruct Hin as [<-|Hin]; [|now exists turn].
        rewrite was_asked_false in Ha by exact Hc. discriminate.
    + rewrite Hh, Hd. simpl.
      rewrite prompt_loop_ask in Hrun by assumption.
      destruct (processPrompt prompt answers st) as [[answer|t|] st1];
        try discriminate.
      rewrite (IH _ _ Hrun n). unfold set.
      destruct (String.eqb_spec (name prompt) n) as [<-|Hne].
      * rewrite lookup_insert_eq. split; [|eauto]. intros _. right.
        exists (prompt, answers). split; [now left|]. split; [|reflexivity].
        now apply was_asked_true.
      * rewrite lookup_insert_ne by exact Hne.
        split; (intros [H|(turn & Hin & Ha & Hn)]; [now left|right]).
        -- exists turn. split; [now right | auto].
        -- destruct Hin as [<-|Hin]; [contradiction | now exists turn].
Qed.

Lemma answer_keys_witness :
  is_Some (set (∅ : dict) "useTs" (VBool true) !! "useTs")
  <-> is_Some ((∅ : dict) !! "useTs")
      \/ exists turn,
           In turn (turns [use_ts] ∅ (mkState ["y"] [] ModeAsync (UIManager.new None)))
           /\ was_asked turn = true /\ name (fst turn) = "useTs".
Proof.
  apply (answer_keys [use_ts] ∅ (mkState ["y"] [] ModeAsync (UIManager.new None))
           (set ∅ "useTs" (VBool true))
           (snd (prompt_loop [use_ts] ∅ (mkState ["y"] [] ModeAsync (UIManager.new None))))).
  reflexivity.
Defined.

(** X14: when the loop comes to a select or multiselect prompt that
    declares no choices, and the prompt is neither hidden nor answered,
    the loop throws the [Error] that says so: the prompts after it are
    not reached and no answers are returned. This is so when the
    presenter has not been called on the way, that is, when no prompt
    before was a select or multiselect prompt with choices and no input
    had to be asked again. *)
Theorem missing_choices_abort (ps : list PromptConfig) (answers : dict)
    (st : state) (turn : PromptConfig * dict) (msg : string) :
  In turn (turns ps answers st) ->
  was_asked turn = true ->
  lacks_choices (fst turn) = Some msg ->
  presenter_unused (snd (prompt_loop ps answers st)) ->
  fst (prompt_loop ps answers st) = Throw (ErrorObj (plain_error msg)).
Proof.
  intros Hin Ha Hl _. revert answers st Hin.
  induction ps as [|prompt rest IH]; intros answers st Hin; [destruct Hin|].
  simpl in Hin.
  destruct (prompt_loop_cases prompt rest answers) as [[Hc E]|[Hh Hd]].
  - rewrite E. rewrite Hc in Hin. destruct Hin as [<-|Hin]; [|now apply IH].
    rewrite was_asked_false in Ha by exact Hc. discriminate.
  - rewrite Hh, Hd in Hin. simpl in Hin.
    rewrite prompt_loop_ask by assumption.
    destruct Hin as [<-|Hin].
    + simpl in Hl. now rewrite (processPrompt_lacks_choices _ _ _ _ Hl).
    + destruct (processPrompt prompt answers st) as [[answer|t|] st1];
        [now apply IH | destruct Hin | destruct Hin].
Qed.

Lemma missing_choices_abort_witness :
  fst (prompt_loop
         [use_ts; mkPrompt "framework" TSelect "Framework?" VUndefined None None
                    None None; ts_strict]
         ∅ (mkState ["y"; "1"; "y"] [] ModeAsync (UIManager.new None)))
  = Throw (ErrorObj (plain_error "Select prompt requires choices")).
Proof.
  apply (missing_choices_abort _ ∅ (mkState ["y"; "1"; "y"] [] ModeAsync (UIManager.new None))
           (mkPrompt "framework" TSelect "Framework?" VUndefined None None None
              None,
            set ∅ "useTs" (VBool true))
           "Select prompt requires choices");
    [right; left; reflexivity | reflexivity | reflexivity | reflexivity].
Defined.

End AnswerFacts.

(** ** The generator: what reaches the file system and the shell *)

Module TraceFacts.
Import EffectFacts ProjectGenerator GeneratorSpec GeneratorFacts TraceSpec.

Lemma appends_ret {A} P (a : A) : appends P (ret a).
Proof. intros st. exists []. simpl. now rewrite app_nil_r. Qed.

Lemma appends_throw {A} P t : appends P (@throw state A t).
Proof. intros st. exists []. simpl. now rewrite app_nil_r. Qed.

Lemma appends_emit (P : event -> bool) e : P e = true -> appends P (emit e).
Proof. intros He st. exists [e]. simpl. now rewrite He. Qed.

Lemma appends_syscall (P : event -> bool) e oracle :
  P e = true -> appends P (syscall e oracle).
Proof.
  intros He st. exists [e]. unfold syscall. simpl. rewrite He.
  now destruct (oracle st).
Qed.

Lemma appends_bind {A B} P (m : M state A) (k : A -> M state B) :
  appends P m -> (forall a, appends P (k a)) -> appends P (bind m k).
Proof.
  intros Hm Hk st. destruct (Hm st) as (evs1 & E1 & F1). unfold bind.
  destruct (m st) as [[a|t|] st1]; simpl in *; [|now exists evs1..].
  destruct (Hk a st1) as (evs2 & E2 & F2). exists (evs1 ++ evs2).
  rewrite E2, E1, app_assoc, forallb_app, F1, F2. auto.
Qed.

Lemma appends_try_catch {A} P (m : M state A) (h : thrown -> M state A) :
  appends P m -> (forall t, appends P (h t)) -> appends P (try_catch m h).
Proof.
  intros Hm Hh st. destruct (Hm st) as (evs1 & E1 & F1). unfold try_catch.
  destruct (m st) as [[a|t|] st1]; simpl in *; [now exists evs1| |now exists evs1].
  destruct (Hh t st1) as (evs2 & E2 & F2). exists (evs1 ++ evs2).
  rewrite E2, E1, app_assoc, forallb_app, F1, F2. auto.
Qed.

Lemma appends_for_each {A} P (l : list A) (body : A -> M state unit) :
  (forall a, appends P (body a)) -> appends P (for_each l body).
Proof.
  intros Hb. induction l as [|a l IH]; simpl; [apply appends_ret|].
  apply appends_bind; [apply Hb | intros _; exact IH].
Qed.

Section WithNode.
Context `{Node}.

Lemma appends_ensureDir dirPath : appends is_file_step (ensureDir dirPath).
Proof.
  unfold ensureDir. apply appends_try_catch; [now apply appends_syscall|].
  intros [e|v]; [|apply appends_ret].
  destruct (e_code e) as [code|]; [|apply appends_ret].
  destruct (negb _); [apply appends_throw | apply appends_ret].
Qed.

Lemma appends_writeFile filePath data : appends is_file_step (writeFile filePath data).
Proof.
  unfold writeFile. apply appends_bind; [apply appends_ensureDir | intros _].
  now apply appends_syscall.
Qed.

Lemma appends_generateFiles template config projectPath :
  appends is_file_step (generateFiles template config projectPath).
Proof.
  unfold generateFiles. apply appends_bind; [now apply appends_emit | intros _].
  apply appends_try_catch.
  - apply appends_bind; [|intros _; now apply appends_emit].
    apply appends_for_each. intros file. unfold generate_file.
    destruct (match Files.condition file with Some _ => _ | None => _ end);
      [apply appends_ret|].
    apply appends_bind; [apply appends_ensureDir | intros _; apply appends_writeFile].
  - intros t. apply appends_bind; [now apply appends_emit | intros _].
    destruct t; apply appends_throw.
Qed.

Lemma appends_generatePackageJson template config projectPath :
  appends is_file_step (generatePackageJson template config projectPath).
Proof.
  unfold generatePackageJson, writeJson.
  apply appends_try_catch; [apply appends_writeFile|].
  intros t. destruct t; apply appends_throw.
Qed.

(** The steps up to the manifest only touch files; when they succeed the
    manifest is among what they wrote. *)
Lemma prepare_trace template config st :
  exists evs,
    snd (prepare template config st) = st ++ evs
    /\ forallb is_file_step evs = true
    /\ (fst (prepare template config st) = Ok tt ->
        manifest_written template config evs).
Proof.
  assert (Ha : appends is_file_step
                 (ensureDir (project_path config) ;;;
                  generateFiles template config (project_path config))).
  { apply appends_bind; [apply appends_ensureDir | intros _].
    apply appends_generateFiles. }
  destruct (prepare template config st) as [r st'] eqn:E. simpl.
  unfold prepare in E. rewrite <- bind_assoc_pt in E. unfold bind at 1 in E.
  destruct (Ha st) as (evs1 & E1 & F1).
  destruct ((ensureDir (project_path config) ;;;
             generateFiles template config (project_path config)) st)
    as [[[]|t|] st1]; simpl in E1; subst st1.
  - destruct (generatePackageJson_run template config (project_path config)
                (st ++ evs1)) as [[Er Es]|[[t Er] Es]];
      rewrite E in Er, Es; simpl in Er, Es; subst r.
    + eexists. rewrite Es, <- app_assoc. split; [reflexivity|].
      split; [rewrite forallb_app, F1; reflexivity|].
      intros _. apply in_or_app. right. unfold manifest_written, manifest_path.
      simpl. auto.
    + destruct Es as [Es|Es]; eexists; rewrite Es, <- app_assoc;
        (split; [reflexivity|]);
        (split; [rewrite forallb_app, F1; reflexivity|]); discriminate.
  - injection E as <- <-. exists evs1. repeat split; auto. discriminate.
  - injection E as <- <-. exists evs1. repeat split; auto. discriminate.
Qed.

Lemma before_postInstall_trace template config st :
  exists files install,
    snd (before_postInstall template config st) = st ++ files ++ install
    /\ forallb is_file_step files = true
    /\ (install = []
        \/ installs template config = true
           /\ manifest_written template config files
           /\ exists tail,
                install = SpinnerStart "Installing dependencies..."
                          :: Exec "npm install" (project_path config) :: tail
                /\ forallb is_quiet tail = true)
    /\ (fst (before_postInstall template config st) = Ok tt ->
        manifest_written template config files).
Proof.
  destruct (prepare_trace template config st) as (files & E & F & Hm).
  exists files. unfold before_postInstall, bind.
  destruct (prepare template config st) as [[[]|t|] st1]; simpl in E; subst st1.
  - specialize (Hm eq_refl). unfold when_.
    destruct (installs template config) eqn:Hi.
    + pose proof (installDependencies_run (project_path config) (st ++ files)) as R.
      cbv zeta in R. rewrite R.
      destruct (exec _ "npm install" (project_path config)) as [[e|v]|]; simpl;
        eexists; rewrite <- ?app_assoc;
        (split; [reflexivity|]); (split; [exact F|]);
        (split; [right; split; [reflexivity|]; split; [exact Hm|];
                 eexists; split; reflexivity | auto]).
    + exists []. simpl. rewrite app_nil_r. auto.
  - exists []. simpl. rewrite app_nil_r. repeat split; auto; discriminate.
  - exists []. simpl. rewrite app_nil_r. repeat split; auto; discriminate.
Qed.

(** X15: of everything that can go wrong in [generate], the caller only
    ever sees one kind of [Error]: a rejection with an [Error] instance
    is a [FileSystemError] with code [FILESYSTEM_ERROR], the context
    [operation: 'generate'] with the project name and the template, and
    the message [Failed to generate project: ] followed by the message
    of the failure, be it a failed command or a failed [postInstall];
    the class, code and context of the cause are lost. *)
Theorem generate_rejects_with_filesystem_error (template : TemplateConfig)
    (config : GeneratorConfig.t) (st : state) (e : error) :
  fst (generate template config st) = Throw (ErrorObj e) ->
  e_class e = FileSystemError
  /\ e_code e = Some "FILESYSTEM_ERROR"
  /\ e_context e
     = mkContext (Some "generate") (Some (GeneratorConfig.projectName config))
         (Some (GeneratorConfig.template config)) None []
  /\ exists cause, e_message e = "Failed to generate project: " +:+ e_message cause.
Proof.
  assert (Hw : forall t, as_rejected config t = ErrorObj e ->
    e_class e = FileSystemError
    /\ e_code e = Some "FILESYSTEM_ERROR"
    /\ e_context e
       = mkContext (Some "generate") (Some (GeneratorConfig.projectName config))
           (Some (GeneratorConfig.template config)) None []
    /\ exists cause, e_message e = "Failed to generate project: " +:+ e_message cause).
  { intros [cause|v]; simpl; [|discriminate]. intros [= <-]. simpl.
    repeat split. now exists cause. }
  rewrite generate_steps.
  destruct (before_postInstall template config st) as [[[]|t|] st1]; simpl.
  - destruct (postInstall template) as [f|]; simpl; [|discriminate].
    destruct (f _ _) as [|t|[|t|]]; simpl; try discriminate;
      intros [= E]; now apply (Hw t).
  - intros [= E]. now apply (Hw t).
  - discriminate.
Qed.

(** X16: what [generate] does outside the project files. The command
    [npm install] is run at most once, in the project directory, and only
    when the template declares dependencies, the answer [installDeps] is
    not [false], and the manifest has been written;
    [postInstall] is called at most once, as the last thing [generate]
    does, and only when the manifest has been written; everything before
    is directory creation, file writing and the spinner. *)
Theorem generate_effects (template : TemplateConfig) (config : GeneratorConfig.t)
    (st : state) :
  exists files install post,
    snd (generate template config st) = st ++ files ++ install ++ post
    /\ forallb is_file_step files = true
    /\ (install = []
        \/ installs template config = true
           /\ manifest_written template config files
           /\ exists tail,
                install = SpinnerStart "Installing dependencies..."
                          :: Exec "npm install" (project_path config) :: tail
                /\ forallb is_quiet tail = true)
    /\ (post = []
        \/ manifest_written template config files
           /\ postInstall template <> None
           /\ post = [PostInstallCall (project_path config)
                        (GeneratorConfig.answers config)]).
Proof.
  destruct (before_postInstall_trace template config st)
    as (files & install & E & F & Hi & Hm).
  exists files, install. rewrite generate_steps.
  destruct (before_postInstall template config st) as [[[]|t|] st1];
    simpl in E; subst st1.
  - specialize (Hm eq_refl). destruct (postInstall template) as [f|] eqn:Hp.
    + eexists. simpl. rewrite <- !app_assoc. split; [reflexivity|].
      split; [exact F|]. split; [exact Hi|]. right. now repeat split.
    + exists []. simpl. rewrite !app_nil_r. auto.
  - exists []. simpl. rewrite !app_nil_r. auto.
  - exists []. simpl. rewrite !app_nil_r. auto.
Qed.

(** The body of the loop of [generateFiles] on one file. *)
Lemma generate_file_run config projectPath file st :
  if included config file
  then generate_file config projectPath file st
       = (Ok tt, st ++ file_events config projectPath file)
       \/ exists t k,
            1 <= k <= 3
            /\ generate_file config projectPath file st
               = (Throw t, st ++ firstn k (file_events config projectPath file))
  else generate_file config projectPath file st = (Ok tt, st).
Proof.
  assert (Hbody :
    (ensureDir (path_dirname (path_join projectPath (Files.path file))) ;;;
     writeFile (path_join projectPath (Files.path file)) (content_of config file)) st
    = (Ok tt, st ++ file_events config projectPath file)
    \/ exists t k,
         1 <= k <= 3
         /\ (ensureDir (path_dirname (path_join projectPath (Files.path file))) ;;;
             writeFile (path_join projectPath (Files.path file))
               (content_of config file)) st
            = (Throw t, st ++ firstn k (file_events config projectPath file))).
  { unfold bind, file_events.
    set (filePath := path_join projectPath (Files.path file)).
    destruct (ensureDir_run (path_dirname filePath) st) as [Es [Er|[t Er]]];
      destruct (ensureDir (path_dirname filePath) st) as [r st1];
      simpl in Es, Er; subst r st1.
    - destruct (writeFile_run filePath (content_of config file)
                  (st ++ [Mkdir (path_dirname filePath)]))
        as [[Er Es]|[[t Er] [Es|Es]]];
        destruct (writeFile filePath (content_of config file) _) as [r st2];
        simpl in Er, Es; subst r st2; rewrite <- app_assoc; simpl.
      + now left.
      + right. exists t, 2. split; [lia | reflexivity].
      + right. exists t, 3. split; [lia | reflexivity].
    - right. exists t, 1. split; [lia | reflexivity]. }
  unfold generate_file, included, content_of in *.
  destruct (Files.condition file) as [c|]; [|exact Hbody].
  destruct (c (GeneratorConfig.answers config)); [exact Hbody | reflexivity].
Qed.

Lemma for_each_files_run config projectPath (fs : list Files.t) :
  forall st,
  for_each fs (generate_file config projectPath) st
  = (Ok tt, st ++ flat_map (file_events config projectPath)
                    (List.filter (included config) fs))
  \/ exists t done f rest k,
       List.filter (included config) fs = done ++ f :: rest
       /\ 1 <= k <= 3
       /\ for_each fs (generate_file config projectPath) st
          = (Throw t,
             st ++ flat_map (file_events config projectPath) done
                ++ firstn k (file_events config projectPath f)).
Proof.
  induction fs as [|file fs IH]; intros st; simpl.
  - left. now rewrite app_nil_r.
  - pose proof (generate_file_run config projectPath file st) as Hf.
    unfold bind. destruct (included config file) eqn:Hinc.
    + destruct Hf as [->|(t & k & Hk & ->)].
      * destruct (IH (st ++ file_events config projectPath file))
          as [->|(t & done & f & rest & k & Hfs & Hk & ->)].
        -- left. simpl. now rewrite <- app_assoc.
        -- right. exists t, (file :: done), f, rest, k. rewrite Hfs.
           split; [reflexivity|]. split; [exact Hk|].
           simpl. now rewrite <- !app_assoc.
      * right. exists t, [], file, (List.filter (included config) fs), k.
        split; [reflexivity|]. split; [exact Hk | reflexivity].
    + rewrite Hf. destruct (IH st) as [->|(t & done & f & rest & k & Hfs & Hk & ->)].
      * now left.
      * right. exists t, done, f, rest, k. auto.
Qed.

(** X17: [generateFiles] goes through the files of the template in the
    order declared and skips those whose condition fails. For each of the
    others it creates the directory (twice: once itself, once inside
    [writeFile]) and writes the content. When all goes well the trace is
    exactly that, between the start and the success of the spinner.
    Otherwise it stops at the first call that fails: the files before
    are complete, the files after are not touched, the spinner fails,
    and the failure is thrown, wrapped in a [FileSystemError] with
    [operation: 'generateFiles'] when it is an [Error]. *)
Theorem generateFiles_trace (template : TemplateConfig) (config : GeneratorConfig.t)
    (projectPath : string) (st : state) :
  generateFiles template config projectPath st
  = (Ok tt,
     st ++ [SpinnerStart "Generating project files..."]
        ++ flat_map (file_events config projectPath)
             (List.filter (included config) (files template))
        ++ [SpinnerSucceed "Project files generated"])
  \/ exists t done f rest k,
       List.filter (included config) (files template) = done ++ f :: rest
       /\ 1 <= k <= 3
       /\ generateFiles template config projectPath st
          = (Throw (files_error config t),
             st ++ [SpinnerStart "Generating project files..."]
                ++ flat_map (file_events config projectPath) done
                ++ firstn k (file_events config projectPath f)
                ++ [SpinnerFail "Failed to generate project files"]).
Proof.
  unfold generateFiles, try_catch, bind, emit, modify, throw. simpl.
  destruct (for_each_files_run config projectPath (files template)
              (st ++ [SpinnerStart "Generating project files..."]))
    as [E|(t & done & f & rest & k & Hfs & Hk & E)]; rewrite E.
  - left. now rewrite <- ?app_assoc.
  - right. exists t, done, f, rest, k. split; [exact Hfs|]. split; [exact Hk|].
    destruct t as [e|v]; simpl; now rewrite <- ?app_assoc.
Qed.

(** X18: the two file helpers. [ensureDir] calls [mkdir] once and throws
    exactly when [mkdir] fails with an [Error] that carries a code other
    than [EEXIST], and then throws that same error; any other failure
    ([EEXIST], an [Error] without a code, a value that is not an
    [Error]) is swallowed. [writeFile] attempts the write exactly when
    [ensureDir] on the directory of the file did not throw, and what it
    throws is the failure of [mkdir] or of the write itself, as it
    is. *)
Theorem file_helpers_outcome (dirPath filePath data : string) (st : state) :
  ensureDir dirPath st
  = (match mkdir st dirPath with
     | Some t => if fatal_mkdir t then Throw t else Ok tt
     | None => Ok tt
     end, st ++ [Mkdir dirPath])
  /\ writeFile filePath data st
     = match fst (ensureDir (path_dirname filePath) st) with
       | Ok _ =>
           (match fsWriteFile (st ++ [Mkdir (path_dirname filePath)]) filePath data with
            | Some t => Throw t
            | None => Ok tt
            end,
            st ++ [Mkdir (path_dirname filePath); FsWrite filePath data])
       | r => (r, st ++ [Mkdir (path_dirname filePath)])
       end.
Proof.
  assert (He : forall d, ensureDir d st
    = (match mkdir st d with
       | Some t => if fatal_mkdir t then Throw t else Ok tt
       | None => Ok tt
       end, st ++ [Mkdir d])).
  { intros d. unfold ensureDir, try_catch, syscall, fatal_mkdir.
    destruct (mkdir st d) as [[e|v]|]; simpl; try reflexivity.
    destruct (e_code e) as [code|]; simpl; [|reflexivity].
    now destruct (negb (String.eqb code "EEXIST")). }
  split; [apply He|].
  unfold writeFile, bind. rewrite He. simpl.
  destruct (match mkdir st (path_dirname filePath) with
            | Some t => if fatal_mkdir t then Throw t else Ok tt
            | None => Ok tt
            end) as [[]|t|]; try reflexivity.
  unfold syscall. rewrite <- app_assoc. simpl.
  now destruct (fsWriteFile _ filePath data).
Qed.

End WithNode.

Lemma generate_rejects_with_filesystem_error_witness :
  e_class (ErrorFactory.filesystem
             "Failed to generate project: Failed to install dependencies: npm ERR! network"
             (mkContext (Some "generate") (Some "my-app") (Some "react") None []))
  = FileSystemError
  /\ e_code (ErrorFactory.filesystem
               "Failed to generate project: Failed to install dependencies: npm ERR! network"
               (mkContext (Some "generate") (Some "my-app") (Some "react") None []))
     = Some "FILESYSTEM_ERROR"
  /\ e_context (ErrorFactory.filesystem
                  "Failed to generate project: Failed to install dependencies: npm ERR! network"
                  (mkContext (Some "generate") (Some "my-app") (Some "react") None []))
     = mkContext (Some "generate") (Some (GeneratorConfig.projectName my_app))
         (Some (GeneratorConfig.template my_app)) None []
  /\ exists cause,
       e_message (ErrorFactory.filesystem
                    "Failed to generate project: Failed to install dependencies: npm ERR! network"
                    (mkContext (Some "generate") (Some "my-app") (Some "react") None []))
       = "Failed to generate project: " +:+ e_message cause.
Proof.
  exact (@generate_rejects_with_filesystem_error (test_node (Some npm_error))
           react my_app []
           (ErrorFactory.filesystem
              "Failed to generate project: Failed to install dependencies: npm ERR! network"
              (mkContext (Some "generate") (Some "my-app") (Some "react") None []))
           eq_refl).
Defined.

End TraceFacts.

(** ** The validators *)

Module ValidatorFacts.
Import Regex RegexLang Str Version RegexFacts VersionFacts Themes Validators
  ValidatorSpec CLIBuilder.

Lemma name_char_not_space (c : ascii) :
  is_name_char c = true -> is_whitespace c = false.
Proof.
  destruct c as [[] [] [] [] [] [] [] []]; vm_compute; congruence.
Qed.

Lemma trimEnd_ink (c : ascii) (s : string) :
  is_whitespace c = false -> trimEnd (String c s) <> "".
Proof.
  intros Hc. simpl. destruct (trimEnd s); [rewrite Hc|]; discriminate.
Qed.

Lemma trim_ink (c : ascii) (s : string) :
  is_whitespace c = false -> trim (String c s) <> "".
Proof.
  intros Hc. unfold trim. simpl. rewrite Hc. now apply trimEnd_ink.
Qed.

Lemma length_zero (s : string) : Nat.eqb (String.length s) 0 = true <-> s = "".
Proof. destruct s; simpl; split; congruence. Qed.

Lemma substring_0_0 (s : string) : String.substring 0 0 s = "".
Proof. now destruct s. Qed.

Lemma startsWith_first (s : string) (c : ascii) :
  startsWith s (String c "") = true <-> first_char s = Some c.
Proof.
  unfold startsWith. rewrite String.prefix_correct.
  destruct s as [|c' s]; simpl; [split; discriminate|].
  rewrite substring_0_0. split; intros [= ->]; reflexivity.
Qed.

Lemma last_substring (s : string) (c : ascii) :
  last_char s = Some c ->
  String.substring (String.length s - 1) 1 s = String c "".
Proof.
  induction s as [|c' s IH]; [discriminate|].
  destruct s as [|c'' s].
  - simpl. now intros [= ->].
  - intros Hl. specialize (IH Hl). simpl in IH |- *.
    now rewrite Nat.sub_0_r in IH.
Qed.

Lemma last_char_some (c : ascii) (s : string) :
  exists l, last_char (String c s) = Some l.
Proof.
  revert c. induction s as [|c' s IH]; intros c; [now exists c|].
  destruct (IH c') as [l Hl]. exists l. exact Hl.
Qed.

Lemma endsWith_last (s : string) (c : ascii) :
  endsWith s (String c "") = true <-> last_char s = Some c.
Proof.
  unfold endsWith. change (String.length (String c "")) with 1.
  destruct s as [|c' s]; [simpl; split; discriminate|].
  destruct (last_char_some c' s) as [l Hl].
  rewrite (last_substring _ _ Hl), Hl. simpl.
  destruct (Ascii.eqb_spec l c) as [->|Hne].
  - split; reflexivity.
  - split; [discriminate | intros [= ?]; contradiction].
Qed.

Lemma run_first_char (p : ascii -> bool) (s : string) :
  run p s -> exists c s', s = String c s' /\ p c = true.
Proof.
  intros [Hne Hall]. destruct s as [|c s']; [contradiction|].
  simpl in Hall. apply andb_true_iff in Hall as [Hc _]. eauto.
Qed.

Lemma matches_nameRegex (s : string) :
  matches nameRegex s = true <-> run is_name_char s.
Proof. unfold nameRegex. rewrite matches_lang. apply lang_plus_chr. Qed.

Lemma not_Some_true (b : bool) (o : option ascii) (c : ascii) :
  (b = true <-> o = Some c) -> (b = false <-> o <> Some c).
Proof.
  destruct b; intros [H1 H2]; split.
  - discriminate.
  - intros Hne. exfalso. apply Hne. now apply H1.
  - intros _ E. specialize (H2 E). discriminate.
  - reflexivity.
Qed.

(** X19: the rule [validators.projectName] answers [true] exactly for the
    names made of letters, digits, hyphens and underscores, at least one,
    that neither start nor end with a hyphen; a name that is empty or
    blank gets the message about emptiness; and [validateProjectName]
    gives the same verdict as the rule, with the same message, on every
    string. *)
Theorem project_name_rule (value : string) :
  (projectName value = ValidTrue <-> well_named value)
  /\ (trim value = "" ->
      projectName value = ValidMessage "Project name cannot be empty")
  /\ validateProjectName value = verdict_of (projectName value).
Proof.
  split; [|split].
  - unfold projectName, well_named.
    pose proof (matches_nameRegex value) as Hm.
    pose proof (not_Some_true _ _ _ (startsWith_first value "-")) as Hs.
    pose proof (not_Some_true _ _ _ (endsWith_last value "-")) as He.
    split.
    + destruct (negb (truthy (VStr value)) || _); [discriminate|].
      destruct (matches nameRegex value); [|discriminate]. simpl.
      destruct (startsWith value "-"); [discriminate|].
      destruct (endsWith value "-"); [discriminate|]. intros _.
      split; [now apply Hm|]. split; [now apply Hs | now apply He].
    + intros (Hrun & Hf & Hl).
      destruct (run_first_char _ _ Hrun) as (c & s' & -> & Hc).
      apply name_char_not_space in Hc.
      assert (Nat.eqb (String.length (trim (String c s'))) 0 = false) as ->.
      { destruct (Nat.eqb _ 0) eqn:E; [|reflexivity].
        apply length_zero in E. now apply trim_ink in E. }
      apply Hm in Hrun. rewrite Hrun. apply Hs in Hf. apply He in Hl.
      rewrite Hf, Hl. reflexivity.
  - intros Ht. unfold projectName. rewrite Ht. simpl.
    now rewrite orb_true_r.
  - unfold validateProjectName, projectName.
    destruct (negb (truthy (VStr value)) || _); [reflexivity|].
    destruct (negb (matches nameRegex value)); [reflexivity|].
    now destruct (startsWith value "-" || endsWith value "-").
Qed.

Lemma all_chars_append (p : ascii -> bool) (a b : string) :
  all_chars p (a +:+ b) = all_chars p a && all_chars p b.
Proof.
  induction a as [|c a IH]; simpl; [reflexivity|].
  now rewrite IH, andb_assoc.
Qed.

Lemma count_char_append (c : ascii) (a b : string) :
  count_char c (a +:+ b) = count_char c a + count_char c b.
Proof.
  induction a as [|c' a IH]; simpl; [reflexivity|]. rewrite IH. lia.
Qed.

Lemma email_chars (s : string) :
  all_chars is_email_char s = true ->
  all_chars (fun c => negb (is_whitespace c)) s = true /\ count_char "@" s = 0.
Proof.
  induction s as [|c s IH]; simpl; [auto|].
  unfold is_email_char at 1. rewrite !andb_true_iff.
  intros [[Hw Ha] Hs]. destruct (IH Hs) as [-> ->]. rewrite Hw.
  apply negb_true_iff in Ha. rewrite Ha. auto.
Qed.

Lemma email_shape (value : string) :
  email value = ValidTrue ->
  all_chars (fun c => negb (is_whitespace c)) value = true
  /\ count_char "@" value = 1.
Proof.
  unfold email. destruct (matches emailRegex value) eqn:Hm; [|discriminate].
  intros _. apply matches_lang in Hm. unfold emailRegex in Hm.
  apply lang_seq_inv in Hm as (local & r1 & -> & Ll & L).
  apply lang_seq_inv in L as (at_ & r2 & -> & La & L).
  apply lang_seq_inv in L as (host & r3 & -> & Lh & L).
  apply lang_seq_inv in L as (dot & tld & -> & Ld & Lt).
  apply lang_lit in La as ->. apply lang_lit in Ld as ->.
  apply lang_plus_chr in Ll as [_ Hl]. apply lang_plus_chr in Lh as [_ Hh].
  apply lang_plus_chr in Lt as [_ Ht].
  apply email_chars in Hl as [Hl1 Hl2]. apply email_chars in Hh as [Hh1 Hh2].
  apply email_chars in Ht as [Ht1 Ht2].
  rewrite !all_chars_append, !count_char_append, Hl1, Hh1, Ht1, Hl2, Hh2, Ht2.
  split; reflexivity.
Qed.

Lemma email_rule_aux (value : string) :
  (email value = ValidTrue <-> address value)
  /\ (email value = ValidTrue
      \/ email value = ValidMessage "Please enter a valid email address").
Proof.
  assert (Hm : matches emailRegex value = true <-> address value).
  { rewrite matches_lang. unfold emailRegex, address. split.
    - intros L.
      apply lang_seq_inv in L as (local & r1 & -> & Ll & L).
      apply lang_seq_inv in L as (at_ & r2 & -> & La & L).
      apply lang_seq_inv in L as (host & r3 & -> & Lh & L).
      apply lang_seq_inv in L as (dot & tld & -> & Ld & Lt).
      apply lang_lit in La as ->. apply lang_lit in Ld as ->.
      exists local, host, tld. split; [reflexivity|].
      split; [now apply lang_plus_chr|].
      split; now apply lang_plus_chr.
    - intros (local & host & tld & -> & Hl & Hh & Ht).
      apply LSeq; [now apply lang_plus_chr|].
      apply (LSeq _ _ "@" _); [now apply lang_lit|].
      apply LSeq; [now apply lang_plus_chr|].
      apply (LSeq _ _ "." _); [now apply lang_lit|].
      now apply lang_plus_chr. }
  unfold email. destruct (matches emailRegex value).
  - split; [|now left]. split; [intros _; now apply Hm | reflexivity].
  - split; [|now right]. split; [discriminate|].
    intros Ha. apply Hm in Ha. discriminate.
Qed.

(** X20: the rule [validators.email] answers [true] exactly for the
    strings of the form local@host.tld in which the three parts are not
    empty and contain neither white space nor [@]; every other string
    gets the message. So an accepted string has no white space and
    exactly one [@]. *)
Theorem email_rule (value : string) :
  (email value = ValidTrue <-> address value)
  /\ (email value = ValidTrue
      \/ email value = ValidMessage "Please enter a valid email address")
  /\ (email value = ValidTrue ->
      all_chars (fun c => negb (is_whitespace c)) value = true
      /\ count_char "@" value = 1).
Proof.
  split; [apply email_rule_aux|]. split; [apply email_rule_aux | apply email_shape].
Qed.

Lemma trimStart_ink (s : string) : has_ink (trimStart s) = has_ink s.
Proof.
  induction s as [|c s IH]; simpl; [reflexivity|].
  destruct (is_whitespace c) eqn:Hc; simpl; [exact IH | now rewrite Hc].
Qed.

Lemma trimEnd_empty (s : string) : trimEnd s = "" <-> has_ink s = false.
Proof.
  induction s as [|c s IH]; simpl; [tauto|].
  destruct (trimEnd s) as [|c' t].
  - destruct (is_whitespace c); simpl.
    + split; [intros _; now apply IH | reflexivity].
    + split; discriminate.
  - split; [discriminate|]. rewrite orb_false_iff. intros [_ Hs].
    apply IH in Hs. discriminate.
Qed.

Lemma trim_empty (s : string) : trim s = "" <-> has_ink s = false.
Proof. unfold trim. now rewrite trimEnd_empty, trimStart_ink. Qed.

(** X21: the rule [validators.required] answers [true] exactly for the
    values other than [undefined] and [null] whose string form has a
    character that is not white space, and [false] otherwise: the
    values [false] and [0] pass, the empty string, a blank string and
    the empty array do not. *)
Theorem required_rule (value : Js.value) :
  (required value = ValidTrue
   <-> value <> VUndefined /\ value <> VNull /\ has_ink (to_string value) = true)
  /\ (required value = ValidTrue \/ required value = ValidOther)
  /\ required (VBool false) = ValidTrue
  /\ required (VNum 0) = ValidTrue
  /\ required (VArr []) = ValidOther.
Proof.
  assert (Hlen : forall s, Nat.ltb 0 (String.length (trim s)) = has_ink s).
  { intros s. destruct (has_ink s) eqn:Hi.
    - destruct (trim s) eqn:Ht; [|reflexivity].
      apply trim_empty in Ht. congruence.
    - apply trim_empty in Hi. now rewrite Hi. }
  split; [|split; [|repeat split]].
  - unfold required. rewrite Hlen.
    destruct value; simpl; try (split; [discriminate | intros (H1 & H2 & _); congruence]);
      (destruct (has_ink _);
       [split; [intros _; repeat split; discriminate | reflexivity]
       |split; [discriminate | intros (_ & _ & H); discriminate]]).
  - unfold required. destruct (_ && _); auto.
Qed.

End ValidatorFacts.

(** ** The readline manager: the life of the interfaces *)

Module ReadlineFacts.
Import CLIBuilder ReadlineManager ReadlineSpec.

Lemma audit_app (l1 l2 : list event) :
  forall open created,
  audit open created (l1 ++ l2)
  = match audit open created l1 with
    | Some (open', created') => audit open' created' l2
    | None => None
    end.
Proof.
  induction l1 as [|e l1 IH]; intros open created; simpl; [reflexivity|].
  destruct e as [k id|id q|id].
  - destruct (existsb (Nat.eqb id) created); [reflexivity | apply IH].
  - destruct (is_open id open); [apply IH | reflexivity].
  - destruct (is_open id open); [apply IH | reflexivity].
Qed.

Lemma fresh_number (created : list nat) (n : nat) :
  (forall id, In id created -> id < n) -> existsb (Nat.eqb n) created = false.
Proof.
  intros Hlt. destruct (existsb (Nat.eqb n) created) eqn:E; [|reflexivity].
  apply existsb_exists in E as (id & Hin & Heq). apply Nat.eqb_eq in Heq. subst.
  specialize (Hlt _ Hin). lia.
Qed.

Lemma consistent_cleanup (st : state) :
  consistent st -> consistent (snd (cleanup st)) /\ held (snd (cleanup st)) = [].
Proof.
  destruct st as [m a s inp h]. intros ((created & Ha & Hlt) & Hma & Hms).
  simpl in *. unfold held in Ha. simpl in Ha.
  destruct a as [i|]; destruct s as [j|]; simpl in *.
  - specialize (Hma ltac:(discriminate)). specialize (Hms ltac:(discriminate)).
    congruence.
  - split; [|reflexivity]. split; [|split; intros Hn; now destruct Hn].
    exists created. unfold held. simpl. rewrite audit_app, Ha. simpl.
    rewrite !Nat.eqb_refl. simpl.
    split; [reflexivity|]. intros id Hin. rewrite length_app. simpl.
    specialize (Hlt _ Hin). lia.
  - split; [|reflexivity]. split; [|split; intros Hn; now destruct Hn].
    exists created. unfold held. simpl. rewrite audit_app, Ha. simpl.
    rewrite !Nat.eqb_refl. simpl.
    split; [reflexivity|]. intros id Hin. rewrite length_app. simpl.
    specialize (Hlt _ Hin). lia.
  - split; [|reflexivity]. split; [|split; intros Hn; now destruct Hn].
    exists created. unfold held. simpl. auto.
Qed.

Lemma consistent_setMode (m : ReadlineMode) (st : state) :
  consistent st -> consistent (snd (setMode m st)) /\ held (snd (setMode m st)) = [].
Proof.
  intros ((created & Ha & Hlt) & Hma & Hms).
  destruct st as [m0 a s inp h]. simpl in *.
  destruct a as [i|]; destruct s as [j|]; simpl in *.
  - specialize (Hma ltac:(discriminate)). specialize (Hms ltac:(discriminate)).
    congruence.
  - split; [|reflexivity]. split; [|split; intros Hn; now destruct Hn].
    exists created. unfold held in *. simpl in *. rewrite audit_app, Ha. simpl.
    rewrite !Nat.eqb_refl. simpl.
    split; [reflexivity|]. intros id Hin. rewrite length_app. simpl.
    specialize (Hlt _ Hin). lia.
  - split; [|reflexivity]. split; [|split; intros Hn; now destruct Hn].
    exists created. unfold held in *. simpl in *. rewrite audit_app, Ha. simpl.
    rewrite !Nat.eqb_refl. simpl.
    split; [reflexivity|]. intros id Hin. rewrite length_app. simpl.
    specialize (Hlt _ Hin). lia.
  - split; [|reflexivity]. split; [|split; intros Hn; now destruct Hn].
    exists created. unfold held in *. simpl in *. auto.
Qed.

Lemma consistent_question (query : string) (st : state) :
  consistent st -> consistent (snd (question query st)).
Proof.
  intros ((created & Ha & Hlt) & Hma & Hms).
  destruct st as [m a s inp h]. simpl in *. unfold held in Ha. simpl in Ha.
  destruct m.
  - destruct s as [j|]; [specialize (Hms ltac:(discriminate)); discriminate|].
    destruct a as [i|].
    + unfold question, questionAsync, bind, gets, ask. simpl.
      assert (C : consistent (mkState ModeAsync (Some i) None
                                match inp with [] => [] | _ :: rest => rest end
                                (h ++ [Ask i query]))).
      { split; [|split; [reflexivity | intros Hn; now destruct Hn]].
        exists created. unfold held. simpl. rewrite audit_app, Ha. simpl.
        rewrite Nat.eqb_refl. simpl. split; [reflexivity|].
        intros id Hin. rewrite length_app. simpl. specialize (Hlt _ Hin). lia. }
      destruct inp; exact C.
    + unfold question, questionAsync, bind, gets, ask, createInterface, modify.
      simpl.
      assert (C : consistent (mkState ModeAsync (Some (List.length h)) None
                                match inp with [] => [] | _ :: rest => rest end
                                ((h ++ [Create AsyncKind (List.length h)])
                                 ++ [Ask (List.length h) query]))).
      { split; [|split; [reflexivity | intros Hn; now destruct Hn]].
        exists (List.length h :: created). unfold held. simpl.
        rewrite <- app_assoc, audit_app, Ha. simpl.
        rewrite (fresh_number _ _ Hlt), Nat.eqb_refl. simpl.
        split; [reflexivity|].
        intros id [<-|Hin]; rewrite !length_app; simpl; [lia|].
        specialize (Hlt _ Hin). lia. }
      destruct inp; exact C.
  - destruct a as [i|]; [specialize (Hma ltac:(discriminate)); discriminate|].
    destruct s as [j|].
    + unfold question, questionSync, bind, gets, ask. simpl.
      assert (C : consistent (mkState ModeSync None (Some j)
                                match inp with [] => [] | _ :: rest => rest end
                                (h ++ [Ask j query]))).
      { split; [|split; [intros Hn; now destruct Hn | reflexivity]].
        exists created. unfold held. simpl. rewrite audit_app, Ha. simpl.
        rewrite Nat.eqb_refl. simpl. split; [reflexivity|].
        intros id Hin. rewrite length_app. simpl. specialize (Hlt _ Hin). lia. }
      destruct inp; exact C.
    + unfold question, questionSync, bind, gets, ask, createInterface, modify.
      simpl.
      assert (C : consistent (mkState ModeSync None (Some (List.length h))
                                match inp with [] => [] | _ :: rest => rest end
                                ((h ++ [Create SyncKind (List.length h)])
                                 ++ [Ask (List.length h) query]))).
      { split; [|split; [intros Hn; now destruct Hn | reflexivity]].
        exists (List.length h :: created). unfold held. simpl.
        rewrite <- app_assoc, audit_app, Ha. simpl.
        rewrite (fresh_number _ _ Hlt), Nat.eqb_refl. simpl.
        split; [reflexivity|].
        intros id [<-|Hin]; rewrite !length_app; simpl; [lia|].
        specialize (Hlt _ Hin). lia. }
      destruct inp; exact C.
Qed.

Lemma consistent_run_op (o : op) (st : state) :
  consistent st -> consistent (run_op st o).
Proof.
  destruct o as [m|query|]; simpl; intros C.
  - now apply consistent_setMode.
  - now apply consistent_question.
  - now apply consistent_cleanup.
Qed.

Lemma consistent_run_ops (ops : list op) :
  forall st, consistent st -> consistent (run_ops ops st).
Proof.
  induction ops as [|o ops IH]; intros st C; [exact C|].
  apply IH. now apply consistent_run_op.
Qed.

Lemma consistent_new (input : list string) : consistent (new input).
Proof.
  split; [|split; intros Hn; now destruct Hn].
  exists []. split; [reflexivity | intros id []].
Qed.

Lemma consistent_held (st : state) :
  consistent st ->
  List.length (held st) <= 1
  /\ forall k id, In (k, id) (held st) -> k = kind_of (mode st).
Proof.
  intros (_ & Hma & Hms). unfold held.
  destruct (asyncInterface st) as [i|]; destruct (syncInterface st) as [j|]; simpl.
  - specialize (Hma ltac:(discriminate)). specialize (Hms ltac:(discriminate)).
    congruence.
  - rewrite Hma by discriminate. split; [lia|]. now intros k id [[= <- _]|[]].
  - rewrite Hms by discriminate. split; [lia|]. now intros k id [[= <- _]|[]].
  - split; [lia | intros k id []].
Qed.

(** X22: the interfaces of a [ReadlineManager] are handled in order. After
    any sequence of [setMode], [question] and [cleanup] calls on a new
    manager, every interface was created once, asked only while open and
    closed at most once; the interfaces still open are those in the
    fields of the manager: at most one, and of the kind of the current
    mode; none is open when the last call was [setMode] or [cleanup]. *)
Theorem interfaces_in_order (ops : list op) (input : list string) :
  (exists created,
     audit [] [] (history (run_ops ops (new input)))
     = Some (held (run_ops ops (new input)), created))
  /\ List.length (held (run_ops ops (new input))) <= 1
  /\ (forall k id, In (k, id) (held (run_ops ops (new input))) ->
        k = kind_of (mode (run_ops ops (new input))))
  /\ (ends_released ops = true -> held (run_ops ops (new input)) = []).
Proof.
  pose proof (consistent_run_ops ops _ (consistent_new input)) as C.
  split; [destruct C as ((created & Ha & _) & _); eauto|].
  split; [now apply consistent_held|]. split; [now apply consistent_held|].
  unfold ends_released. destruct ops as [|o ops] using rev_ind; [reflexivity|].
  clear IHops. rewrite rev_app_distr. simpl. unfold run_ops.
  rewrite fold_left_app. simpl.
  pose proof (consistent_run_ops ops _ (consistent_new input)) as C0.
  unfold run_ops in C0.
  destruct o as [m|query|]; simpl; intros Hr; try discriminate.
  - now apply consistent_setMode.
  - now apply consistent_cleanup.
Qed.

End ReadlineFacts.

(** ** [createCLI]: the plugins of the configuration *)

Module FactoryFacts.
Import Version PluginManager PluginSpec PluginOps PluginManagerFacts
  RegistryFacts Factory FactorySpec.

(** One callback: the plugin is stored and announced, or it is rejected
    and a warning is due; the manager is as [install] leaves it. *)
Lemma attempt_run (h : loop_state) (plugin : PluginConfig) :
  attempt h plugin
  = if acceptable (fst h) plugin
    then (installed (fst h) plugin, snd h)
    else (fst h, snd h ++ [install_warning plugin (rejection (fst h) plugin)]).
Proof.
  unfold attempt, rejection, install_warning.
  pose proof (install_cases plugin (fst h)) as C.
  destruct (acceptable (fst h) plugin).
  - now rewrite C.
  - destruct C as (e & -> & _). reflexivity.
Qed.

Lemma after_run_ops (l : list PluginConfig) :
  forall h, fst (fold_left attempt l h) = run_ops (List.map OpInstall l) (fst h).
Proof.
  induction l as [|plugin l IH]; intros h; simpl; [reflexivity|].
  rewrite IH. f_equal. unfold attempt.
  now destruct (install plugin (fst h)) as [[[]|t|] st].
Qed.

Lemma fold_attempt (l : list PluginConfig) :
  forall h, exists notices warnings,
    console (fst (fold_left attempt l h)) = console (fst h) ++ notices
    /\ snd (fold_left attempt l h) = snd h ++ warnings
    /\ forallb is_notice notices = true
    /\ forallb is_rejection_warning warnings = true
    /\ List.length notices + List.length warnings = List.length l
    /\ List.length (plugins (fst (fold_left attempt l h)))
       = List.length (plugins (fst h)) + List.length notices.
Proof.
  induction l as [|plugin l IH]; intros h; simpl.
  - exists [], []. rewrite !app_nil_r. repeat split; simpl; lia.
  - rewrite attempt_run. destruct (acceptable (fst h) plugin) eqn:Hacc.
    + destruct (IH (installed (fst h) plugin, snd h))
        as (notices & warnings & Ec & Ew & Fn & Fw & Hlen & Hp).
      rewrite Ec, Ew, Hp. simpl.
      destruct (acceptable_fields _ _ Hacc) as (n & v & Hn & _).
      pose proof (acceptable_fresh _ _ n Hacc Hn) as Hfresh.
      eexists (_ :: notices), warnings. rewrite <- app_assoc. simpl.
      split; [reflexivity|]. split; [reflexivity|].
      split; [exact Fn|]. split; [exact Fw|]. split; [lia|].
      rewrite Hn, map_set_fresh, length_app by exact Hfresh. simpl. lia.
    + destruct (IH (fst h, snd h ++ [install_warning plugin (rejection (fst h) plugin)]))
        as (notices & warnings & Ec & Ew & Fn & Fw & Hlen & Hp).
      rewrite Ec, Ew, Hp. simpl.
      exists notices, (install_warning plugin (rejection (fst h) plugin) :: warnings).
      rewrite <- app_assoc. simpl.
      split; [reflexivity|]. split; [reflexivity|]. split; [exact Fn|].
      split; [|split; lia].
      rewrite Fw, andb_true_r. unfold rejection.
      pose proof (install_cases plugin (fst h)) as C. rewrite Hacc in C.
      destruct C as (e & -> & Hc). simpl. now rewrite Hc.
Qed.

Lemma createCLI_fold (l : list PluginConfig) (console0 : list event) :
  createCLI_plugins (Some l) console0
  = mkState (plugins (fst (fold_left attempt l (mkState [] console0, []))))
      (console (fst (fold_left attempt l (mkState [] console0, [])))
       ++ snd (fold_left attempt l (mkState [] console0, []))).
Proof. destruct l; simpl; [now rewrite app_nil_r | reflexivity]. Qed.

Lemma fold_attempt_plugins (l : list PluginConfig) :
  forall st w w',
  plugins (fst (fold_left attempt l (st, w)))
  = plugins (fst (fold_left attempt l (st, w'))).
Proof. intros st w w'. now rewrite !after_run_ops. Qed.

(** X23: the plugins of [createCLI] are installed one by one into a new
    manager, and no plugin stands in the way of another. Each plugin of
    the configuration leaves exactly one line on the console: the notice
    of [install] when it is accepted, or, after all the notices, a
    warning with the [PluginError] when it is rejected; the manager
    holds one plugin per notice, each under its own name; and a plugin
    that is rejected leaves the manager as if it had not been in the
    list. *)
Theorem createCLI_plugins_isolated (l : list PluginConfig) (console0 : list event) :
  (exists notices warnings,
     console (createCLI_plugins (Some l) console0)
     = console0 ++ notices ++ warnings
     /\ forallb is_notice notices = true
     /\ forallb is_rejection_warning warnings = true
     /\ List.length notices + List.length warnings = List.length l
     /\ List.length (listPlugins (createCLI_plugins (Some l) console0))
        = List.length notices)
  /\ well_formed (plugins (createCLI_plugins (Some l) console0))
  /\ (forall before rejected rest,
        l = before ++ rejected :: rest ->
        acceptable (after before (mkState [] console0)) rejected = false ->
        plugins (createCLI_plugins (Some l) console0)
        = plugins (createCLI_plugins (Some (before ++ rest)) console0)).
Proof.
  split; [|split].
  - rewrite createCLI_fold.
    destruct (fold_attempt l (mkState [] console0, []))
      as (notices & warnings & Ec & Ew & Fn & Fw & Hlen & Hp).
    exists notices, warnings. simpl in *. rewrite Ec, Ew, <- app_assoc.
    split; [reflexivity|]. split; [exact Fn|]. split; [exact Fw|].
    split; [exact Hlen|]. unfold listPlugins, map_values. simpl.
    now rewrite length_map, Hp.
  - rewrite createCLI_fold. simpl. rewrite after_run_ops.
    apply run_ops_well_formed. split; constructor.
  - intros before rejected rest -> Hrej. rewrite !createCLI_fold. simpl.
    rewrite !fold_left_app. simpl.
    destruct (fold_left attempt before (mkState [] console0, [])) as [st w] eqn:E.
    unfold after in Hrej. rewrite E in Hrej. simpl in Hrej.
    rewrite attempt_run. simpl. rewrite Hrej.
    apply fold_attempt_plugins.
Qed.

End FactoryFacts.

(** ** The plugin manager: what a rejection says *)

Module RejectionFacts.
Import Regex PluginManager PluginSpec PluginOps RejectionSpec.

(** X24: what the caller of [install] and [uninstall] is told. [install]
    looks for a reason to reject in this order: the name is taken, the
    name is missing or not a string, the version is missing or not a
    string, the version has not the accepted form; the first one found
    is reported, as a [PluginError] whose message is the reason after
    [Failed to install plugin '<name>': ] and whose context names the
    operation and the plugin, also for the reasons that
    [validatePluginConfig] throws without a context; the manager is
    not changed. [uninstall] reports [Plugin '<name>' is not installed]
    in the same way. *)
Theorem rejection_report (config : PluginConfig) (n : string) (st : state) :
  install config st
  = match install_reason st config with
    | Some reason =>
        (Throw (plugin_failure "install" "install" (name config) reason), st)
    | None => (Ok tt, installed st config)
    end
  /\ uninstall n st
     = if map_has (plugins st) (VStr n)
       then (Ok tt, uninstalled st n)
       else (Throw (plugin_failure "uninstall" "uninstall" (VStr n)
                      ("Plugin '" +:+ n +:+ "' is not installed")), st).
Proof.
  destruct st as [m out]. split.
  - unfold install_reason, install, installed, plugin_failure, try_catch, bind,
      gets, when_, validatePluginConfig, set_plugins, emit, modify, throw, ret.
    simpl.
    destruct (map_has m (name config)); simpl; [reflexivity|].
    destruct (truthy (name config)); simpl; [|reflexivity].
    destruct (is_string (name config)); simpl; [|reflexivity].
    destruct (truthy (version config)); simpl; [|reflexivity].
    destruct (is_string (version config)); simpl; [|reflexivity].
    destruct (matches semverRegex (to_string (version config))); reflexivity.
  - unfold uninstall, uninstalled, plugin_failure, try_catch, bind, gets, when_,
      set_plugins, emit, modify, throw, ret. simpl.
    destruct (map_has m (VStr n)); reflexivity.
Qed.

End RejectionFacts.

(** ** The command-line parser *)

Module CommanderFacts.
Import Str Themes Validators MiniCommander CommanderSpec ValidatorFacts.

Lemma prefix_includes (s search : string) :
  String.prefix search s = true -> includes s search = true.
Proof. intros Hp. destruct s; cbn [includes]; now rewrite Hp. Qed.

Lemma includes_cons (c : ascii) (s search : string) :
  includes s search = true -> includes (String c s) search = true.
Proof. intros Hi. cbn [includes]. rewrite Hi. apply orb_true_r. Qed.

Lemma substring_includes (s search : string) :
  forall n, Nat.leb (n + String.length search) (String.length s) = true ->
  String.substring n (String.length search) s = search ->
  includes s search = true.
Proof.
  induction s as [|c s IH]; intros n Hlen Hsub.
  - destruct n; destruct search; simpl in *; try discriminate; reflexivity.
  - destruct n as [|n].
    + apply prefix_includes. now apply String.prefix_correct.
    + apply includes_cons. apply (IH n); [|exact Hsub].
      simpl in Hlen. exact Hlen.
Qed.

(** A string that ends with [suffix] includes it. *)
Lemma endsWith_includes (s suffix : string) :
  endsWith s suffix = true -> includes s suffix = true.
Proof.
  unfold endsWith. rewrite andb_true_iff. intros [Hlen Heq].
  apply String.eqb_eq in Heq. apply Nat.leb_le in Hlen.
  apply (substring_includes s suffix (String.length s - String.length suffix));
    [apply Nat.leb_le; lia | exact Heq].
Qed.

Lemma start_cases (args : list string) :
  (start args = 2
   <-> 2 <= List.length args
       /\ (includes (nth 0 args "") "node" = true
           \/ endsWith (nth 1 args "") ".js" = true))
  /\ (start args = 0 \/ start args = 2).
Proof.
  unfold start. destruct (Nat.leb_spec 2 (List.length args)) as [Hlen|Hlen]; simpl.
  - destruct (endsWith (nth 0 args "") "node") eqn:He.
    + apply endsWith_includes in He. split; [|now right].
      split; [auto | reflexivity].
    + destruct (includes (nth 0 args "") "node").
      * split; [|now right]. split; [auto | reflexivity].
      * destruct (endsWith (nth 1 args "") ".js").
        -- split; [|now right]. split; [auto | reflexivity].
        -- split; [|now left]. split; [discriminate|].
           intros [_ [H|H]]; discriminate.
  - split; [|now left]. split; [discriminate | lia].
Qed.

(** X25: what [parse] does with its arguments. The first two are dropped
    exactly when there are at least two and the first contains [node]
    or the second ends with [.js], whether or not they come from
    [process.argv]. A help flag anywhere among the others, even in the
    place of the value of an option, ends the call and prints nothing;
    otherwise a version flag prints the version and ends the call
    likewise. Without [exitOverride] the end is the exit of the process
    with code 0. With [exitOverride] it is a thrown [TypeError], the
    same for both flags: the class [CommanderError] that the code means
    to throw is not exported by the errors module, so neither the exit
    code nor the code [commander.helpDisplayed] or [commander.version]
    reaches the caller. In every other case [parse] calls the action, if
    there is one, once, with the first token that is not read as an
    option and the options found, and throws only what the action
    throws. *)
Theorem parse_outcome (process_argv : list string)
    (not_a_constructor : string)
    (this : Command) (argv : Datatypes.option (list string)) (st : state) :
  parse process_argv not_a_constructor this argv st
  = (if asks_help (real_args process_argv argv)
     then if exitOverrideEnabled this
          then (Throw (ErrorObj (plain_error not_a_constructor)), st)
          else (Blocked, st ++ [Exit 0%Z])
     else if asks_version (real_args process_argv argv)
     then if exitOverrideEnabled this
          then (Throw (ErrorObj (plain_error not_a_constructor)),
                st ++ [ConsoleLog (version this)])
          else (Blocked, st ++ [ConsoleLog (version this); Exit 0%Z])
     else match actionFn this with
          | Some fn =>
              (action_result
                 (fn (first_positional
                        (snd (scan this (real_args process_argv argv) ∅ [])))
                     (fst (scan this (real_args process_argv argv) ∅ []))),
               st ++ [ActionCall
                        (first_positional
                           (snd (scan this (real_args process_argv argv) ∅ [])))
                        (fst (scan this (real_args process_argv argv) ∅ []))])
          | None => (Ok tt, st)
          end)
  /\ (forall exitCode code,
        throwExit not_a_constructor this exitCode code st
        = if exitOverrideEnabled this
          then (Throw (ErrorObj (plain_error not_a_constructor)), st)
          else (Blocked, st ++ [Exit exitCode]))
  /\ (forall args,
        (start args = 2
         <-> 2 <= List.length args
             /\ (includes (nth 0 args "") "node" = true
                 \/ endsWith (nth 1 args "") ".js" = true))
        /\ (start args = 0 \/ start args = 2)).
Proof.
  split; [|split; [|apply start_cases]].
  2: { intros exitCode code. unfold throwExit.
       now destruct (exitOverrideEnabled this). }
  unfold parse, asks_help, asks_version, real_args, first_positional.
  set (real := skipn _ _).
  unfold bind at 1. unfold when_ at 1.
  destruct (has_token real "--help" || has_token real "-h").
  - unfold throwExit. destruct (exitOverrideEnabled this); reflexivity.
  - unfold ret at 1. unfold bind at 1. unfold when_.
    destruct (has_token real "-V" || has_token real "--version").
    + unfold throwExit, new_CommanderError, bind, emit, modify. simpl.
      destruct (exitOverrideEnabled this); [reflexivity|].
      unfold throw, block. simpl. now rewrite <- app_assoc.
    + unfold ret at 1. destruct (actionFn this) as [fn|]; [|reflexivity].
      unfold bind, emit, modify, action_result. simpl.
      now destruct (fn _ _).
Qed.

Lemma double_hyphen_flag (token : string) :
  startsWith token "--" = true -> is_flag token = true.
Proof.
  unfold is_flag, startsWith. rewrite !String.prefix_correct.
  destruct token as [|a [|b rest]]; simpl; try discriminate.
  rewrite !substring_0_0. now intros [= -> ->].
Qed.

Lemma scan_positional_aux (this : Command) (n : nat) :
  forall real opts p,
  List.length real <= n ->
  exists q,
    snd (scan this real opts p) = p ++ q
    /\ sublist q real
    /\ forallb (fun t => negb (is_flag t)) q = true.
Proof.
  induction n as [|n IH]; intros real opts p Hlen.
  - destruct real; [|simpl in Hlen; lia]. exists []. simpl.
    rewrite app_nil_r. repeat split. constructor.
  - destruct real as [|token rest]; [exists []; simpl; rewrite app_nil_r;
      repeat split; constructor|].
    simpl in Hlen.
    assert (Hrest : forall opts' p', exists q,
      snd (scan this rest opts' p') = p' ++ q /\ sublist q (token :: rest)
      /\ forallb (fun t => negb (is_flag t)) q = true).
    { intros opts' p'. destruct (IH rest opts' p' ltac:(lia)) as (q & E & S & F).
      exists q. split; [exact E|]. split; [now apply sublist_cons | exact F]. }
    assert (Hskip : forall opts' p',
      exists q,
        snd (match rest with
             | _ :: rest' => scan this rest' opts' p'
             | [] => (opts', p')
             end) = p' ++ q
        /\ sublist q (token :: rest)
        /\ forallb (fun t => negb (is_flag t)) q = true).
    { intros opts' p'. destruct rest as [|next rest'].
      - exists []. simpl. rewrite app_nil_r. repeat split. apply sublist_nil_l.
      - simpl in Hlen. destruct (IH rest' opts' p' ltac:(lia)) as (q & E & S & F).
        exists q. split; [exact E|]. split; [|exact F].
        now apply sublist_cons, sublist_cons. }
    cbn [scan].
    destruct (startsWith token "--") eqn:Hdd.
    + destruct (indexOf token "=") as [eq|]; [apply Hrest|].
      destruct (expects_value _); [|apply Hrest].
      destruct rest as [|next rest']; [|exact (Hskip _ _)].
      exact (Hskip _ _).
    + destruct (startsWith token "-" && Nat.ltb 1 (String.length token)) eqn:Hf.
      * destruct (Nat.eqb _ 1); [|apply Hrest].
        destruct (expects_value _); [|apply Hrest].
        destruct rest as [|next rest']; exact (Hskip _ _).
      * destruct (IH rest opts (p ++ [token]) ltac:(lia)) as (q & E & S & F).
        exists (token :: q). rewrite E, <- app_assoc. simpl.
        split; [reflexivity|]. split; [now apply sublist_skip|].
        unfold is_flag at 1. rewrite Hf. exact F.
Qed.

Lemma scan_no_flags (this : Command) (real : list string) :
  forall opts p,
  forallb (fun t => negb (is_flag t)) real = true ->
  scan this real opts p = (opts, p ++ real).
Proof.
  induction real as [|token rest IH]; intros opts p Hall.
  - simpl. now rewrite app_nil_r.
  - simpl in Hall. apply andb_true_iff in Hall as [Ht Hrest].
    apply negb_true_iff in Ht. cbn [scan].
    destruct (startsWith token "--") eqn:Hdd;
      [apply double_hyphen_flag in Hdd; congruence|].
    unfold is_flag in Ht. rewrite Ht.
    rewrite IH by exact Hrest. now rewrite <- app_assoc.
Qed.

(** X26: which tokens [parse] takes for arguments. The tokens that are
    not read as options keep their order; none of them starts with a
    hyphen, the lone hyphen apart, so the project name is never a flag;
    and when no token is a flag, all of them are arguments, no option is
    set, and the project name is the first token. *)
Theorem scan_positional (this : Command) (real : list string) :
  (exists q,
     snd (scan this real ∅ []) = q
     /\ sublist q real
     /\ forallb (fun t => negb (is_flag t)) q = true)
  /\ (forallb (fun t => negb (is_flag t)) real = true ->
      scan this real ∅ [] = (∅, real)
      /\ first_positional (snd (scan this real ∅ [])) = first_positional real).
Proof.
  split.
  - destruct (scan_positional_aux this (List.length real) real ∅ [] (le_n _))
      as (q & E & S & F). exists q. auto.
  - intros Hall. rewrite (scan_no_flags this real ∅ [] Hall). auto.
Qed.

End CommanderFacts.

(** ** The plugin manager: what the plugins contribute *)

Module HelperFacts.
Import PluginManager PluginSpec PluginOps PluginManagerFacts RegistryFacts
  PluginHelpers HelperSpec.

Lemma fold_templates {T} (templates : PluginConfig -> option (list T))
    (values : list PluginConfig) :
  forall all,
  fold_left (fun all plugin => match templates plugin with
                               | Some ts => all ++ ts
                               | None => all
                               end) values all
  = all ++ flat_map (templates_of templates) values.
Proof.
  induction values as [|plugin rest IH]; intros all; simpl.
  - now rewrite app_nil_r.
  - rewrite IH. unfold templates_of at 2.
    destruct (templates plugin); [now rewrite app_assoc | reflexivity].
Qed.

Lemma fold_assign {A} (field : PluginConfig -> option (gmap string A))
    (values : list PluginConfig) (k : string) :
  forall all,
  fold_left (fun all plugin => match field plugin with
                               | Some entries => assign all entries
                               | None => all
                               end) values all !! k
  = match last_entry field values k with
    | Some a => Some a
    | None => all !! k
    end.
Proof.
  induction values as [|plugin rest IH]; intros all; simpl; [reflexivity|].
  rewrite IH. destruct (last_entry field rest k); [reflexivity|].
  destruct (field plugin) as [entries|]; [|reflexivity].
  unfold assign. rewrite lookup_union.
  destruct (entries !! k), (all !! k); reflexivity.
Qed.

Lemma last_entry_app {A} (field : PluginConfig -> option (gmap string A))
    (values : list PluginConfig) (plugin : PluginConfig) (k : string) :
  last_entry field (values ++ [plugin]) k
  = match field plugin with
    | Some entries =>
        match entries !! k with
        | Some a => Some a
        | None => last_entry field values k
        end
    | None => last_entry field values k
    end.
Proof.
  induction values as [|p rest IH]; simpl.
  - destruct (field plugin) as [entries|]; [|reflexivity].
    now destruct (entries !! k).
  - rewrite IH. destruct (field plugin) as [entries|]; [|reflexivity].
    now destruct (entries !! k).
Qed.

(** X27: what the installed plugins contribute. [getAllTemplates] lists
    the templates of the plugins in the order in which the plugins were
    installed. [getAllValidators] and [getAllThemes] merge the entries of
    the plugins, and where two plugins have an entry of the same name
    the plugin installed last wins; so the entries of a plugin that
    [install] has just accepted override those of all plugins before
    it. *)
Theorem plugin_contributions (Template Validator Theme : Type)
    (templates : PluginConfig -> option (list Template))
    (validators : PluginConfig -> option (gmap string Validator))
    (themes : PluginConfig -> option (gmap string Theme))
    (st : state) :
  getAllTemplates Template templates st
  = flat_map (templates_of templates) (listPlugins st)
  /\ (forall k, getAllValidators Validator validators st !! k
                = last_entry validators (listPlugins st) k)
  /\ (forall k, getAllThemes Theme themes st !! k
                = last_entry themes (listPlugins st) k)
  /\ (forall config k,
        acceptable st config = true ->
        install config st = (Ok tt, installed st config)
        /\ getAllTemplates Template templates (installed st config)
        = getAllTemplates Template templates st ++ templates_of templates config
        /\ getAllValidators Validator validators (installed st config) !! k
           = match validators config with
             | Some entries =>
                 match entries !! k with
                 | Some v => Some v
                 | None => getAllValidators Validator validators st !! k
                 end
             | None => getAllValidators Validator validators st !! k
             end
        /\ getAllThemes Theme themes (installed st config) !! k
           = match themes config with
             | Some entries =>
                 match entries !! k with
                 | Some v => Some v
                 | None => getAllThemes Theme themes st !! k
                 end
             | None => getAllThemes Theme themes st !! k
             end).
Proof.
  assert (Ht : forall s, getAllTemplates Template templates s
                         = flat_map (templates_of templates) (listPlugins s)).
  { intros s. unfold getAllTemplates. now rewrite fold_templates. }
  assert (Hv : forall s k, getAllValidators Validator validators s !! k
                           = last_entry validators (listPlugins s) k).
  { intros s k. unfold getAllValidators. rewrite fold_assign.
    now destruct (last_entry _ _ _). }
  assert (Hth : forall s k, getAllThemes Theme themes s !! k
                            = last_entry themes (listPlugins s) k).
  { intros s k. unfold getAllThemes. rewrite fold_assign.
    now destruct (last_entry _ _ _). }
  split; [apply Ht|]. split; [apply Hv|]. split; [apply Hth|].
  intros config k Hacc.
  assert (Hlist : listPlugins (installed st config) = listPlugins st ++ [config]).
  { destruct (acceptable_fields st config Hacc) as (n & v & Hn & _).
    pose proof (acceptable_fresh st config n Hacc Hn) as Hfresh.
    unfold listPlugins, installed, map_values. simpl.
    rewrite Hn, map_set_fresh by exact Hfresh. now rewrite List.map_app. }
  split.
  { pose proof (install_cases config st) as C. now rewrite Hacc in C. }
  rewrite !Ht, !Hv, !Hth, Hlist, flat_map_app, !last_entry_app. simpl.
  rewrite app_nil_r. repeat split.
Qed.

End HelperFacts.

(** ** Where the prompt engine calls the presenter *)

Module PresenterCallFacts.
Import EffectFacts Str CLIBuilder PromptSpec PromptFacts AnswerSpec AnswerFacts.

(** X28: where the prompt engine calls the console presenter. A select
    and a multiselect prompt with choices call [showInfo] with the
    message before anything else, and so does the question about the
    readline mode; an input prompt calls [showError] right after its
    first question when the value is not accepted. *)
Theorem presenter_called_first (prompt : PromptConfig) (answers : dict)
    (st : state) :
  (forall cs, choices prompt = Some cs ->
     exists evs,
       terminal (snd (handleSelectPrompt prompt answers st))
       = terminal st ++ ShowInfo (message prompt) :: evs)
  /\ (forall cs, choices prompt = Some cs ->
        exists evs,
          terminal (snd (handleMultiSelectPrompt prompt answers st))
          = terminal st
            ++ ShowInfo (message prompt +:+ " (comma-separated numbers)") :: evs)
  /\ (exists evs,
        terminal (snd (askForReadlineMode st))
        = terminal st ++ ShowInfo "Choose readline implementation:" :: evs)
  /\ (forall line rest,
        input st = line :: rest ->
        accepts prompt (input_value prompt line) answers = false ->
        exists msg evs,
          terminal (snd (handleInputPrompt prompt answers st))
          = terminal st
            ++ Question (Some (name prompt)) (input_query prompt)
            :: ShowError msg :: evs).
Proof.
  split; [|split; [|split]].
  - intros cs Hcs. unfold handleSelectPrompt. rewrite Hcs.
    unfold bind at 1. rewrite showInfo_run. now exists [].
  - intros cs Hcs. unfold handleMultiSelectPrompt. rewrite Hcs.
    unfold bind at 1. rewrite showInfo_run. now exists [].
  - unfold askForReadlineMode.
    unfold bind at 1. rewrite showInfo_run. now exists [].
  - intros line rest Hin Hacc. unfold handleInputPrompt.
    assert (Hround : forall again,
      exists msg evs,
        terminal (snd (input_round prompt answers again st))
        = terminal st ++ Question (Some (name prompt)) (input_query prompt)
          :: ShowError msg :: evs).
    { intros again. unfold input_round.
      unfold bind at 1. unfold question at 1. rewrite Hin.
      fold (input_query prompt). cbn [fst snd].
      rewrite input_value_eq. unfold accepts in Hacc.
      destruct (validate prompt) as [rule|]; [|discriminate].
      destruct (ValidationRule.validate rule (input_value prompt line) answers)
        as [|m|]; [discriminate| |];
        unfold bind; rewrite showError_throws; cbn [fst snd terminal];
        eexists _, []; rewrite <- !app_assoc; reflexivity. }
    destruct (List.length (input st)); simpl; apply Hround.
Qed.

End PresenterCallFacts.
